(** * prisma-resilient-client: a shallow embedding of the connection manager

    The development follows the TypeScript sources:

    - the utilities of [src/utils]: [isConnectionError],
      [isRetryableError], [getErrorMessage] (errors), [calculateBackoff],
      [sleep] (backoff), [getHeapUsagePercent], [triggerGC] (memory);
      the delays of [calculateBackoff] are IEEE doubles, with their
      rounding, infinities and NaN;
    - [src/types.ts]: configuration, statistics and event types;
    - [src/ResilientPrismaClient.ts]: the manager ([connect], [disconnect],
      [ensureConnected], [executeWithReconnect], the refresh tick,
      [getConnectionStats], [healthCheck], ...).  The proxies of
      [getClient], which only route calls to [executeWithReconnect],
      [connect] and [disconnect], are not modelled.

    Asynchronous methods are modelled as computations in a state-and-exception
    monad: one call runs from its first statement to its completion, each
    [await] being an ordinary sequencing point.  Interleavings of several
    calls at their suspension points are outside the model. *)

From Stdlib Require Import ZArith QArith Bool List String Ascii Lia.
From Stdlib Require Import DecimalString SpecFloat.
Import ListNotations.

Set Warnings "-register-all".
Local Open Scope string_scope.
Local Open Scope Z_scope.

(* ================================================================== *)
(** ** JavaScript values *)
(* ================================================================== *)

(** The values an [unknown] can hold, as far as the sources inspect them.
    Numbers are the integral doubles (plus NaN); an object is the table of
    the properties that a property read resolves (own or inherited), with a
    flag telling whether it passes [instanceof Error].  Property reads are
    plain data reads (no accessors, no callable members). *)
Inductive JSVal : Type :=
| JUndefined
| JNull
| JBool (b : bool)
| JNum (n : Z)
| JNaN
| JStr (s : string)
| JObj (isError : bool) (fields : list (string * JSVal)).

(** A promise that has settled, or a call that has completed: [inl v] is a
    normal result, [inr e] is the thrown (rejected) value. *)
Definition Outcome (A : Type) : Type := (A + JSVal)%type.

Module JS.

(** ToBoolean. *)
Definition truthy (v : JSVal) : bool :=
  match v with
  | JUndefined | JNull | JNaN => false
  | JBool b => b
  | JNum n => negb (n =? 0)
  | JStr s => negb (String.eqb s "")
  | JObj _ _ => true
  end.

(** [typeof v === 'object'] (which holds of [null]). *)
Definition typeof_object (v : JSVal) : bool :=
  match v with
  | JNull | JObj _ _ => true
  | _ => false
  end.

Fixpoint assoc (k : string) (l : list (string * JSVal)) : option JSVal :=
  match l with
  | [] => None
  | (k', v) :: l' => if String.eqb k k' then Some v else assoc k l'
  end.

(** [v.k] on an object (the sources read properties of objects only). *)
Definition prop (v : JSVal) (k : string) : JSVal :=
  match v with
  | JObj _ fields =>
      match assoc k fields with Some x => x | None => JUndefined end
  | _ => JUndefined
  end.

(** ['k' in v]. *)
Definition has_prop (v : JSVal) (k : string) : bool :=
  match v with
  | JObj _ fields =>
      match assoc k fields with Some _ => true | None => false end
  | _ => false
  end.

Definition instanceof_Error (v : JSVal) : bool :=
  match v with
  | JObj isError _ => isError
  | _ => false
  end.

(** [new Error(message)]. *)
Definition new_Error (message : string) : JSVal :=
  JObj true [("message", JStr message)].

(** The [TypeError] raised by calling a member that is not a function. *)
Definition TypeError_not_a_function : JSVal :=
  JObj true [("message", JStr "err.message.toLowerCase is not a function")].

(** Characters are 8-bit; [toLowerCase] maps 'A'..'Z' to 'a'..'z'. *)
Definition lower_ascii (c : ascii) : ascii :=
  let n := nat_of_ascii c in
  if (Nat.leb 65 n && Nat.leb n 90)%bool then ascii_of_nat (n + 32) else c.

Fixpoint toLowerCase (s : string) : string :=
  match s with
  | EmptyString => EmptyString
  | String c s' => String (lower_ascii c) (toLowerCase s')
  end.

Fixpoint startsWith (s k : string) : bool :=
  match k, s with
  | EmptyString, _ => true
  | String a k', String b s' => (Ascii.eqb a b && startsWith s' k')%bool
  | String _ _, EmptyString => false
  end.

(** [s.includes(k)]. *)
Fixpoint includes (s k : string) : bool :=
  (startsWith s k ||
   match s with
   | EmptyString => false
   | String _ s' => includes s' k
   end)%bool.

(** [arr.includes(v)] for an array of strings: SameValueZero makes only
    a primitive string equal to a string. *)
Definition array_includes (arr : list string) (v : JSVal) : bool :=
  match v with
  | JStr s => existsb (String.eqb s) arr
  | _ => false
  end.

(** Decimal rendering of an integral number. *)
Definition string_of_Z (n : Z) : string :=
  NilZero.string_of_int (Z.to_int n).

(** [String(v)] on plain data. *)
Definition ToString (v : JSVal) : string :=
  match v with
  | JUndefined => "undefined"
  | JNull => "null"
  | JBool true => "true"
  | JBool false => "false"
  | JNum n => string_of_Z n
  | JNaN => "NaN"
  | JStr s => s
  | JObj _ _ => "[object Object]"
  end.

End JS.

(* ================================================================== *)
(** ** Error utilities of [src/utils] *)
(* ================================================================== *)

Definition CONNECTION_ERROR_CODES : list string :=
  ["P1001"; "P1008"; "P1017"; "P2024"].

Definition connectionKeywords : list string :=
  ["connection"; "connect"; "disconnect"; "econnrefused";
   "etimedout"; "enotfound"; "socket"; "network"].

(** [err.message?.toLowerCase()]: [undefined] for a nullish message, the
    lowered text for a string; any other message has no callable
    [toLowerCase], and the call throws. *)
Definition message_toLowerCase (m : JSVal) : Outcome JSVal :=
  match m with
  | JUndefined | JNull => inl JUndefined
  | JStr s => inl (JStr (JS.toLowerCase s))
  | _ => inr JS.TypeError_not_a_function
  end.

Definition isConnectionError (error : JSVal) : Outcome bool :=
  if (negb (JS.truthy error) || negb (JS.typeof_object error))%bool then
    inl false
  else
    let code := JS.prop error "code" in
    if (JS.truthy code && JS.array_includes CONNECTION_ERROR_CODES code)%bool
    then inl true
    else
      match message_toLowerCase (JS.prop error "message") with
      | inr e => inr e
      | inl lowered =>
          let message :=
            match lowered with
            | JStr s => if JS.truthy lowered then s else ""
            | _ => ""
            end in
          inl (existsb (fun keyword => JS.includes message keyword)
                       connectionKeywords)
      end.

Definition isRetryableError (error : JSVal) : Outcome bool :=
  isConnectionError error.

(** The source returns [error.message] as it is for an [Error] instance, so
    the result is a value; both call sites render it into a string. *)
Definition getErrorMessage (error : JSVal) : JSVal :=
  if negb (JS.truthy error) then JStr "Unknown error"
  else
    match error with
    | JStr _ => error
    | _ =>
        if JS.instanceof_Error error then JS.prop error "message"
        else if (JS.typeof_object error && JS.has_prop error "message")%bool
             then JStr (JS.ToString (JS.prop error "message"))
             else JStr (JS.ToString error)
    end.

(* ================================================================== *)
(** ** Backoff utilities of [src/utils] *)
(* ================================================================== *)

(** A [number] is an IEEE 754 binary64 value: [spec_float] of the standard
    library at precision 53 and exponent bound 1024, with its zeros of both
    signs, its infinities and NaN; the operations round to nearest, ties to
    even. *)
Module Double.

Definition prec : Z := 53.

Definition emax : Z := 1024.

Definition t : Type := spec_float.

(** The number that holds the integer [z]: [z] itself up to 2^53 in
    magnitude, the nearest double beyond. *)
Definition of_Z (z : Z) : t := binary_normalize prec emax z 0 false.

(** [x * y]. *)
Definition mul (x y : t) : t := SFmul prec emax x y.

(** [Math.pow(2, n)] for an integral [n]: the power of two, an infinity
    from [n = 1024] on, a zero below [n = -1074]. *)
Definition Math_pow_2 (n : Z) : t := binary_normalize prec emax 1 n false.

(** [Math.min(x, y)]: NaN when either is NaN, and [-0] below [+0]. *)
Definition Math_min (x y : t) : t :=
  match SFcompare x y with
  | None => S754_nan
  | Some Lt => x
  | Some Gt => y
  | Some Eq => match x with S754_zero true => x | _ => y end
  end.

(** [x <= y]; false when either is NaN. *)
Definition leb (x y : t) : bool := SFleb x y.

(** [Number.isSafeInteger], on an integer. *)
Definition isSafeInteger (z : Z) : Prop := Z.abs z < 2 ^ 53.

Definition is_number (x : t) : bool :=
  match x with S754_nan => false | _ => true end.

(** Neither NaN nor a zero. *)
Definition is_nonzero (x : t) : bool :=
  match x with
  | S754_finite _ _ _ | S754_infinity _ => true
  | _ => false
  end.

(** The mantissa [p] shifted left by [k] binary places. *)
Definition shl (p : positive) (k : Z) : positive :=
  match k with Zpos n => Pos.iter xO p n | _ => p end.

(** The integer that a number holds, if it holds one. *)
Definition to_Z (x : t) : option Z :=
  match x with
  | S754_zero _ => Some 0
  | S754_finite s m e =>
      let v := if s then Zneg m else Zpos m in
      if 0 <=? e then Some (v * 2 ^ e)
      else if Zpos m mod 2 ^ (- e) =? 0 then Some (v / 2 ^ (- e))
           else None
  | _ => None
  end.

End Double.

Inductive BackoffStrategy : Type := linear | exponential.

(** The delays are numbers; [attempt] is an integral number, the only kind
    on which [Math.pow(2, attempt - 1)] is a power of two. *)
Definition calculateBackoff
    (attempt : Z) (initialDelay maxDelay : Double.t)
    (strategy : BackoffStrategy) : Double.t :=
  let delay :=
    match strategy with
    | exponential => Double.mul initialDelay (Double.Math_pow_2 (attempt - 1))
    | linear => Double.mul initialDelay (Double.of_Z attempt)
    end in
  Double.Math_min delay maxDelay.

(* ================================================================== *)
(** ** src/types.ts *)
(* ================================================================== *)

Inductive LogLevel : Type := debug | info | warn | error.

(** [ErrorContext], the second argument of the custom error handler. *)
Record ErrorContext : Type := {
  ctx_operation : string;
  ctx_retryCount : Z;
  ctx_duration : Z
}.

(** A custom error handler: what its k-th invocation does with its
    arguments, [None] when it returns, [Some e] when it throws [e]. *)
Definition ErrorHandler : Type := nat -> JSVal -> ErrorContext -> option JSVal.

(** [ResilientConfig] after the merge with [DEFAULT_CONFIG].  A numeric
    option holds a number ([0] standing for every falsy setting), [backoff]
    and [level] may have been overridden by [undefined]. *)
Record Config : Type := {
  reconnect_maxAttempts : Z;
  reconnect_initialDelay : Z;
  reconnect_maxDelay : Z;
  reconnect_backoff : option BackoffStrategy;
  refresh_enabled : bool;
  refresh_intervalMs : Z;
  memory_autoGC : bool;
  memory_gcThreshold : Q;
  healthCheck_enabled : bool;
  healthCheck_intervalMs : Z;
  logging_level : option LogLevel;
  onError : option ErrorHandler
}.
Existing Class Config.

Definition DEFAULT_CONFIG : Config := {|
  reconnect_maxAttempts := 3;
  reconnect_initialDelay := 1000;
  reconnect_maxDelay := 10000;
  reconnect_backoff := Some exponential;
  refresh_enabled := true;
  refresh_intervalMs := 5 * 60 * 1000;
  memory_autoGC := true;
  memory_gcThreshold := (85 # 100)%Q;
  healthCheck_enabled := true;
  healthCheck_intervalMs := 60 * 1000;
  logging_level := Some info;
  onError := None
|}.

(** [ResilientPrismaEvents]: the events [emit] is typed to accept. *)
Inductive Event : Type :=
| Ev_connect
| Ev_disconnect (error : JSVal)
| Ev_reconnect (attempt : Z)
| Ev_reconnect_success
| Ev_reconnect_failed (error : JSVal)
| Ev_memory_high (usagePercent : Q)
| Ev_gc_executed.

Definition event_name (e : Event) : string :=
  match e with
  | Ev_connect => "connect"
  | Ev_disconnect _ => "disconnect"
  | Ev_reconnect _ => "reconnect"
  | Ev_reconnect_success => "reconnect:success"
  | Ev_reconnect_failed _ => "reconnect:failed"
  | Ev_memory_high _ => "memory:high"
  | Ev_gc_executed => "gc:executed"
  end.

(** [ConnectionStats].  [stat_lastSuccessfulConnection] is the instant that
    the source renders with [toISOString]. *)
Record ConnectionStats : Type := {
  stat_isConnected : bool;
  stat_reconnectAttempts : Z;
  stat_totalReconnects : Z;
  stat_lastSuccessfulConnection : option Z;
  stat_uptime : Z;
  stat_queryCount : Z;
  stat_errorCount : Z
}.

(* ================================================================== *)
(** ** The collaborators and the state of a run *)
(* ================================================================== *)

(** The identity of a [PrismaClient] object. *)
Definition Handle : Type := nat.

(** The behaviour of everything the manager calls but does not own: the
    k-th call of each primitive has the listed result. *)
Record Env : Type := {
  prisma_connect : nat -> option JSVal;     (* $connect(): [Some e] rejects *)
  prisma_disconnect : nat -> option JSVal;  (* $disconnect() *)
  operation : nat -> Outcome JSVal;         (* the wrapped operation *)
  clock : nat -> Z;                         (* Date.now(), new Date() *)
  heapUsagePercent : nat -> Q;              (* getHeapUsagePercent() *)
  global_gc : bool                          (* is global.gc exposed *)
}.
Existing Class Env.

(** What a run does to the outside, in order. *)
Inductive Action : Type :=
| Emit (e : Event)
| PrismaConnect (h : Handle)
| PrismaDisconnect (h : Handle)
| Operation
| Sleep (ms : Double.t)
| OnError (error : JSVal) (context : ErrorContext)
| GlobalGC.

Inductive LogMsg : Type :=
| Msg_FailedToInitialize (e : JSVal)
| Msg_Connected
| Msg_Disconnected
| Msg_ErrorDuringDisconnect (e : JSVal)
| Msg_ConnectionLost
| Msg_ReconnectionAttempt (attempt maxAttempts : Z)
| Msg_Waiting (delay : Double.t)
| Msg_ReconnectionSuccessful
| Msg_ReconnectionAttemptFailed (attempt : Z) (e : JSVal)
| Msg_Completed (operationName : string) (duration : Z)
| Msg_HighMemory (usagePercent : Q)
| Msg_GCExecuted
| Msg_Failed (operationName : string) (e : JSVal)
| Msg_ConnectionErrorDetected
| Msg_PeriodicRefresh
| Msg_Refreshed
| Msg_FailedToRefresh (e : JSVal)
| Msg_ShuttingDown
| Msg_ShutdownComplete.

(** The private fields of [ResilientPrismaClient].  A timer field holds the
    interval of the armed timer. *)
Record Manager : Type := {
  prisma : Handle;
  connected : bool;
  reconnectAttempts : Z;
  totalReconnects : Z;
  lastSuccessfulConnection : option Z;
  queryCount : Z;
  errorCount : Z;
  refreshTimer : option Z;
  healthCheckTimer : option Z
}.

(** How many times each primitive has been called so far. *)
Record Calls : Type := {
  n_connect : nat;
  n_disconnect : nat;
  n_operation : nat;
  n_onError : nat;
  n_clock : nat;
  n_heap : nat
}.

Record St : Type := {
  this : Manager;
  trace : list Action;
  logged : list (LogLevel * LogMsg);
  calls : Calls
}.

(** One more call of a primitive. *)
Definition tick_connect (c : Calls) : Calls :=
  {| n_connect := S (n_connect c); n_disconnect := n_disconnect c;
     n_operation := n_operation c; n_onError := n_onError c;
     n_clock := n_clock c; n_heap := n_heap c |}.

Definition tick_disconnect (c : Calls) : Calls :=
  {| n_connect := n_connect c; n_disconnect := S (n_disconnect c);
     n_operation := n_operation c; n_onError := n_onError c;
     n_clock := n_clock c; n_heap := n_heap c |}.

Definition tick_operation (c : Calls) : Calls :=
  {| n_connect := n_connect c; n_disconnect := n_disconnect c;
     n_operation := S (n_operation c); n_onError := n_onError c;
     n_clock := n_clock c; n_heap := n_heap c |}.

Definition tick_onError (c : Calls) : Calls :=
  {| n_connect := n_connect c; n_disconnect := n_disconnect c;
     n_operation := n_operation c; n_onError := S (n_onError c);
     n_clock := n_clock c; n_heap := n_heap c |}.

Definition tick_clock (c : Calls) : Calls :=
  {| n_connect := n_connect c; n_disconnect := n_disconnect c;
     n_operation := n_operation c; n_onError := n_onError c;
     n_clock := S (n_clock c); n_heap := n_heap c |}.

Definition tick_heap (c : Calls) : Calls :=
  {| n_connect := n_connect c; n_disconnect := n_disconnect c;
     n_operation := n_operation c; n_onError := n_onError c;
     n_clock := n_clock c; n_heap := S (n_heap c) |}.

Definition no_calls : Calls :=
  {| n_connect := 0; n_disconnect := 0; n_operation := 0;
     n_onError := 0; n_clock := 0; n_heap := 0 |}.

(** The fields as the class declares them, around the given client. *)
Definition new_Manager (prismaClient : Handle) : Manager := {|
  prisma := prismaClient;
  connected := false;
  reconnectAttempts := 0;
  totalReconnects := 0;
  lastSuccessfulConnection := None;
  queryCount := 0;
  errorCount := 0;
  refreshTimer := None;
  healthCheckTimer := None
|}.

Definition new_St (prismaClient : Handle) : St :=
  {| this := new_Manager prismaClient; trace := []; logged := [];
     calls := no_calls |}.

(** Field assignments; [prisma] has none: the class assigns it in its
    constructor only. *)
Definition set_connected (x : bool) (m : Manager) : Manager :=
  {| prisma := prisma m; connected := x;
     reconnectAttempts := reconnectAttempts m;
     totalReconnects := totalReconnects m;
     lastSuccessfulConnection := lastSuccessfulConnection m;
     queryCount := queryCount m; errorCount := errorCount m;
     refreshTimer := refreshTimer m; healthCheckTimer := healthCheckTimer m |}.

Definition set_reconnectAttempts (x : Z) (m : Manager) : Manager :=
  {| prisma := prisma m; connected := connected m; reconnectAttempts := x;
     totalReconnects := totalReconnects m;
     lastSuccessfulConnection := lastSuccessfulConnection m;
     queryCount := queryCount m; errorCount := errorCount m;
     refreshTimer := refreshTimer m; healthCheckTimer := healthCheckTimer m |}.

Definition set_totalReconnects (x : Z) (m : Manager) : Manager :=
  {| prisma := prisma m; connected := connected m;
     reconnectAttempts := reconnectAttempts m; totalReconnects := x;
     lastSuccessfulConnection := lastSuccessfulConnection m;
     queryCount := queryCount m; errorCount := errorCount m;
     refreshTimer := refreshTimer m; healthCheckTimer := healthCheckTimer m |}.

Definition set_lastSuccessfulConnection (x : option Z) (m : Manager) : Manager :=
  {| prisma := prisma m; connected := connected m;
     reconnectAttempts := reconnectAttempts m;
     totalReconnects := totalReconnects m; lastSuccessfulConnection := x;
     queryCount := queryCount m; errorCount := errorCount m;
     refreshTimer := refreshTimer m; healthCheckTimer := healthCheckTimer m |}.

Definition set_queryCount (x : Z) (m : Manager) : Manager :=
  {| prisma := prisma m; connected := connected m;
     reconnectAttempts := reconnectAttempts m;
     totalReconnects := totalReconnects m;
     lastSuccessfulConnection := lastSuccessfulConnection m;
     queryCount := x; errorCount := errorCount m;
     refreshTimer := refreshTimer m; healthCheckTimer := healthCheckTimer m |}.

Definition set_errorCount (x : Z) (m : Manager) : Manager :=
  {| prisma := prisma m; connected := connected m;
     reconnectAttempts := reconnectAttempts m;
     totalReconnects := totalReconnects m;
     lastSuccessfulConnection := lastSuccessfulConnection m;
     queryCount := queryCount m; errorCount := x;
     refreshTimer := refreshTimer m; healthCheckTimer := healthCheckTimer m |}.

Definition set_refreshTimer (x : option Z) (m : Manager) : Manager :=
  {| prisma := prisma m; connected := connected m;
     reconnectAttempts := reconnectAttempts m;
     totalReconnects := totalReconnects m;
     lastSuccessfulConnection := lastSuccessfulConnection m;
     queryCount := queryCount m; errorCount := errorCount m;
     refreshTimer := x; healthCheckTimer := healthCheckTimer m |}.

Definition set_healthCheckTimer (x : option Z) (m : Manager) : Manager :=
  {| prisma := prisma m; connected := connected m;
     reconnectAttempts := reconnectAttempts m;
     totalReconnects := totalReconnects m;
     lastSuccessfulConnection := lastSuccessfulConnection m;
     queryCount := queryCount m; errorCount := errorCount m;
     refreshTimer := refreshTimer m; healthCheckTimer := x |}.

(* ================================================================== *)
(** ** The monad of asynchronous methods *)
(* ================================================================== *)

(** A method takes the state to its outcome and the state it leaves. *)
Definition M (A : Type) : Type := St -> Outcome A * St.

Definition ret {A : Type} (a : A) : M A := fun s => (inl a, s).

Definition throw {A : Type} (e : JSVal) : M A := fun s => (inr e, s).

Definition bind {A B : Type} (m : M A) (k : A -> M B) : M B :=
  fun s =>
    match m s with
    | (inl a, s') => k a s'
    | (inr e, s') => (inr e, s')
    end.

(** [try { m } catch (error) { handler error }]. *)
Definition try_catch {A : Type} (m : M A) (handler : JSVal -> M A) : M A :=
  fun s =>
    match m s with
    | (inl a, s') => (inl a, s')
    | (inr e, s') => handler e s'
    end.

(** A synchronous call that may throw. *)
Definition lift {A : Type} (o : Outcome A) : M A := fun s => (o, s).

Declare Scope js_scope.
Delimit Scope js_scope with js.
Notation "x <- m ;; k" := (bind m (fun x => k))
  (at level 61, m at next level, right associativity) : js_scope.
Notation "m ;; k" := (bind m (fun _ => k))
  (at level 61, right associativity) : js_scope.
Local Open Scope js_scope.

Definition gets {A : Type} (f : Manager -> A) : M A :=
  fun s => (inl (f (this s)), s).

(** [this.field = x]. *)
Definition assign (f : Manager -> Manager) : M unit :=
  fun s =>
    (inl tt, {| this := f (this s); trace := trace s; logged := logged s;
                calls := calls s |}).

Definition act (a : Action) (s : St) : St :=
  {| this := this s; trace := trace s ++ [a]; logged := logged s;
     calls := calls s |}.

Definition with_calls (c : Calls) (s : St) : St :=
  {| this := this s; trace := trace s; logged := logged s; calls := c |}.

(** [this.emit(event, ...args)], with listeners that return. *)
Definition emit (e : Event) : M unit := fun s => (inl tt, act (Emit e) s).

(** [sleep(ms)]. *)
Definition sleep (ms : Double.t) : M unit := fun s => (inl tt, act (Sleep ms) s).

Definition level_index (l : LogLevel) : Z :=
  match l with debug => 0 | info => 1 | warn => 2 | error => 3 end.

Section Methods.

Context {cfg : Config} {env : Env}.

(** What [this.log(level, message, ...args)] hands to the logger. *)
Definition log_lines (level : LogLevel) (msg : LogMsg)
  : list (LogLevel * LogMsg) :=
  let configLevel :=
    level_index (match logging_level cfg with
                 | Some l => l
                 | None => info
                 end) in
  let messageLevel := level_index level in
  if messageLevel >=? configLevel then [(level, msg)] else [].

Definition log (level : LogLevel) (msg : LogMsg) : M unit :=
  fun s =>
    (inl tt, {| this := this s; trace := trace s;
                logged := logged s ++ log_lines level msg;
                calls := calls s |}).

(** [await this.prisma.$connect()]. *)
Definition call_connect : M unit :=
  fun s =>
    let c := calls s in
    let s' :=
      with_calls (tick_connect c)
                 (act (PrismaConnect (prisma (this s))) s) in
    match prisma_connect env (n_connect c) with
    | None => (inl tt, s')
    | Some e => (inr e, s')
    end.

(** [await this.prisma.$disconnect()]. *)
Definition call_disconnect : M unit :=
  fun s =>
    let c := calls s in
    let s' :=
      with_calls (tick_disconnect c)
                 (act (PrismaDisconnect (prisma (this s))) s) in
    match prisma_disconnect env (n_disconnect c) with
    | None => (inl tt, s')
    | Some e => (inr e, s')
    end.

(** [await operation()]. *)
Definition call_operation : M JSVal :=
  fun s =>
    let c := calls s in
    (operation env (n_operation c),
     with_calls (tick_operation c)
                (act Operation s)).

(** [await this.config.onError(error, context)]. *)
Definition call_onError (handler : ErrorHandler)
    (err : JSVal) (context : ErrorContext) : M unit :=
  fun s =>
    let c := calls s in
    let s' :=
      with_calls (tick_onError c)
                 (act (OnError err context) s) in
    match handler (n_onError c) err context with
    | None => (inl tt, s')
    | Some e => (inr e, s')
    end.

(** [Date.now()], and the instant of [new Date()]. *)
Definition Date_now : M Z :=
  fun s =>
    let c := calls s in
    (inl (clock env (n_clock c)),
     with_calls (tick_clock c) s).

(** The memory utilities of [src/utils]. *)
Definition getHeapUsagePercent : M Q :=
  fun s =>
    let c := calls s in
    (inl (heapUsagePercent env (n_heap c)),
     with_calls (tick_heap c) s).

Definition triggerGC : M bool :=
  fun s =>
    if global_gc env then (inl true, act GlobalGC s) else (inl false, s).

(** [x || d] on a number. *)
Definition or_default (x d : Z) : Z := if x =? 0 then d else x.

(** *** src/ResilientPrismaClient.ts *)

Definition connect : M unit :=
  try_catch
    (call_connect ;;
     assign (set_connected true) ;;
     now <- Date_now ;;
     assign (set_lastSuccessfulConnection (Some now)) ;;
     assign (set_reconnectAttempts 0) ;;
     emit Ev_connect ;;
     log info Msg_Connected)
    (fun err =>
       assign (set_connected false) ;;
       emit (Ev_disconnect err) ;;
       throw err).

Definition disconnect : M unit :=
  try_catch
    (call_disconnect ;;
     assign (set_connected false) ;;
     log info Msg_Disconnected)
    (fun err =>
       assign (set_connected false) ;;
       log error (Msg_ErrorDuringDisconnect err)).

(** How one turn of the reconnection loop ends when it does not throw. *)
Inductive LoopExit : Type := Return | NextIteration.

Definition reconnect_failed_message (maxAttempts : Z) (err : JSVal) : string :=
  "Failed to reconnect after " ++ JS.string_of_Z maxAttempts
    ++ " attempts: " ++ JS.ToString (getErrorMessage err).

(** The delay that [ensureConnected] computes before a connect attempt. *)
Definition reconnect_delay (attempt : Z) : Double.t :=
  calculateBackoff attempt
    (Double.of_Z (or_default (reconnect_initialDelay cfg) 1000))
    (Double.of_Z (or_default (reconnect_maxDelay cfg) 10000))
    (match reconnect_backoff cfg with
     | Some b => b
     | None => exponential
     end).

(** The body of the [for] loop of [ensureConnected]. *)
Definition reconnect_attempt (maxAttempts attempt : Z) : M LoopExit :=
  assign (set_reconnectAttempts attempt) ;;
  emit (Ev_reconnect attempt) ;;
  log info (Msg_ReconnectionAttempt attempt maxAttempts) ;;
  try_catch
    (disconnect ;;
     let delay := reconnect_delay attempt in
     log debug (Msg_Waiting delay) ;;
     sleep delay ;;
     connect ;;
     n <- gets totalReconnects ;;
     assign (set_totalReconnects (n + 1)) ;;
     emit Ev_reconnect_success ;;
     log info Msg_ReconnectionSuccessful ;;
     ret Return)
    (fun err =>
       log warn (Msg_ReconnectionAttemptFailed attempt err) ;;
       if attempt =? maxAttempts then
         emit (Ev_reconnect_failed err) ;;
         throw (JS.new_Error (reconnect_failed_message maxAttempts err))
       else ret NextIteration).

(** [for (let attempt = ...; attempt <= maxAttempts; attempt++)]: [fuel]
    bounds the number of turns. *)
Fixpoint reconnect_loop (fuel : nat) (maxAttempts attempt : Z) : M unit :=
  match fuel with
  | O => ret tt
  | S fuel' =>
      if attempt <=? maxAttempts then
        r <- reconnect_attempt maxAttempts attempt ;;
        match r with
        | Return => ret tt
        | NextIteration => reconnect_loop fuel' maxAttempts (attempt + 1)
        end
      else ret tt
  end.

Definition ensureConnected : M unit :=
  c <- gets connected ;;
  if c then ret tt
  else
    log debug Msg_ConnectionLost ;;
    let maxAttempts := or_default (reconnect_maxAttempts cfg) 3 in
    reconnect_loop (Z.to_nat maxAttempts) maxAttempts 1.

(** [x || 0.85] on the threshold. *)
Definition gcThreshold_or_default (x : Q) : Q :=
  if Qeq_bool x 0 then (85 # 100)%Q else x.

(** The statements of the [try] block of [executeWithReconnect] that
    follow the operation. *)
Definition record_success (operationName : string) (startTime : Z) : M unit :=
  n <- gets queryCount ;;
  assign (set_queryCount (n + 1)) ;;
  t <- Date_now ;;
  let duration := t - startTime in
  log debug (Msg_Completed operationName duration) ;;
  if memory_autoGC cfg then
    heapUsage <- getHeapUsagePercent ;;
    let gcThreshold := gcThreshold_or_default (memory_gcThreshold cfg) in
    if Qle_bool gcThreshold heapUsage then
      log warn (Msg_HighMemory (heapUsage * 100)%Q) ;;
      emit (Ev_memory_high (heapUsage * 100)%Q) ;;
      collected <- triggerGC ;;
      if collected then
        emit Ev_gc_executed ;;
        log info Msg_GCExecuted
      else ret tt
    else ret tt
  else ret tt.

(** The [catch] block of [executeWithReconnect]. *)
Definition on_failure (operationName : string) (startTime : Z) (err : JSVal)
  : M JSVal :=
  n <- gets errorCount ;;
  assign (set_errorCount (n + 1)) ;;
  t <- Date_now ;;
  let duration := t - startTime in
  log error (Msg_Failed operationName err) ;;
  match onError cfg with
  | Some handler =>
      retryCount <- gets reconnectAttempts ;;
      call_onError handler err
        {| ctx_operation := operationName;
           ctx_retryCount := retryCount;
           ctx_duration := duration |}
  | None => ret tt
  end ;;
  retryable <- lift (isRetryableError err) ;;
  if retryable then
    assign (set_connected false) ;;
    emit (Ev_disconnect err) ;;
    log warn Msg_ConnectionErrorDetected ;;
    ensureConnected ;;
    call_operation
  else throw err.

Definition executeWithReconnect (operationName : string) : M JSVal :=
  startTime <- Date_now ;;
  try_catch
    (ensureConnected ;;
     result <- call_operation ;;
     record_success operationName startTime ;;
     ret result)
    (on_failure operationName startTime).

(** The callback that [startPeriodicRefresh] hands to [setInterval]. *)
Definition refreshTick : M unit :=
  log debug Msg_PeriodicRefresh ;;
  try_catch
    (assign (set_connected false) ;;
     disconnect ;;
     ensureConnected ;;
     log info Msg_Refreshed)
    (fun err =>
       log error (Msg_FailedToRefresh err) ;;
       assign (set_connected false)).

Definition startPeriodicRefresh : M unit :=
  assign (set_refreshTimer
            (Some (or_default (refresh_intervalMs cfg) 300000))).

Definition startHealthChecks : M unit :=
  assign (set_healthCheckTimer
            (Some (or_default (healthCheck_intervalMs cfg) 60000))).

Definition initialize : M unit :=
  try_catch
    (connect ;;
     (if refresh_enabled cfg then startPeriodicRefresh else ret tt) ;;
     (if healthCheck_enabled cfg then startHealthChecks else ret tt))
    (fun err => log error (Msg_FailedToInitialize err)).

Definition getConnectionStats : M ConnectionStats :=
  last <- gets lastSuccessfulConnection ;;
  uptime <- match last with
            | Some t => now <- Date_now ;; ret (now - t)
            | None => ret 0
            end ;;
  m <- gets (fun m => m) ;;
  ret {| stat_isConnected := connected m;
         stat_reconnectAttempts := reconnectAttempts m;
         stat_totalReconnects := totalReconnects m;
         stat_lastSuccessfulConnection := lastSuccessfulConnection m;
         stat_uptime := uptime;
         stat_queryCount := queryCount m;
         stat_errorCount := errorCount m |}.

(** The public [reconnect()]. *)
Definition reconnect : M unit :=
  assign (set_connected false) ;;
  ensureConnected.

Definition shutdown : M unit :=
  log info Msg_ShuttingDown ;;
  assign (set_refreshTimer None) ;;
  assign (set_healthCheckTimer None) ;;
  disconnect ;;
  log info Msg_ShutdownComplete.

End Methods.

(* ================================================================== *)
(** ** Sequences of calls on one manager *)
(* ================================================================== *)

(** The entry points through which the fields of a manager change: the
    constructor's [initialize], an operation through the proxy of
    [getClient] (its [$connect] and [$disconnect] go to [connect] and
    [disconnect]), a tick of the refresh timer, and the public methods.
    [healthCheck] touches no field. *)
Inductive Call : Type :=
| CallInitialize
| CallExecute (operationName : string)
| CallConnect
| CallDisconnect
| CallRefreshTick
| CallReconnect
| CallGetConnectionStats
| CallShutdown.

Section Runs.

Context {cfg : Config} {env : Env}.

Definition run_call (c : Call) (s : St) : St :=
  match c with
  | CallInitialize => snd (initialize s)
  | CallExecute operationName => snd (executeWithReconnect operationName s)
  | CallConnect => snd (connect s)
  | CallDisconnect => snd (disconnect s)
  | CallRefreshTick => snd (refreshTick s)
  | CallReconnect => snd (reconnect s)
  | CallGetConnectionStats => snd (getConnectionStats s)
  | CallShutdown => snd (shutdown s)
  end.

(** The calls run one after the other, each to completion. *)
Definition run_calls (l : list Call) (s : St) : St :=
  fold_left (fun s c => run_call c s) l s.

End Runs.

(** The clients that a trace shows the manager driving, in order. *)
Definition handles (tr : list Action) : list Handle :=
  flat_map (fun a => match a with
                     | PrismaConnect h | PrismaDisconnect h => [h]
                     | _ => []
                     end) tr.

(** How many times a sequence moves from one client to another one. *)
Fixpoint replacements (l : list Handle) : nat :=
  match l with
  | h :: ((h' :: _) as l') =>
      ((if Nat.eqb h h' then 0 else 1) + replacements l')%nat
  | _ => 0%nat
  end.

(** A hard reset discards the client and goes on with a fresh one. *)
Definition hard_resets (tr : list Action) : nat := replacements (handles tr).

Definition emitted (tr : list Action) : list Event :=
  flat_map (fun a => match a with Emit e => [e] | _ => [] end) tr.

Definition is_reconnect_failed (e : Event) : bool :=
  match e with Ev_reconnect_failed _ => true | _ => false end.

Definition is_connect_call (a : Action) : bool :=
  match a with PrismaConnect _ => true | _ => false end.

(* ================================================================== *)
(** ** The specification's wording *)
(* ================================================================== *)



(** The inputs on which the delay is computed without rounding and
    without overflow: the uncapped delay is a safe integer, and so is what
    [initialDelay] is multiplied by. *)
Definition exact_inputs
    (attempt initialDelay : Z) (strategy : BackoffStrategy) : Prop :=
  match strategy with
  | exponential =>
      attempt <= 1024 /\
      Double.isSafeInteger (initialDelay * 2 ^ (attempt - 1))
  | linear =>
      Double.isSafeInteger attempt /\
      Double.isSafeInteger (initialDelay * attempt)
  end.

(** "case-insensitive substring match": some stretch of the text equals the
    keyword up to letter case. *)
Definition contains_ci (text keyword : string) : Prop :=
  exists pre mid post,
    text = pre ++ mid ++ post /\
    JS.toLowerCase mid = JS.toLowerCase keyword.

(** "an error is recoverable if it carries one of a fixed set of
    connection-failure codes or its textual description contains a
    connection-related keyword". *)
Definition recoverable (err : JSVal) : Prop :=
  exists isError fields,
    err = JObj isError fields /\
    ((exists code,
         JS.prop err "code" = JStr code /\ In code CONNECTION_ERROR_CODES)
     \/
     (exists message keyword,
         JS.prop err "message" = JStr message /\
         In keyword connectionKeywords /\
         contains_ci message keyword)).

(* ================================================================== *)
(** ** The elementary state changes of the methods *)
(* ================================================================== *)

Section Steps.

Context {cfg : Config} {env : Env}.

(** What the reconnection protocol is made of. *)
Inductive reconnect_step : St -> St -> Prop :=
| rs_connect s : reconnect_step s (snd (connect s))
| rs_disconnect s : reconnect_step s (snd (disconnect s))
| rs_reconnectAttempts s attempt :
    reconnect_step s (snd (assign (set_reconnectAttempts attempt) s))
| rs_totalReconnects s n :
    reconnect_step s (snd (assign (set_totalReconnects n) s))
| rs_emit s e :
    e <> Ev_connect -> reconnect_step s (snd (emit e s))
| rs_sleep s ms : reconnect_step s (snd (sleep ms s))
| rs_log s level msg : reconnect_step s (snd (log level msg s)).

(** What the methods are made of. *)
Inductive manager_step : St -> St -> Prop :=
| ms_disconnected s :
    manager_step s (snd (assign (set_connected false) s))
| ms_queryCount s n :
    manager_step s (snd (assign (set_queryCount n) s))
| ms_errorCount s n :
    manager_step s (snd (assign (set_errorCount n) s))
| ms_refreshTimer s t :
    manager_step s (snd (assign (set_refreshTimer t) s))
| ms_healthCheckTimer s t :
    manager_step s (snd (assign (set_healthCheckTimer t) s))
| ms_operation s : manager_step s (snd (call_operation s))
| ms_onError s handler err context :
    manager_step s (snd (call_onError handler err context s))
| ms_Date_now s : manager_step s (snd (Date_now s))
| ms_heap s : manager_step s (snd (getHeapUsagePercent s))
| ms_gc s : manager_step s (snd (triggerGC s))
| ms_reconnect s s' : reconnect_step s s' -> manager_step s s'.

End Steps.

(** [m] takes every state to a state related to it by [R]. *)
Definition Moves (R : St -> St -> Prop) {A : Type} (m : M A) : Prop :=
  forall s, R s (snd (m s)).

(** Zero or more steps. *)
Inductive star (step : St -> St -> Prop) : St -> St -> Prop :=
| star_refl s : star step s s
| star_step s1 s2 s3 : star step s1 s2 -> step s2 s3 -> star step s1 s3.

Section Observations.

Context {cfg : Config} {env : Env}.

(** What the memory check does when the k-th sample of the heap is the one
    it reads: nothing unless [autoGC] is set and the sample reaches the
    threshold; then [memory:high], and the collection with [gc:executed]
    where [global.gc] is exposed. *)
Definition memory_actions (k : nat) : list Action :=
  if memory_autoGC cfg then
    let heapUsage := heapUsagePercent env k in
    if Qle_bool (gcThreshold_or_default (memory_gcThreshold cfg)) heapUsage
    then Emit (Ev_memory_high (heapUsage * 100)%Q)
         :: (if global_gc env then [GlobalGC; Emit Ev_gc_executed] else [])
    else []
  else [].

(** The configured error handler, if any, returns from its next call. *)
Definition handler_returns (s : St) (err : JSVal) : Prop :=
  forall handler,
    onError cfg = Some handler ->
    forall context, handler (n_onError (calls s)) err context = None.

(** What the [catch] block of [executeWithReconnect] hands to the error
    handler. *)
Definition handler_actions
    (operationName : string) (startTime : Z) (s : St) (err : JSVal)
  : list Action :=
  match onError cfg with
  | Some _ =>
      [OnError err {| ctx_operation := operationName;
                      ctx_retryCount := reconnectAttempts (this s);
                      ctx_duration := clock env (n_clock (calls s))
                                      - startTime |}]
  | None => []
  end.

(** The field [lastSuccessfulConnection] tells whether [connect] was ever
    emitted, and then holds a reading of the clock. *)
Definition connection_recorded (s : St) : Prop :=
  (lastSuccessfulConnection (this s) = None <->
   ~ In Ev_connect (emitted (trace s))) /\
  (forall t, lastSuccessfulConnection (this s) = Some t ->
             exists k, (k < n_clock (calls s))%nat /\ t = clock env k).

End Observations.

(** The manager drives the client [h] and has driven no other one. *)
Definition drives (h : Handle) (s : St) : Prop :=
  prisma (this s) = h /\ forall h', In h' (handles (trace s)) -> h' = h.

(** The counters that the reconnection protocol leaves alone. *)
Definition same_counters (s s' : St) : Prop :=
  n_operation (calls s') = n_operation (calls s) /\
  n_onError (calls s') = n_onError (calls s) /\
  n_heap (calls s') = n_heap (calls s) /\
  queryCount (this s') = queryCount (this s) /\
  errorCount (this s') = errorCount (this s) /\
  prisma (this s') = prisma (this s).

(** The state [s] with another instant of last connection. *)
Definition aged (t : option Z) (s : St) : St :=
  {| this := set_lastSuccessfulConnection t (this s); trace := trace s;
     logged := logged s; calls := calls s |}.

(** Two states that differ at most in the instant of last connection. *)
Definition same_but_age (s1 s2 : St) : Prop := aged None s1 = aged None s2.

(** [m] does not look at the instant of last connection. *)
Definition Ageless {A : Type} (m : M A) : Prop :=
  forall s1 s2,
    same_but_age s1 s2 ->
    fst (m s1) = fst (m s2) /\ same_but_age (snd (m s1)) (snd (m s2)).

(* ================================================================== *)
(** ** The health check *)
(* ================================================================== *)

Inductive HealthStatus : Type := healthy | unhealthy.

Inductive DatabaseStatus : Type := database_connected | database_disconnected.

Section HealthCheck.

Context {env : Env}.

(** What [getMemoryInfo()] returns: three formatted figures that the
    manager passes on without reading them. *)
Variable MemoryInfo : Type.

(** [HealthCheckResult]; an absent optional field is [None]. *)
Record HealthCheckResult : Type := {
  hc_status : HealthStatus;
  hc_database : DatabaseStatus;
  hc_latency : option Z;
  hc_memory : option MemoryInfo;
  hc_error : option JSVal
}.

(** [healthCheck()].  [queryRaw] is how the probe
    [this.prisma.$queryRaw`SELECT 1`] settles, [memoryInfo] what
    [getMemoryInfo()] returns. *)
Definition healthCheck (queryRaw : Outcome JSVal) (memoryInfo : MemoryInfo)
  : M HealthCheckResult :=
  try_catch
    (start <- Date_now ;;
     lift queryRaw ;;
     now <- Date_now ;;
     let latency := now - start in
     ret {| hc_status := healthy;
            hc_database := database_connected;
            hc_latency := Some latency;
            hc_memory := Some memoryInfo;
            hc_error := None |})
    (fun err =>
       ret {| hc_status := unhealthy;
              hc_database := database_disconnected;
              hc_latency := None;
              hc_memory := None;
              hc_error := Some (getErrorMessage err) |}).

End HealthCheck.

(* ================================================================== *)
(** ** Concrete runs *)
(* ================================================================== *)

Module Scenario.

(** A Prisma error "can't reach database server", and the rejection of a
    connection attempt on a closed port. *)
Definition P1001_error : JSVal :=
  JObj true [("code", JStr "P1001");
             ("message", JStr "Can't reach database server")].

Definition ECONNREFUSED_error : JSVal :=
  JS.new_Error "connect ECONNREFUSED 127.0.0.1:5432".

Definition exhaustion_error : JSVal :=
  JS.new_Error
    "Failed to reconnect after 3 attempts: connect ECONNREFUSED 127.0.0.1:5432".

Definition rows : JSVal := JStr "rows".

(** [DEFAULT_CONFIG] with the memory check switched off. *)
Definition cfg_noGC : Config := {|
  reconnect_maxAttempts := 3;
  reconnect_initialDelay := 1000;
  reconnect_maxDelay := 10000;
  reconnect_backoff := Some exponential;
  refresh_enabled := true;
  refresh_intervalMs := 5 * 60 * 1000;
  memory_autoGC := false;
  memory_gcThreshold := (85 # 100)%Q;
  healthCheck_enabled := true;
  healthCheck_intervalMs := 60 * 1000;
  logging_level := Some info;
  onError := None
|}.

(** [DEFAULT_CONFIG] with an error handler that always throws. *)
Definition handler_error : JSVal := JS.new_Error "alerting failed".

Definition cfg_throwing_handler : Config := {|
  reconnect_maxAttempts := 3;
  reconnect_initialDelay := 1000;
  reconnect_maxDelay := 10000;
  reconnect_backoff := Some exponential;
  refresh_enabled := true;
  refresh_intervalMs := 5 * 60 * 1000;
  memory_autoGC := true;
  memory_gcThreshold := (85 # 100)%Q;
  healthCheck_enabled := true;
  healthCheck_intervalMs := 60 * 1000;
  logging_level := Some info;
  onError := Some (fun _ _ _ => Some handler_error)
|}.

(** The database never accepts a connection. *)
Definition env_unreachable : Env := {|
  prisma_connect := fun _ => Some ECONNREFUSED_error;
  prisma_disconnect := fun _ => None;
  operation := fun _ => inl rows;
  clock := fun k => 1000 * Z.of_nat k;
  heapUsagePercent := fun _ => (1 # 2)%Q;
  global_gc := false
|}.

(** The database accepts the fifth connection attempt; the operation then
    fails with P1001. *)
Definition env_late : Env := {|
  prisma_connect :=
    fun k => if (k <? 4)%nat then Some ECONNREFUSED_error else None;
  prisma_disconnect := fun _ => None;
  operation := fun _ => inr P1001_error;
  clock := fun k => 1000 * Z.of_nat k;
  heapUsagePercent := fun _ => (1 # 2)%Q;
  global_gc := false
|}.

(** The database is up; the operation fails once with P1001 and succeeds
    from then on; the heap is 90% full and [global.gc] is exposed. *)
Definition env_retry : Env := {|
  prisma_connect := fun _ => None;
  prisma_disconnect := fun _ => None;
  operation := fun k => if (k =? 0)%nat then inr P1001_error else inl rows;
  clock := fun k => 1000 * Z.of_nat k;
  heapUsagePercent := fun _ => (9 # 10)%Q;
  global_gc := true
|}.

(** The database accepts the first connection and none after it; the
    operation fails with P1001. *)
Definition env_down : Env := {|
  prisma_connect :=
    fun k => if (k =? 0)%nat then None else Some ECONNREFUSED_error;
  prisma_disconnect := fun _ => None;
  operation := fun _ => inr P1001_error;
  clock := fun k => 1000 * Z.of_nat k;
  heapUsagePercent := fun _ => (1 # 2)%Q;
  global_gc := false
|}.

(** Everything works; the clock reads 0 at first and 70 000 000 ms, more
    than 18 hours, from then on; the heap is 90% full. *)
Definition env_old : Env := {|
  prisma_connect := fun _ => None;
  prisma_disconnect := fun _ => None;
  operation := fun _ => inl rows;
  clock := fun k => if (k =? 0)%nat then 0 else 70000000;
  heapUsagePercent := fun _ => (9 # 10)%Q;
  global_gc := true
|}.

(** The database rejects the first connection attempt and accepts the
    next ones; the operation succeeds. *)
Definition env_second : Env := {|
  prisma_connect :=
    fun k => if (k =? 0)%nat then Some ECONNREFUSED_error else None;
  prisma_disconnect := fun _ => None;
  operation := fun _ => inl rows;
  clock := fun k => 1000 * Z.of_nat k;
  heapUsagePercent := fun _ => (1 # 2)%Q;
  global_gc := false
|}.

(** [DEFAULT_CONFIG] with a negative number of attempts. *)
Definition cfg_negative : Config := {|
  reconnect_maxAttempts := -1;
  reconnect_initialDelay := 1000;
  reconnect_maxDelay := 10000;
  reconnect_backoff := Some exponential;
  refresh_enabled := true;
  refresh_intervalMs := 5 * 60 * 1000;
  memory_autoGC := true;
  memory_gcThreshold := (85 # 100)%Q;
  healthCheck_enabled := true;
  healthCheck_intervalMs := 60 * 1000;
  logging_level := Some info;
  onError := None
|}.

(** An error whose message is a number. *)
Definition numeric_message_error : JSVal := JObj false [("message", JNum 42)].

(** The database is up; the operation fails with an error whose message
    is a number. *)
Definition env_numeric : Env := {|
  prisma_connect := fun _ => None;
  prisma_disconnect := fun _ => None;
  operation := fun _ => inr numeric_message_error;
  clock := fun k => 1000 * Z.of_nat k;
  heapUsagePercent := fun _ => (1 # 2)%Q;
  global_gc := false
|}.

(** A manager constructed around the client 1, once its [initialize] has
    completed. *)
Definition constructed (cfg : Config) (env : Env) : St :=
  snd (@initialize cfg env (new_St 1%nat)).

Definition eighteen_hours : Z := 18 * 60 * 60 * 1000.

End Scenario.

(* ================================================================== *)
(** ** Further observations *)
(* ================================================================== *)

(** The messages on which [err.message?.toLowerCase()] does not throw: the
    nullish ones and the strings. *)
Definition lowerable (m : JSVal) : bool :=
  match m with
  | JUndefined | JNull | JStr _ => true
  | _ => false
  end.

(** Does the [code] of an error decide that it is a connection error. *)
Definition code_decides (err : JSVal) : bool :=
  (JS.truthy (JS.prop err "code")
   && JS.array_includes CONNECTION_ERROR_CODES (JS.prop err "code"))%bool.

(** The delays that a trace shows the manager sleeping, in order. *)
Definition sleeps (tr : list Action) : list Double.t :=
  flat_map (fun a => match a with Sleep ms => [ms] | _ => [] end) tr.

(** The statistics that only count up. *)
Definition counts_le (s s' : St) : Prop :=
  queryCount (this s) <= queryCount (this s') /\
  errorCount (this s) <= errorCount (this s') /\
  totalReconnects (this s) <= totalReconnects (this s').

(** A manager that says it is connected knows since when. *)
Definition connected_since (s : St) : Prop :=
  connected (this s) = false \/
  exists t, lastSuccessfulConnection (this s) = Some t.

(** Every line handed to the logger is at or above the configured level. *)
Definition logged_at_level (cfg : Config) (s : St) : Prop :=
  Forall (fun line =>
            level_index (match logging_level cfg with
                         | Some l => l
                         | None => info
                         end)
            <= level_index (fst line))
         (logged s).

(* ================================================================== *)
(** ** Strings *)
(* ================================================================== *)

Lemma startsWith_spec (k s : string) :
  JS.startsWith s k = true <-> exists post, s = k ++ post.
Proof.
  revert s; induction k as [|a k IH]; intros s; simpl.
  - split; [intros _; now exists s | intros _; destruct s; reflexivity].
  - destruct s as [|b s].
    + split; [discriminate | intros [post H]; discriminate H].
    + change (JS.startsWith (String b s) (String a k))
        with (Ascii.eqb a b && JS.startsWith s k)%bool.
      rewrite andb_true_iff, Ascii.eqb_eq, IH. split.
      * intros [-> [post ->]]. now exists post.
      * intros [post H]. injection H as -> ->. split; [reflexivity|now exists post].
Qed.

Lemma includes_spec (s k : string) :
  JS.includes s k = true <-> exists pre post, s = pre ++ k ++ post.
Proof.
  induction s as [|c s IH].
  - change (JS.includes "" k) with (JS.startsWith "" k || false)%bool.
    rewrite orb_false_r, startsWith_spec. split.
    + intros [post H]. now exists "", post.
    + intros [pre [post H]]. destruct pre; [now exists post | discriminate H].
  - change (JS.includes (String c s) k)
      with (JS.startsWith (String c s) k || JS.includes s k)%bool.
    rewrite orb_true_iff, startsWith_spec, IH. split.
    + intros [[post H] | [pre [post H]]].
      * now exists "", post.
      * exists (String c pre), post. simpl. now rewrite H.
    + intros [[|c' pre] [post H]].
      * left. now exists post.
      * right. simpl in H. injection H as _ H. now exists pre, post.
Qed.

Lemma toLowerCase_app (a b : string) :
  JS.toLowerCase (a ++ b) = JS.toLowerCase a ++ JS.toLowerCase b.
Proof.
  induction a as [|c a IH]; simpl; [reflexivity | now rewrite IH].
Qed.

Lemma toLowerCase_split (a b s : string) :
  JS.toLowerCase s = a ++ b ->
  exists a' b', s = a' ++ b' /\
                JS.toLowerCase a' = a /\ JS.toLowerCase b' = b.
Proof.
  revert s; induction a as [|c a IH]; intros s H.
  - exists "", s. auto.
  - destruct s as [|d s]; [discriminate H|].
    simpl in H. injection H as Hc H.
    destruct (IH _ H) as [a' [b' [-> [Ha Hb]]]].
    exists (String d a'), b'. simpl. now rewrite Hc, Ha.
Qed.

(** The test of the source, lowering the text and searching a lower-case
    keyword, is the case-insensitive substring match. *)
Lemma includes_toLowerCase (text keyword : string) :
  JS.toLowerCase keyword = keyword ->
  JS.includes (JS.toLowerCase text) keyword = true <->
  contains_ci text keyword.
Proof.
  intros Hk. rewrite includes_spec. unfold contains_ci. rewrite Hk. split.
  - intros [pre [post H]].
    destruct (toLowerCase_split _ _ _ H) as [pre' [rest [-> [Hpre Hrest]]]].
    destruct (toLowerCase_split _ _ _ Hrest) as [mid [post' [-> [Hmid Hpost]]]].
    now exists pre', mid, post'.
  - intros [pre [mid [post [-> Hmid]]]].
    exists (JS.toLowerCase pre), (JS.toLowerCase post).
    now rewrite !toLowerCase_app, Hmid.
Qed.

Lemma connectionKeywords_lower (keyword : string) :
  In keyword connectionKeywords -> JS.toLowerCase keyword = keyword.
Proof.
  unfold connectionKeywords; simpl.
  intros H; repeat (destruct H as [<- | H]; [reflexivity|]); contradiction.
Qed.

Lemma existsb_eqb_In (s : string) (l : list string) :
  existsb (String.eqb s) l = true <-> In s l.
Proof.
  rewrite existsb_exists. split.
  - intros [x [Hin Heq]]. apply String.eqb_eq in Heq. now subst.
  - intros Hin. exists s. split; [assumption | apply String.eqb_refl].
Qed.

Lemma keyword_search (message : string) :
  existsb (fun keyword => JS.includes (JS.toLowerCase message) keyword)
          connectionKeywords = true <->
  exists keyword, In keyword connectionKeywords /\ contains_ci message keyword.
Proof.
  rewrite existsb_exists. split.
  - intros [kw [Hin H]]. exists kw. split; [assumption|].
    now apply includes_toLowerCase; [apply connectionKeywords_lower|].
  - intros [kw [Hin H]]. exists kw. split; [assumption|].
    now apply includes_toLowerCase; [apply connectionKeywords_lower|].
Qed.

Lemma codes_truthy (code : string) :
  In code CONNECTION_ERROR_CODES -> JS.truthy (JStr code) = true.
Proof.
  unfold CONNECTION_ERROR_CODES; simpl.
  intros H; repeat (destruct H as [<- | H]; [reflexivity|]); contradiction.
Qed.

(* ================================================================== *)
(** ** The error classifier *)
(* ================================================================== *)

(** The classifier on an object, by its two fields. *)
Lemma isConnectionError_object (isError : bool) (fields : list (string * JSVal)) :
  let err := JObj isError fields in
  isConnectionError err =
    if (JS.truthy (JS.prop err "code")
        && JS.array_includes CONNECTION_ERROR_CODES (JS.prop err "code"))%bool
    then inl true
    else match JS.prop err "message" with
         | JUndefined | JNull => inl false
         | JStr m =>
             inl (existsb (fun keyword =>
                             JS.includes (JS.toLowerCase m) keyword)
                          connectionKeywords)
         | _ => inr JS.TypeError_not_a_function
         end.
Proof.
  intros err. unfold isConnectionError. simpl JS.truthy at 1.
  change (JS.typeof_object err) with true. simpl negb. simpl orb. cbv iota.
  destruct (JS.truthy (JS.prop err "code")
            && JS.array_includes CONNECTION_ERROR_CODES (JS.prop err "code"))%bool;
    [reflexivity|].
  destruct (JS.prop err "message") as [| |b|n| |m|e f]; try reflexivity.
  unfold message_toLowerCase.
  destruct (JS.truthy (JStr (JS.toLowerCase m))) eqn:Ht; [reflexivity|].
  simpl in Ht. apply negb_false_iff, String.eqb_eq in Ht. now rewrite Ht.
Qed.

Lemma isConnectionError_not_object (v : JSVal) :
  JS.typeof_object v = false -> isConnectionError v = inl false.
Proof.
  intros Hv. unfold isConnectionError. rewrite Hv.
  now rewrite orb_true_r.
Qed.

(** C3.  The classifier returns [true] exactly on the objects whose [code]
    is one of P1001, P1008, P1017, P2024 or whose [message] contains, up to
    letter case, one of the eight keywords; [isRetryableError] is the same
    function.  In particular an object with code P1001 and an object whose
    message contains "ECONNREFUSED" are recoverable, while [{code:
    "P2002"}] (with or without the message of the tests), a message
    "Invalid input", [null] and everything that is not an object are
    classified not recoverable. *)
Theorem isConnectionError_true_iff :
  (forall err, isConnectionError err = inl true <-> recoverable err) /\
  (forall err, isRetryableError err = isConnectionError err) /\
  (forall isError fields,
      JS.prop (JObj isError fields) "code" = JStr "P1001" ->
      isConnectionError (JObj isError fields) = inl true) /\
  (forall isError fields message,
      JS.prop (JObj isError fields) "message" = JStr message ->
      JS.includes message "ECONNREFUSED" = true ->
      isConnectionError (JObj isError fields) = inl true) /\
  isConnectionError (JObj false [("code", JStr "P2002")]) = inl false /\
  isConnectionError
    (JObj false [("code", JStr "P2002"); ("message", JStr "Unique constraint")])
    = inl false /\
  isConnectionError (JObj false [("message", JStr "Invalid input")])
    = inl false /\
  isConnectionError JNull = inl false /\
  (forall v, JS.typeof_object v = false -> isConnectionError v = inl false).
Proof.
  split; [|split; [|split; [|split; [|repeat split]]]];
    try reflexivity.
  - (* the equivalence *)
    intros err; split.
    + intros H. destruct err as [| |b|n| |s|isError fields];
        try (rewrite isConnectionError_not_object in H by reflexivity);
        try discriminate H.
      exists isError, fields. split; [reflexivity|].
      rewrite isConnectionError_object in H. cbv zeta in H.
      destruct (JS.truthy (JS.prop (JObj isError fields) "code")
                && JS.array_includes CONNECTION_ERROR_CODES
                     (JS.prop (JObj isError fields) "code"))%bool eqn:Hc.
      * left. apply andb_true_iff in Hc as [_ Hc].
        destruct (JS.prop (JObj isError fields) "code");
          try discriminate Hc.
        exists s. split; [reflexivity|]. now apply existsb_eqb_In.
      * right.
        destruct (JS.prop (JObj isError fields) "message");
          try discriminate H.
        injection H as H. apply keyword_search in H as [kw [Hin Hci]].
        now exists s, kw.
    + intros [isError [fields [-> [[code [Hc Hin]] | [m [kw [Hm [Hin Hci]]]]]]]];
        rewrite isConnectionError_object; cbv zeta.
      * rewrite Hc, (codes_truthy _ Hin). unfold JS.array_includes.
        apply existsb_eqb_In in Hin. now rewrite Hin.
      * destruct (JS.truthy (JS.prop (JObj isError fields) "code")
                  && JS.array_includes CONNECTION_ERROR_CODES
                       (JS.prop (JObj isError fields) "code"))%bool;
          [reflexivity|].
        rewrite Hm. f_equal. apply keyword_search. now exists kw.
  - (* code P1001 *)
    intros isError fields Hc. rewrite isConnectionError_object. cbv zeta.
    now rewrite Hc.
  - (* a message with ECONNREFUSED *)
    intros isError fields message Hm Hinc.
    rewrite isConnectionError_object. cbv zeta.
    destruct (JS.truthy (JS.prop (JObj isError fields) "code")
              && JS.array_includes CONNECTION_ERROR_CODES
                   (JS.prop (JObj isError fields) "code"))%bool;
      [reflexivity|].
    rewrite Hm. f_equal. apply keyword_search.
    exists "econnrefused". split; [simpl; tauto|].
    apply includes_spec in Hinc as [pre [post ->]].
    now exists pre, "ECONNREFUSED", post.
  - (* not an object *)
    apply isConnectionError_not_object.
Qed.

(** An object whose message is neither nullish nor a string, and whose code
    does not decide, makes the classifier throw instead of returning. *)
Example isConnectionError_numeric_message :
  isConnectionError (JObj false [("message", JNum 42)])
  = inr JS.TypeError_not_a_function.
Proof. reflexivity. Qed.

(* ================================================================== *)
(** ** Numbers *)
(* ================================================================== *)

Lemma digits2_pos_size (p : positive) : digits2_pos p = Pos.size p.
Proof. induction p; simpl; congruence. Qed.

Lemma iter_pos_Pos_iter {A : Type} (f : A -> A) (n : positive) (x : A) :
  iter_pos f n x = Pos.iter f x n.
Proof.
  revert x. induction n as [n IH|n IH|]; intros x; simpl.
  - rewrite !IH. rewrite <- !Pos.iter_swap. reflexivity.
  - rewrite !IH. reflexivity.
  - reflexivity.
Qed.

Lemma shl_Z (p : positive) (k : Z) :
  0 <= k -> Zpos (Double.shl p k) = Zpos p * 2 ^ k.
Proof.
  intros Hk. destruct k as [|n|n]; [simpl; lia | | lia].
  unfold Double.shl. clear Hk. induction n as [|n IH] using Pos.peano_ind.
  - simpl. lia.
  - rewrite Pos.iter_succ. rewrite Pos2Z.inj_succ, Z.pow_succ_r by lia.
    rewrite Pos2Z.inj_xO, IH. ring.
Qed.

Lemma size_bounds (p : positive) :
  2 ^ (Zpos (Pos.size p) - 1) <= Zpos p < 2 ^ Zpos (Pos.size p).
Proof.
  induction p as [p IH|p IH|]; cbn [Pos.size].
  - rewrite Pos2Z.inj_succ.
    replace (Z.succ (Z.pos (Pos.size p)) - 1) with (Zpos (Pos.size p)) by lia.
    rewrite Z.pow_succ_r by lia.
    replace (Zpos (Pos.size p)) with (Z.succ (Zpos (Pos.size p) - 1)) at 1 by lia.
    rewrite Z.pow_succ_r by lia. lia.
  - rewrite Pos2Z.inj_succ.
    replace (Z.succ (Z.pos (Pos.size p)) - 1) with (Zpos (Pos.size p)) by lia.
    rewrite Z.pow_succ_r by lia.
    replace (Zpos (Pos.size p)) with (Z.succ (Zpos (Pos.size p) - 1)) at 1 by lia.
    rewrite Z.pow_succ_r by lia. lia.
  - simpl. lia.
Qed.

(** The size is the only [d] with 2^(d-1) <= p < 2^d. *)
Lemma size_unique (p : positive) (d : Z) :
  2 ^ (d - 1) <= Zpos p < 2 ^ d -> Zpos (Pos.size p) = d.
Proof.
  intros [Hl Hu]. pose proof (size_bounds p) as [Sl Su].
  assert (0 < d).
  { destruct (Z.ltb_spec 0 d); [assumption|].
    assert (2 ^ d <= 2 ^ 0) by (apply Z.pow_le_mono_r; lia). simpl in *. lia. }
  destruct (Z.lt_trichotomy (Zpos (Pos.size p)) d) as [Hlt|[He|Hgt]]; [|assumption|].
  - assert (2 ^ Zpos (Pos.size p) <= 2 ^ (d - 1)) by (apply Z.pow_le_mono_r; lia). lia.
  - assert (2 ^ d <= 2 ^ (Zpos (Pos.size p) - 1)) by (apply Z.pow_le_mono_r; lia). lia.
Qed.

Lemma size_shl (p : positive) (k : Z) :
  0 <= k -> Zpos (Pos.size (Double.shl p k)) = Zpos (Pos.size p) + k.
Proof.
  intros Hk. apply size_unique. rewrite shl_Z by assumption.
  pose proof (size_bounds p) as [Sl Su].
  replace (Zpos (Pos.size p) + k - 1) with ((Zpos (Pos.size p) - 1) + k) by lia.
  rewrite !Z.pow_add_r by lia.
  assert (0 < 2 ^ k) by (apply Z.pow_pos_nonneg; lia).
  split; nia.
Qed.

Lemma size_lt (p : positive) (d : Z) :
  Zpos p < 2 ^ d -> Zpos (Pos.size p) <= d.
Proof.
  intros H. pose proof (size_bounds p) as [Sl _].
  destruct (Z.leb_spec (Zpos (Pos.size p)) d); [assumption|].
  assert (2 ^ d <= 2 ^ (Zpos (Pos.size p) - 1)) by (apply Z.pow_le_mono_r; lia). lia.
Qed.

Lemma size_mul (p q : positive) :
  Zpos (Pos.size p) + Zpos (Pos.size q) - 1 <= Zpos (Pos.size (p * q)).
Proof.
  pose proof (size_bounds p) as [Pl _]. pose proof (size_bounds q) as [Ql _].
  pose proof (size_bounds (p * q)) as [_ Mu].
  destruct (Z.leb_spec (Zpos (Pos.size p) + Zpos (Pos.size q) - 1) (Zpos (Pos.size (p * q))));
    [assumption|].
  assert (2 ^ Zpos (Pos.size (p * q))
          <= 2 ^ ((Zpos (Pos.size p) - 1) + (Zpos (Pos.size q) - 1)))
    by (apply Z.pow_le_mono_r; lia).
  rewrite Z.pow_add_r in H0 by lia.
  rewrite Pos2Z.inj_mul in Mu.
  assert (0 < 2 ^ (Zpos (Pos.size p) - 1)) by (apply Z.pow_pos_nonneg; lia).
  assert (0 < 2 ^ (Zpos (Pos.size q) - 1)) by (apply Z.pow_pos_nonneg; lia).
  nia.
Qed.

Lemma shl_shl (p : positive) (j k : Z) :
  0 <= j -> 0 <= k -> Double.shl (Double.shl p j) k = Double.shl p (j + k).
Proof.
  intros Hj Hk. apply Pos2Z.inj. rewrite !shl_Z by lia.
  rewrite Z.pow_add_r by lia. ring.
Qed.

Lemma shl_mul (p q : positive) (j k : Z) :
  0 <= j -> 0 <= k -> (Double.shl p j * Double.shl q k)%positive = Double.shl (p * q) (j + k).
Proof.
  intros Hj Hk. apply Pos2Z.inj. rewrite Pos2Z.inj_mul, !shl_Z by lia.
  rewrite Pos2Z.inj_mul, Z.pow_add_r by lia. ring.
Qed.

(** Shifting right what was shifted left loses nothing. *)
Lemma shr_shl (p : positive) (n : positive) :
  iter_pos shr_1 n {| shr_m := Zpos (Pos.iter xO p n); shr_r := false; shr_s := false |}
  = {| shr_m := Zpos p; shr_r := false; shr_s := false |}.
Proof.
  rewrite iter_pos_Pos_iter.
  induction n as [|n IH] using Pos.peano_ind.
  - reflexivity.
  - rewrite Pos.iter_succ_r. rewrite Pos.iter_succ. cbn [shr_1 orb]. exact IH.
Qed.

Lemma fexp_normal (x : Z) :
  -1074 <= x - 53 -> fexp Double.prec Double.emax x = x - 53.
Proof. intros H. unfold fexp, emin, Double.prec, Double.emax. lia. Qed.

Lemma shr_fexp_exact (q : positive) (k e : Z) :
  0 <= k -> Zpos (Pos.size q) <= 53 -> 53 <= Zpos (Pos.size q) + k ->
  -1074 <= Zpos (Pos.size q) + k + e - 53 ->
  shr_fexp Double.prec Double.emax (Zpos (Double.shl q k)) e loc_Exact
  = ({| shr_m := Zpos (Double.shl q (53 - Zpos (Pos.size q)));
        shr_r := false; shr_s := false |},
     Zpos (Pos.size q) + k + e - 53).
Proof.
  intros Hk Hd Hdk He. unfold shr_fexp.
  cbn [Zdigits2]. rewrite digits2_pos_size, size_shl by assumption.
  rewrite fexp_normal by lia.
  cbn [shr_record_of_loc].
  remember (Zpos (Pos.size q) + k + e - 53 - e) as n eqn:En.
  destruct n as [|n|n]; [| |lia].
  - cbn [shr]. replace (53 - Zpos (Pos.size q)) with k by lia.
    f_equal; lia.
  - cbn [shr].
    replace (Double.shl q k) with (Pos.iter xO (Double.shl q (53 - Zpos (Pos.size q))) n).
    + rewrite shr_shl. f_equal; lia.
    + change (Pos.iter xO (Double.shl q (53 - Zpos (Pos.size q))) n)
        with (Double.shl (Double.shl q (53 - Zpos (Pos.size q))) (Zpos n)).
      rewrite shl_shl by lia. f_equal; lia.
Qed.

Lemma binary_round_aux_exact (s : bool) (q : positive) (k e : Z) :
  0 <= k -> Zpos (Pos.size q) <= 53 -> 53 <= Zpos (Pos.size q) + k ->
  -1074 <= Zpos (Pos.size q) + k + e - 53 <= 971 ->
  binary_round_aux Double.prec Double.emax s (Zpos (Double.shl q k)) e loc_Exact
  = S754_finite s (Double.shl q (53 - Zpos (Pos.size q)))
                (Zpos (Pos.size q) + k + e - 53).
Proof.
  intros Hk Hd Hdk He. unfold binary_round_aux.
  rewrite shr_fexp_exact by lia.
  cbn [shr_m loc_of_shr_record round_nearest_even].
  set (e' := Zpos (Pos.size q) + k + e - 53).
  pose proof (shr_fexp_exact q (53 - Zpos (Pos.size q)) e') as H.
  rewrite H by lia. cbn [shr_m].
  replace (Zpos (Pos.size q) + (53 - Zpos (Pos.size q)) + e' - 53) with e' by lia.
  unfold Double.emax, Double.prec.
  destruct (Z.leb_spec e' (1024 - 53)); [reflexivity | lia].
Qed.

(** The double that holds [q * 2^e] exactly, when [q] has at most 53 bits. *)
Lemma binary_round_exact (s : bool) (q : positive) (e : Z) :
  Zpos (Pos.size q) <= 53 ->
  -1074 <= Zpos (Pos.size q) + e - 53 <= 971 ->
  binary_round Double.prec Double.emax s q e
  = S754_finite s (Double.shl q (53 - Zpos (Pos.size q)))
                (Zpos (Pos.size q) + e - 53).
Proof.
  intros Hd He. unfold binary_round.
  rewrite digits2_pos_size, fexp_normal by lia.
  unfold shl_align.
  remember (Zpos (Pos.size q) + e - 53 - e) as n eqn:En.
  destruct n as [|n|n].
  - pose proof (binary_round_aux_exact s q 0 e) as H. cbn [Double.shl] in H.
    rewrite H by lia. f_equal; lia.
  - lia.
  - change (Pos.iter xO q n) with (Double.shl q (Zpos n)).
    rewrite binary_round_aux_exact by lia. f_equal; lia.
Qed.

Lemma of_Z_pos (q : positive) :
  Zpos q < 2 ^ 53 ->
  Double.of_Z (Zpos q)
  = S754_finite false (Double.shl q (53 - Zpos (Pos.size q))) (Zpos (Pos.size q) - 53).
Proof.
  intros H. pose proof (size_lt q 53 H). pose proof (Pos2Z.is_pos (Pos.size q)).
  unfold Double.of_Z, binary_normalize.
  rewrite binary_round_exact by lia. f_equal; lia.
Qed.

Lemma of_Z_neg (q : positive) :
  Zpos q < 2 ^ 53 ->
  Double.of_Z (Zneg q)
  = S754_finite true (Double.shl q (53 - Zpos (Pos.size q))) (Zpos (Pos.size q) - 53).
Proof.
  intros H. pose proof (size_lt q 53 H). pose proof (Pos2Z.is_pos (Pos.size q)).
  unfold Double.of_Z, binary_normalize.
  rewrite binary_round_exact by lia. f_equal; lia.
Qed.

Lemma Math_pow_2_finite (k : Z) :
  -1022 <= k <= 1023 ->
  Double.Math_pow_2 k = S754_finite false (Double.shl 1 52) (k - 52).
Proof.
  intros H. unfold Double.Math_pow_2, binary_normalize.
  rewrite binary_round_exact by (cbn [Pos.size]; lia).
  cbn [Pos.size]. f_equal; lia.
Qed.

Lemma mul_finite_exact (sa sb : bool) (a b : positive) (ea eb : Z) :
  Zpos (a * b) < 2 ^ 53 ->
  -1074 <= Zpos (Pos.size (a * b)) + ea + eb - 53 <= 971 ->
  Double.mul
    (S754_finite sa (Double.shl a (53 - Zpos (Pos.size a))) (Zpos (Pos.size a) + ea - 53))
    (S754_finite sb (Double.shl b (53 - Zpos (Pos.size b))) (Zpos (Pos.size b) + eb - 53))
  = S754_finite (xorb sa sb) (Double.shl (a * b) (53 - Zpos (Pos.size (a * b))))
                (Zpos (Pos.size (a * b)) + ea + eb - 53).
Proof.
  intros Hab He.
  pose proof (size_lt _ _ Hab) as Dab.
  pose proof (size_mul a b) as Dm.
  pose proof (Pos2Z.is_pos (Pos.size a)). pose proof (Pos2Z.is_pos (Pos.size b)).
  assert (Da : Zpos (Pos.size a) <= 53) by lia.
  assert (Db : Zpos (Pos.size b) <= 53) by lia.
  unfold Double.mul, SFmul.
  rewrite shl_mul by lia.
  rewrite binary_round_aux_exact by lia.
  f_equal; lia.
Qed.

Lemma of_Z_0 : Double.of_Z 0 = S754_zero false.
Proof. reflexivity. Qed.

Lemma mul_of_Z (a b : Z) :
  0 < b < 2 ^ 53 -> Z.abs (a * b) < 2 ^ 53 ->
  Double.mul (Double.of_Z a) (Double.of_Z b) = Double.of_Z (a * b).
Proof.
  intros Hb Hab. destruct b as [|b|b]; try lia.
  rewrite (of_Z_pos b) by lia.
  destruct a as [|a|a].
  - reflexivity.
  - change (Zpos a * Zpos b) with (Zpos (a * b)) in *.
    assert (Ha : Zpos a < 2 ^ 53) by nia.
    rewrite (of_Z_pos a Ha), (of_Z_pos (a * b)) by lia.
    pose proof (mul_finite_exact false false a b 0 0) as H.
    pose proof (size_lt (a * b) 53 ltac:(lia)).
    pose proof (Pos2Z.is_pos (Pos.size (a * b))).
    rewrite !Z.add_0_r in H. rewrite H by lia. reflexivity.
  - change (Zneg a * Zpos b) with (Zneg (a * b)) in *.
    assert (Ha : Zpos a < 2 ^ 53) by nia.
    rewrite (of_Z_neg a Ha), (of_Z_neg (a * b)) by lia.
    pose proof (mul_finite_exact true false a b 0 0) as H.
    pose proof (size_lt (a * b) 53 ltac:(lia)).
    pose proof (Pos2Z.is_pos (Pos.size (a * b))).
    rewrite !Z.add_0_r in H. rewrite H by lia. reflexivity.
Qed.

Lemma Math_pow_2_of_Z (k : Z) :
  0 <= k < 53 -> Double.Math_pow_2 k = Double.of_Z (2 ^ k).
Proof.
  intros Hk. rewrite Math_pow_2_finite by lia.
  assert (E : 2 ^ k = Zpos (Double.shl 1 k)) by (rewrite shl_Z by lia; lia).
  assert (H53 : Zpos (Double.shl 1 k) < 2 ^ 53).
  { rewrite <- E. apply Z.pow_lt_mono_r; lia. }
  rewrite E, of_Z_pos by assumption.
  rewrite size_shl by lia. cbn [Pos.size].
  rewrite shl_shl by lia. f_equal; [f_equal|]; lia.
Qed.

Lemma mul_Math_pow_2 (a k : Z) :
  0 <= k <= 1023 -> Z.abs (a * 2 ^ k) < 2 ^ 53 ->
  Double.mul (Double.of_Z a) (Double.Math_pow_2 k) = Double.of_Z (a * 2 ^ k).
Proof.
  intros Hk Hab.
  destruct (Z.eq_dec a 0) as [->|Ha].
  - rewrite Math_pow_2_finite by lia. reflexivity.
  - assert (0 < 2 ^ k) by (apply Z.pow_pos_nonneg; lia).
    assert (Hk53 : k < 53).
    { destruct (Z.ltb_spec k 53); [assumption|].
      assert (2 ^ 53 <= 2 ^ k) by (apply Z.pow_le_mono_r; lia). nia. }
    rewrite Math_pow_2_of_Z by lia.
    apply mul_of_Z; [|assumption].
    split; [lia|]. apply Z.pow_lt_mono_r; lia.
Qed.

Lemma compare_shl (a b : positive) (k : Z) :
  0 <= k -> (Double.shl a k ?= Double.shl b k)%positive = (a ?= b)%positive.
Proof.
  intros Hk. rewrite !Pos2Z.inj_compare, !shl_Z by assumption.
  assert (0 < 2 ^ k) by (apply Z.pow_pos_nonneg; lia).
  destruct (Z.compare_spec (Zpos a) (Zpos b)) as [E|L|G].
  - rewrite E. apply Z.compare_refl.
  - apply Z.compare_lt_iff. nia.
  - apply Z.compare_gt_iff. nia.
Qed.

Lemma compare_normal (a b : positive) :
  Zpos a < 2 ^ 53 -> Zpos b < 2 ^ 53 ->
  match Zpos (Pos.size a) - 53 ?= Zpos (Pos.size b) - 53 with
  | Lt => Lt
  | Gt => Gt
  | Eq => Pos.compare_cont Eq (Double.shl a (53 - Zpos (Pos.size a)))
                           (Double.shl b (53 - Zpos (Pos.size b)))
  end = (a ?= b)%positive.
Proof.
  intros Ha Hb.
  pose proof (size_lt a 53 Ha). pose proof (size_lt b 53 Hb).
  pose proof (size_bounds a) as [Al Au]. pose proof (size_bounds b) as [Bl Bu].
  destruct (Z.compare_spec (Zpos (Pos.size a) - 53) (Zpos (Pos.size b) - 53))
    as [E|L|G].
  - assert (E' : Zpos (Pos.size a) = Zpos (Pos.size b)) by lia.
    rewrite E'. change (Pos.compare_cont Eq) with Pos.compare.
    apply compare_shl. lia.
  - symmetry. apply Pos.compare_lt_iff.
    assert (2 ^ Zpos (Pos.size a) <= 2 ^ (Zpos (Pos.size b) - 1))
      by (apply Z.pow_le_mono_r; lia). lia.
  - symmetry. apply Pos.compare_gt_iff.
    assert (2 ^ Zpos (Pos.size b) <= 2 ^ (Zpos (Pos.size a) - 1))
      by (apply Z.pow_le_mono_r; lia). lia.
Qed.

Lemma compare_of_Z (a b : Z) :
  Z.abs a < 2 ^ 53 -> Z.abs b < 2 ^ 53 ->
  SFcompare (Double.of_Z a) (Double.of_Z b) = Some (a ?= b).
Proof.
  intros Ha Hb.
  destruct a as [|a|a], b as [|b|b];
    rewrite ?of_Z_0, ?of_Z_pos, ?of_Z_neg by lia; try reflexivity.
  - cbn [SFcompare]. rewrite compare_normal by lia. reflexivity.
  - cbn [SFcompare].
    pose proof (compare_normal a b ltac:(lia) ltac:(lia)) as H.
    change (Zneg a ?= Zneg b) with (CompOpp (a ?= b)%positive).
    rewrite <- H.
    destruct (Zpos (Pos.size a) - 53 ?= Zpos (Pos.size b) - 53); reflexivity.
Qed.

Lemma of_Z_not_negative_zero (a : Z) :
  Z.abs a < 2 ^ 53 -> Double.of_Z a <> S754_zero true.
Proof.
  intros Ha. destruct a; rewrite ?of_Z_0, ?of_Z_pos, ?of_Z_neg by lia;
    discriminate.
Qed.

Lemma Math_min_of_Z (a b : Z) :
  Z.abs a < 2 ^ 53 -> Z.abs b < 2 ^ 53 ->
  Double.Math_min (Double.of_Z a) (Double.of_Z b) = Double.of_Z (Z.min a b).
Proof.
  intros Ha Hb. unfold Double.Math_min. rewrite compare_of_Z by assumption.
  unfold Z.min. destruct (Z.compare_spec a b) as [E|L|G]; try reflexivity.
  subst b. pose proof (of_Z_not_negative_zero a Ha).
  destruct (Double.of_Z a) as [[|]| | |]; congruence.
Qed.

Lemma leb_of_Z (a b : Z) :
  Z.abs a < 2 ^ 53 -> Z.abs b < 2 ^ 53 ->
  Double.leb (Double.of_Z a) (Double.of_Z b) = (a <=? b).
Proof.
  intros Ha Hb. unfold Double.leb, SFleb. rewrite compare_of_Z by assumption.
  unfold Z.leb. destruct (a ?= b); reflexivity.
Qed.

Lemma shr_1_div2 (mrs : shr_record) :
  0 <= shr_m mrs -> shr_m (shr_1 mrs) = Z.div2 (shr_m mrs).
Proof.
  destruct mrs as [m r s]. cbn [shr_m]. intros H.
  destruct m as [|[p|p|]|p]; try reflexivity. lia.
Qed.

Lemma shr_iter_shiftr (n : positive) (mrs : shr_record) :
  0 <= shr_m mrs ->
  shr_m (iter_pos shr_1 n mrs) = Z.shiftr (shr_m mrs) (Zpos n).
Proof.
  rewrite iter_pos_Pos_iter. revert mrs.
  induction n as [|n IH] using Pos.peano_ind; intros mrs H.
  - cbn [Pos.iter]. rewrite shr_1_div2 by assumption.
    now rewrite Z.div2_spec.
  - rewrite Pos.iter_succ_r, IH.
    + rewrite shr_1_div2 by assumption. rewrite Z.div2_spec.
      rewrite Z.shiftr_shiftr by lia. f_equal. lia.
    + rewrite shr_1_div2 by assumption. apply Z.div2_nonneg. assumption.
Qed.

Lemma shr_record_of_loc_m (m : Z) (l : location) :
  shr_m (shr_record_of_loc m l) = m.
Proof. destruct l as [|[| |]]; reflexivity. Qed.

Lemma round_nearest_even_bounds (m : Z) (l : location) :
  m <= round_nearest_even m l <= m + 1.
Proof.
  destruct l as [|[| |]]; cbn [round_nearest_even]; try lia.
  destruct (Z.even m); lia.
Qed.

(** A shift keeps a mantissa non-negative. *)
Lemma shr_fexp_nonneg (m e : Z) (l : location) :
  0 <= m ->
  0 <= shr_m (fst (shr_fexp Double.prec Double.emax m e l)).
Proof.
  intros H. unfold shr_fexp, shr.
  destruct (fexp Double.prec Double.emax (Zdigits2 m + e) - e) as [|n|n];
    cbn [fst]; rewrite ?shr_record_of_loc_m; try assumption.
  rewrite shr_iter_shiftr by (rewrite shr_record_of_loc_m; assumption).
  rewrite shr_record_of_loc_m. apply Z.shiftr_nonneg. assumption.
Qed.

Lemma binary_round_aux_number (s : bool) (m : Z) (e : Z) (l : location) :
  0 <= m ->
  Double.is_number (binary_round_aux Double.prec Double.emax s m e l) = true.
Proof.
  intros H. unfold binary_round_aux.
  pose proof (shr_fexp_nonneg m e l H) as H1.
  destruct (shr_fexp Double.prec Double.emax m e l) as [mrs' e'].
  cbn [fst] in H1.
  pose proof (round_nearest_even_bounds (shr_m mrs') (loc_of_shr_record mrs'))
    as [Hr _].
  pose proof (shr_fexp_nonneg
                (round_nearest_even (shr_m mrs') (loc_of_shr_record mrs'))
                e' loc_Exact ltac:(lia)) as H2.
  destruct (shr_fexp Double.prec Double.emax
              (round_nearest_even (shr_m mrs') (loc_of_shr_record mrs'))
              e' loc_Exact) as [mrs'' e''].
  cbn [fst] in H2.
  destruct (shr_m mrs'') as [|p|p]; [reflexivity| |lia].
  destruct (e'' <=? Double.emax - Double.prec); reflexivity.
Qed.

(** Above the smallest exponent, a shift keeps a mantissa positive and the
    exponent where it was or higher. *)
Lemma shr_fexp_positive (m e : Z) (l : location) :
  0 < m -> -1074 <= e ->
  0 < shr_m (fst (shr_fexp Double.prec Double.emax m e l)) /\
  -1074 <= snd (shr_fexp Double.prec Double.emax m e l).
Proof.
  intros Hm He. unfold shr_fexp, shr.
  destruct m as [|p|p]; try lia. cbn [Zdigits2]. rewrite digits2_pos_size.
  pose proof (size_bounds p) as [Pl Pu].
  pose proof (Pos2Z.is_pos (Pos.size p)).
  remember (fexp Double.prec Double.emax (Zpos (Pos.size p) + e) - e) as n eqn:En.
  unfold fexp, emin, Double.prec, Double.emax in En.
  destruct n as [|n|n]; cbn [fst snd]; rewrite ?shr_record_of_loc_m;
    [lia | | lia].
  rewrite shr_iter_shiftr by (rewrite shr_record_of_loc_m; lia).
  rewrite shr_record_of_loc_m.
  assert (En' : Zpos n = Zpos (Pos.size p) - 53) by lia.
  split; [|lia].
  rewrite Z.shiftr_div_pow2 by lia. rewrite En'.
  apply Z.div_str_pos. split; [apply Z.pow_pos_nonneg; lia|].
  eapply Z.le_trans; [|exact Pl]. apply Z.pow_le_mono_r; lia.
Qed.

Lemma binary_round_aux_nonzero (s : bool) (m : Z) (e : Z) (l : location) :
  0 < m -> -1074 <= e ->
  Double.is_nonzero (binary_round_aux Double.prec Double.emax s m e l) = true.
Proof.
  intros Hm He. unfold binary_round_aux.
  pose proof (shr_fexp_positive m e l Hm He) as [H1 E1].
  destruct (shr_fexp Double.prec Double.emax m e l) as [mrs' e'].
  cbn [fst snd] in H1, E1.
  pose proof (round_nearest_even_bounds (shr_m mrs') (loc_of_shr_record mrs'))
    as [Hr _].
  pose proof (shr_fexp_positive
                (round_nearest_even (shr_m mrs') (loc_of_shr_record mrs'))
                e' loc_Exact ltac:(lia) E1) as [H2 _].
  destruct (shr_fexp Double.prec Double.emax
              (round_nearest_even (shr_m mrs') (loc_of_shr_record mrs'))
              e' loc_Exact) as [mrs'' e''].
  cbn [fst] in H2.
  destruct (shr_m mrs'') as [|p|p]; [lia| |lia].
  destruct (e'' <=? Double.emax - Double.prec); reflexivity.
Qed.

Lemma binary_round_nonzero (s : bool) (q : positive) (e : Z) :
  -1022 <= e ->
  Double.is_nonzero (binary_round Double.prec Double.emax s q e) = true.
Proof.
  intros He. unfold binary_round, shl_align.
  rewrite digits2_pos_size.
  pose proof (Pos2Z.is_pos (Pos.size q)).
  remember (fexp Double.prec Double.emax (Zpos (Pos.size q) + e)) as x eqn:Ex.
  unfold fexp, emin, Double.prec, Double.emax in Ex.
  destruct (x - e) as [|n|n]; apply binary_round_aux_nonzero; lia.
Qed.

Lemma of_Z_nonzero (z : Z) : z <> 0 -> Double.is_nonzero (Double.of_Z z) = true.
Proof.
  intros Hz. destruct z as [|q|q]; [congruence| |];
    apply binary_round_nonzero; lia.
Qed.

Lemma Math_pow_2_nonzero (k : Z) :
  -1022 <= k -> Double.is_nonzero (Double.Math_pow_2 k) = true.
Proof. intros Hk. apply binary_round_nonzero; assumption. Qed.

Lemma is_nonzero_number (x : Double.t) :
  Double.is_nonzero x = true -> Double.is_number x = true.
Proof. destruct x; simpl; congruence. Qed.

Lemma of_Z_number (z : Z) : Double.is_number (Double.of_Z z) = true.
Proof.
  destruct (Z.eq_dec z 0) as [->|Hz]; [reflexivity|].
  apply is_nonzero_number, of_Z_nonzero, Hz.
Qed.

Lemma mul_nonzero (x y : Double.t) :
  Double.is_nonzero x = true -> Double.is_nonzero y = true ->
  Double.is_number (Double.mul x y) = true.
Proof.
  destruct x as [sx|sx| |sx mx ex], y as [sy|sy| |sy my ey];
    simpl; try congruence; intros _ _.
  apply binary_round_aux_number. lia.
Qed.

Lemma SFcompare_refl (x : Double.t) :
  Double.is_number x = true -> SFcompare x x = Some Eq.
Proof.
  destruct x as [s|[|]| |[|] m e]; simpl; try congruence; intros _;
    rewrite Z.compare_refl;
    change (Pos.compare_cont Eq m m) with (m ?= m)%positive;
    rewrite Pos.compare_refl; reflexivity.
Qed.

Lemma SFcompare_number (x y : Double.t) :
  Double.is_number x = true -> Double.is_number y = true ->
  exists c, SFcompare x y = Some c.
Proof.
  destruct x, y; simpl; try congruence; intros _ _; eauto.
Qed.

(** [Math.min] of two numbers is at most the second. *)
Lemma Math_min_leb (x y : Double.t) :
  Double.is_number x = true -> Double.is_number y = true ->
  Double.leb (Double.Math_min x y) y = true.
Proof.
  intros Hx Hy. unfold Double.Math_min, Double.leb, SFleb.
  destruct (SFcompare_number x y Hx Hy) as [c Hc]. rewrite Hc.
  destruct c.
  - destruct x as [[|]| | |]; rewrite ?Hc, ?SFcompare_refl by assumption;
      reflexivity.
  - rewrite Hc. reflexivity.
  - rewrite SFcompare_refl by assumption. reflexivity.
Qed.

(** An integral double read back as the integer it holds. *)
Lemma to_Z_of_Z (z : Z) :
  Double.isSafeInteger z -> Double.to_Z (Double.of_Z z) = Some z.
Proof.
  unfold Double.isSafeInteger. intros Hz.
  assert (H : forall (s : bool) (q : positive),
             Zpos q < 2 ^ 53 ->
             Double.to_Z
               (S754_finite s (Double.shl q (53 - Zpos (Pos.size q)))
                            (Zpos (Pos.size q) - 53))
             = Some (if s then Zneg q else Zpos q)).
  { intros s q Hq. pose proof (size_lt q 53 Hq) as Hd.
    unfold Double.to_Z.
    destruct (Z.leb_spec 0 (Zpos (Pos.size q) - 53)) as [H0|H0].
    - replace (Zpos (Pos.size q) - 53) with 0 by lia.
      replace (53 - Zpos (Pos.size q)) with 0 by lia.
      cbn [Double.shl]. f_equal. destruct s; lia.
    - rewrite shl_Z by lia.
      replace (- (Zpos (Pos.size q) - 53)) with (53 - Zpos (Pos.size q)) by lia.
      assert (Hp : 0 < 2 ^ (53 - Zpos (Pos.size q)))
        by (apply Z.pow_pos_nonneg; lia).
      rewrite Z.mod_mul by lia. cbn [Z.eqb]. f_equal.
      destruct s.
      + change (Zneg (Double.shl q (53 - Zpos (Pos.size q))))
          with (- Zpos (Double.shl q (53 - Zpos (Pos.size q)))).
        rewrite shl_Z by lia.
        rewrite <- Z.mul_opp_l, Z.div_mul by lia. reflexivity.
      + rewrite Z.div_mul by lia. reflexivity. }
  destruct z as [|q|q].
  - reflexivity.
  - rewrite of_Z_pos by lia. apply (H false). lia.
  - rewrite of_Z_neg by lia. apply (H true). lia.
Qed.

Lemma of_Z_inj (a b : Z) :
  Double.isSafeInteger a -> Double.isSafeInteger b ->
  Double.of_Z a = Double.of_Z b -> a = b.
Proof.
  intros Ha Hb E. pose proof (to_Z_of_Z a Ha) as H.
  rewrite E, to_Z_of_Z in H by assumption. congruence.
Qed.

(* ================================================================== *)
(** ** The backoff calculator *)
(* ================================================================== *)



(** On exact inputs the doubles compute the integer formula. *)
Lemma calculateBackoff_exact
    (n initialDelay maxDelay : Z) (strategy : BackoffStrategy) :
  1 <= n ->
  Double.isSafeInteger maxDelay ->
  exact_inputs n initialDelay strategy ->
  calculateBackoff n (Double.of_Z initialDelay) (Double.of_Z maxDelay) strategy
  = Double.of_Z (Z.min (match strategy with
                        | exponential => initialDelay * 2 ^ (n - 1)
                        | linear => initialDelay * n
                        end) maxDelay).
Proof.
  unfold Double.isSafeInteger. intros Hn Hm Hx. unfold calculateBackoff.
  destruct strategy; cbn [exact_inputs] in Hx;
    unfold Double.isSafeInteger in Hx; destruct Hx as [H1 H2].
  - rewrite mul_of_Z by lia. apply Math_min_of_Z; assumption.
  - rewrite mul_Math_pow_2 by lia. apply Math_min_of_Z; assumption.
Qed.



(* ================================================================== *)
(** ** connect and disconnect *)
(* ================================================================== *)

Ltac unfold_monad :=
  unfold bind, try_catch, ret, throw, lift, gets, assign, emit, sleep, log,
    call_connect, call_disconnect, call_operation, call_onError, Date_now,
    getHeapUsagePercent, triggerGC, act, with_calls in *.

Section ConnectDisconnect.

Context {cfg : Config} {env : Env}.

(** A message at level [error] passes every configured level. *)
Lemma log_lines_error (msg : LogMsg) : log_lines error msg = [(error, msg)].
Proof.
  unfold log_lines. destruct (logging_level cfg) as [[]|]; reflexivity.
Qed.

Lemma connect_resolves (s : St) :
  prisma_connect env (n_connect (calls s)) = None ->
  connect s =
    (inl tt,
     {| this := set_reconnectAttempts 0
                  (set_lastSuccessfulConnection
                     (Some (clock env (n_clock (calls s))))
                     (set_connected true (this s)));
        trace := trace s ++ [PrismaConnect (prisma (this s)); Emit Ev_connect];
        logged := logged s ++ log_lines info Msg_Connected;
        calls := tick_clock (tick_connect (calls s)) |}).
Proof.
  intros H. unfold connect. unfold_monad. rewrite H. simpl.
  now rewrite <- app_assoc.
Qed.

Lemma connect_rejects (s : St) (e : JSVal) :
  prisma_connect env (n_connect (calls s)) = Some e ->
  connect s =
    (inr e,
     {| this := set_connected false (this s);
        trace := trace s ++ [PrismaConnect (prisma (this s));
                             Emit (Ev_disconnect e)];
        logged := logged s;
        calls := tick_connect (calls s) |}).
Proof.
  intros H. unfold connect. unfold_monad. rewrite H. simpl.
  now rewrite <- app_assoc.
Qed.

Lemma disconnect_run (s : St) :
  disconnect s =
    (inl tt,
     {| this := set_connected false (this s);
        trace := trace s ++ [PrismaDisconnect (prisma (this s))];
        logged := logged s ++
                  match prisma_disconnect env (n_disconnect (calls s)) with
                  | None => log_lines info Msg_Disconnected
                  | Some e => log_lines error (Msg_ErrorDuringDisconnect e)
                  end;
        calls := tick_disconnect (calls s) |}).
Proof.
  unfold disconnect. unfold_monad.
  destruct (prisma_disconnect env (n_disconnect (calls s))); reflexivity.
Qed.

(** C9.  [connect] calls the primitive once.  When it resolves, the state
    becomes Connected, [lastSuccessfulConnection] is the current time,
    [reconnectAttempts] is 0 and [connect] is emitted; when it rejects, the
    state becomes Disconnected, [disconnect(error)] is emitted and the very
    error is thrown, the primitive not being called again.  So
    [reconnectAttempts] is 0 after every successful connect. *)
Theorem connect_spec (s : St) :
  let r := connect s in
  n_connect (calls (snd r)) = S (n_connect (calls s)) /\
  List.length (filter is_connect_call (trace (snd r)))
    = S (List.length (filter is_connect_call (trace s))) /\
  match prisma_connect env (n_connect (calls s)) with
  | None =>
      fst r = inl tt /\
      connected (this (snd r)) = true /\
      lastSuccessfulConnection (this (snd r))
        = Some (clock env (n_clock (calls s))) /\
      reconnectAttempts (this (snd r)) = 0 /\
      this (snd r)
        = set_reconnectAttempts 0
            (set_lastSuccessfulConnection
               (Some (clock env (n_clock (calls s))))
               (set_connected true (this s))) /\
      trace (snd r)
        = (trace s ++ [PrismaConnect (prisma (this s)); Emit Ev_connect])%list
  | Some e =>
      fst r = inr e /\
      connected (this (snd r)) = false /\
      this (snd r) = set_connected false (this s) /\
      trace (snd r)
        = (trace s ++ [PrismaConnect (prisma (this s));
                       Emit (Ev_disconnect e)])%list
  end.
Proof.
  intros r. subst r.
  destruct (prisma_connect env (n_connect (calls s))) as [e|] eqn:H.
  - rewrite (connect_rejects s e H). simpl.
    rewrite filter_app, length_app. simpl.
    repeat split; lia.
  - rewrite (connect_resolves s H). simpl.
    rewrite filter_app, length_app. simpl.
    repeat split; lia.
Qed.

(** C8.  [disconnect] never throws and leaves the state Disconnected,
    whether the primitive resolves or rejects; a rejection is logged at
    level [error] and nothing is emitted.  Called twice in a row, it
    returns both times and leaves the state Disconnected both times. *)
Theorem disconnect_spec (s : St) :
  let r := disconnect s in
  let r' := disconnect (snd r) in
  fst r = inl tt /\
  connected (this (snd r)) = false /\
  this (snd r) = set_connected false (this s) /\
  trace (snd r) = (trace s ++ [PrismaDisconnect (prisma (this s))])%list /\
  (forall e,
      prisma_disconnect env (n_disconnect (calls s)) = Some e ->
      logged (snd r)
      = (logged s ++ [(error, Msg_ErrorDuringDisconnect e)])%list) /\
  fst r' = inl tt /\
  connected (this (snd r')) = false /\
  this (snd r') = set_connected false (this s).
Proof.
  intros r r'. subst r r'. rewrite !disconnect_run. simpl.
  repeat split.
  intros e H. now rewrite H, log_lines_error.
Qed.

End ConnectDisconnect.

(* ================================================================== *)
(** ** ensureConnected *)
(* ================================================================== *)

Section EnsureConnected.

Context {cfg : Config} {env : Env}.

(** One turn of the loop whose connect attempt is rejected. *)
Lemma reconnect_attempt_rejects (maxAttempts attempt : Z) (s : St) (e : JSVal) :
  prisma_connect env (n_connect (calls s)) = Some e ->
  let r := reconnect_attempt maxAttempts attempt s in
  fst r = (if attempt =? maxAttempts
           then inr (JS.new_Error (reconnect_failed_message maxAttempts e))
           else inl NextIteration) /\
  this (snd r) = set_connected false (set_reconnectAttempts attempt (this s)) /\
  trace (snd r)
    = (trace s
       ++ [Emit (Ev_reconnect attempt); PrismaDisconnect (prisma (this s));
           Sleep (reconnect_delay attempt); PrismaConnect (prisma (this s));
           Emit (Ev_disconnect e)]
       ++ (if attempt =? maxAttempts
           then [Emit (Ev_reconnect_failed e)] else []))%list /\
  calls (snd r) = tick_connect (tick_disconnect (calls s)).
Proof.
  intros H r. subst r. unfold reconnect_attempt. unfold_monad.
  rewrite disconnect_run. cbn [this trace logged calls].
  rewrite (connect_rejects _ e) by exact H.
  destruct (attempt =? maxAttempts); cbn [fst snd this trace logged calls];
    rewrite <- ?app_assoc; repeat split.
Qed.

(** One turn of the loop whose connect attempt resolves. *)
Lemma reconnect_attempt_resolves (maxAttempts attempt : Z) (s : St) :
  prisma_connect env (n_connect (calls s)) = None ->
  let r := reconnect_attempt maxAttempts attempt s in
  fst r = inl Return /\
  this (snd r)
    = set_totalReconnects (totalReconnects (this s) + 1)
        (set_reconnectAttempts 0
           (set_lastSuccessfulConnection
              (Some (clock env (n_clock (calls s))))
              (set_connected true (this s)))) /\
  trace (snd r)
    = (trace s
       ++ [Emit (Ev_reconnect attempt); PrismaDisconnect (prisma (this s));
           Sleep (reconnect_delay attempt); PrismaConnect (prisma (this s));
           Emit Ev_connect; Emit Ev_reconnect_success])%list /\
  calls (snd r) = tick_clock (tick_connect (tick_disconnect (calls s))).
Proof.
  intros H r. subst r. unfold reconnect_attempt. unfold_monad.
  rewrite disconnect_run. cbn [this trace logged calls].
  rewrite connect_resolves by exact H.
  cbn [fst snd this trace logged calls]. rewrite <- ?app_assoc.
  repeat split.
Qed.

(** The fuel handed to the loop never runs out before the loop ends. *)
Lemma reconnect_loop_fuel (fuel fuel' : nat) (maxAttempts attempt : Z) (s : St) :
  (Z.to_nat (maxAttempts - attempt + 1) <= fuel)%nat ->
  (Z.to_nat (maxAttempts - attempt + 1) <= fuel')%nat ->
  reconnect_loop fuel maxAttempts attempt s
  = reconnect_loop fuel' maxAttempts attempt s.
Proof.
  revert fuel' attempt s.
  induction fuel as [|fuel IH]; intros fuel' attempt s Hf Hf'.
  - destruct fuel' as [|fuel']; [reflexivity|]. simpl.
    destruct (Z.leb_spec attempt maxAttempts); [lia | reflexivity].
  - destruct fuel' as [|fuel']; simpl;
      destruct (Z.leb_spec attempt maxAttempts); try reflexivity; try lia.
    unfold bind.
    destruct (reconnect_attempt maxAttempts attempt s) as [[[]|e] s1];
      try reflexivity.
    apply IH; lia.
Qed.

(** In particular the fuel that [ensureConnected] hands over is enough:
    more of it changes nothing. *)
Lemma ensureConnected_fuel (extra : nat) (maxAttempts : Z) (s : St) :
  reconnect_loop (Z.to_nat maxAttempts + extra) maxAttempts 1 s
  = reconnect_loop (Z.to_nat maxAttempts) maxAttempts 1 s.
Proof. apply reconnect_loop_fuel; lia. Qed.

Lemma string_length_append (a b : string) :
  String.length (a ++ b) = (String.length a + String.length b)%nat.
Proof.
  induction a as [|c a IH]; simpl; [reflexivity | now rewrite IH].
Qed.

(** The error that reports the exhaustion is never the error it wraps. *)
Lemma wrapped_error_distinct (maxAttempts : Z) (e : JSVal) :
  JS.new_Error (reconnect_failed_message maxAttempts e) <> e.
Proof.
  intros H.
  destruct e as [| |b|n| |x|isError fields]; try discriminate H.
  unfold JS.new_Error in H. injection H as Hi Hf. subst isError.
  destruct fields as [|[k v] [|]]; try discriminate Hf.
  injection Hf as Hk Hv. subst k.
  destruct v as [| |b|n| |x|isError fields]; try discriminate Hv.
  injection Hv as Hv. unfold reconnect_failed_message in Hv.
  assert (G : getErrorMessage (JObj true [("message", JStr x)]) = JStr x)
    by reflexivity.
  rewrite G in Hv. cbn [JS.ToString] in Hv.
  apply (f_equal String.length) in Hv.
  rewrite !string_length_append in Hv. simpl String.length in Hv. lia.
Qed.

Lemma reconnect_loop_step (fuel : nat) (maxAttempts attempt : Z) (s : St) :
  attempt <= maxAttempts ->
  reconnect_loop (S fuel) maxAttempts attempt s
  = match reconnect_attempt maxAttempts attempt s with
    | (inl Return, s') => (inl tt, s')
    | (inl NextIteration, s') =>
        reconnect_loop fuel maxAttempts (attempt + 1) s'
    | (inr e, s') => (inr e, s')
    end.
Proof.
  intros H. cbn [reconnect_loop].
  destruct (Z.leb_spec attempt maxAttempts) as [_|]; [|lia].
  unfold bind.
  destruct (reconnect_attempt maxAttempts attempt s) as [[[]|e] s'];
    reflexivity.
Qed.

(** The loop when every remaining connect attempt is rejected. *)
Lemma reconnect_loop_exhausted (fuel : nat) :
  forall (maxAttempts attempt : Z) (s : St),
    attempt <= maxAttempts ->
    fuel = Z.to_nat (maxAttempts - attempt + 1) ->
    (forall k, (k < fuel)%nat ->
               prisma_connect env (n_connect (calls s) + k) <> None) ->
    exists e tr,
      prisma_connect env (n_connect (calls s) + fuel - 1) = Some e /\
      let r := reconnect_loop fuel maxAttempts attempt s in
      fst r = inr (JS.new_Error (reconnect_failed_message maxAttempts e)) /\
      this (snd r)
        = set_connected false (set_reconnectAttempts maxAttempts (this s)) /\
      trace (snd r) = (trace s ++ tr ++ [Emit (Ev_reconnect_failed e)])%list /\
      existsb is_reconnect_failed (emitted tr) = false /\
      List.length (filter is_connect_call tr) = fuel /\
      n_connect (calls (snd r)) = (n_connect (calls s) + fuel)%nat.
Proof.
  induction fuel as [|fuel IH]; intros maxAttempts attempt s Hle Hfuel Hrej.
  - lia.
  - destruct (prisma_connect env (n_connect (calls s))) as [e0|] eqn:H0.
    2:{ exfalso. apply (Hrej 0%nat); [lia|]. now rewrite Nat.add_0_r. }
    destruct (reconnect_attempt_rejects maxAttempts attempt s e0 H0)
      as [Hr [Hthis [Htrace Hcalls]]].
    rewrite reconnect_loop_step by exact Hle.
    destruct (reconnect_attempt maxAttempts attempt s) as [o s1].
    cbn [fst snd] in Hr, Hthis, Htrace, Hcalls.
    destruct (Z.eqb_spec attempt maxAttempts) as [Heq|Hne].
    + (* the final attempt *)
      subst o attempt. assert (fuel = 0%nat) by lia. subst fuel.
      exists e0.
      exists [Emit (Ev_reconnect maxAttempts);
              PrismaDisconnect (prisma (this s));
              Sleep (reconnect_delay maxAttempts);
              PrismaConnect (prisma (this s)); Emit (Ev_disconnect e0)].
      split.
      { replace (n_connect (calls s) + 1 - 1)%nat
          with (n_connect (calls s)) by lia. exact H0. }
      cbn [fst snd]. rewrite Hthis, Htrace, Hcalls.
      repeat split. simpl. lia.
    + (* another attempt follows *)
      subst o.
      destruct (IH maxAttempts (attempt + 1) s1) as [e [tr [He Hrest]]].
      * lia.
      * lia.
      * intros k Hk. rewrite Hcalls. simpl.
        replace (S (n_connect (calls s) + k))
          with (n_connect (calls s) + S k)%nat by lia.
        apply Hrej. lia.
      * exists e.
        exists ([Emit (Ev_reconnect attempt);
                 PrismaDisconnect (prisma (this s));
                 Sleep (reconnect_delay attempt);
                 PrismaConnect (prisma (this s)); Emit (Ev_disconnect e0)]
                ++ tr)%list.
        split.
        { rewrite Hcalls in He. simpl in He.
          replace (n_connect (calls s) + S fuel - 1)%nat
            with (S (n_connect (calls s)) + fuel - 1)%nat by lia.
          exact He. }
        cbv zeta in Hrest. destruct Hrest as [R1 [R2 [R3 [R4 [R5 R6]]]]].
        cbv zeta. rewrite R1, R2, R3, R6, Hthis, Htrace, Hcalls.
        repeat split.
        -- rewrite app_nil_r, <- !app_assoc. reflexivity.
        -- unfold emitted in *. rewrite flat_map_app, existsb_app, R4.
           reflexivity.
        -- rewrite filter_app, length_app, R5. reflexivity.
        -- simpl. lia.
Qed.

Lemma or_default_positive (x d : Z) : 0 <= x -> 1 <= d -> 1 <= or_default x d.
Proof.
  intros Hx Hd. unfold or_default. destruct (Z.eqb_spec x 0); lia.
Qed.

(** From the Disconnected state [ensureConnected] enters the loop. *)
Lemma ensureConnected_disconnected (s : St) :
  connected (this s) = false ->
  ensureConnected s
  = let maxAttempts := or_default (reconnect_maxAttempts cfg) 3 in
    reconnect_loop (Z.to_nat maxAttempts) maxAttempts 1
      {| this := this s; trace := trace s;
         logged := logged s ++ log_lines debug Msg_ConnectionLost;
         calls := calls s |}.
Proof.
  intros H. unfold ensureConnected. unfold_monad. now rewrite H.
Qed.

Lemma ensureConnected_connected (s : St) :
  connected (this s) = true -> ensureConnected s = (inl tt, s).
Proof.
  intros H. unfold ensureConnected. unfold_monad. now rewrite H.
Qed.

(** The protocol succeeds at once when the next connect attempt resolves. *)
Lemma ensureConnected_resolves (s : St) :
  0 <= reconnect_maxAttempts cfg ->
  connected (this s) = false ->
  prisma_connect env (n_connect (calls s)) = None ->
  let r := ensureConnected s in
  fst r = inl tt /\
  this (snd r)
    = set_totalReconnects (totalReconnects (this s) + 1)
        (set_reconnectAttempts 0
           (set_lastSuccessfulConnection
              (Some (clock env (n_clock (calls s))))
              (set_connected true (this s)))) /\
  trace (snd r)
    = (trace s
       ++ [Emit (Ev_reconnect 1); PrismaDisconnect (prisma (this s));
           Sleep (reconnect_delay 1); PrismaConnect (prisma (this s));
           Emit Ev_connect; Emit Ev_reconnect_success])%list /\
  calls (snd r) = tick_clock (tick_connect (tick_disconnect (calls s))).
Proof.
  intros Hm Hc H r. subst r.
  rewrite ensureConnected_disconnected by exact Hc. cbv zeta.
  pose proof (or_default_positive (reconnect_maxAttempts cfg) 3 Hm) as HN.
  destruct (Z.to_nat (or_default (reconnect_maxAttempts cfg) 3))
    as [|fuel] eqn:Hfuel; [lia|].
  rewrite reconnect_loop_step by lia.
  set (s0 := {| this := this s; trace := trace s;
                logged := logged s ++ log_lines debug Msg_ConnectionLost;
                calls := calls s |}).
  destruct (reconnect_attempt_resolves
              (or_default (reconnect_maxAttempts cfg) 3) 1 s0 H)
    as [Hr [Hthis [Htrace Hcalls]]].
  destruct (reconnect_attempt _ 1 s0) as [o s1].
  cbn [fst snd] in *. subst o. cbn [fst snd]. auto.
Qed.

(** C4.  From the Disconnected state, with [maxAttempts] connect attempts
    (3 when the setting is 0) that are all rejected, [ensureConnected] makes
    exactly that many attempts, emits [reconnect:failed] with the error of
    the last one, once and as its last action, and throws a new error,
    distinct from the one it wraps, whose message is "Failed to reconnect
    after <maxAttempts> attempts: <message of the last error>".  The
    manager is left Disconnected with [reconnectAttempts = maxAttempts], and
    serves the next call: if the next connect attempt resolves,
    [ensureConnected] returns with the state Connected. *)
Theorem ensureConnected_exhausted (s : St) :
  let maxAttempts := or_default (reconnect_maxAttempts cfg) 3 in
  0 <= reconnect_maxAttempts cfg ->
  connected (this s) = false ->
  (forall k, (k < Z.to_nat maxAttempts)%nat ->
             prisma_connect env (n_connect (calls s) + k) <> None) ->
  exists e tr,
    prisma_connect env (n_connect (calls s) + Z.to_nat maxAttempts - 1)
      = Some e /\
    let r := ensureConnected s in
    let wrapped := JS.new_Error (reconnect_failed_message maxAttempts e) in
    fst r = inr wrapped /\
    JS.prop wrapped "message"
      = JStr ("Failed to reconnect after " ++ JS.string_of_Z maxAttempts
              ++ " attempts: " ++ JS.ToString (getErrorMessage e)) /\
    wrapped <> e /\
    trace (snd r) = (trace s ++ tr ++ [Emit (Ev_reconnect_failed e)])%list /\
    existsb is_reconnect_failed (emitted tr) = false /\
    List.length (filter is_connect_call tr) = Z.to_nat maxAttempts /\
    connected (this (snd r)) = false /\
    reconnectAttempts (this (snd r)) = maxAttempts /\
    (prisma_connect env (n_connect (calls (snd r))) = None ->
     fst (ensureConnected (snd r)) = inl tt /\
     connected (this (snd (ensureConnected (snd r)))) = true).
Proof.
  intros maxAttempts Hm Hc Hrej.
  pose proof (or_default_positive (reconnect_maxAttempts cfg) 3 Hm) as HN.
  fold maxAttempts in HN.
  set (s0 := {| this := this s; trace := trace s;
                logged := logged s ++ log_lines debug Msg_ConnectionLost;
                calls := calls s |}).
  destruct (reconnect_loop_exhausted (Z.to_nat maxAttempts) maxAttempts 1 s0)
    as [e [tr [He Hrest]]]; [lia | f_equal; lia | exact Hrej |].
  exists e, tr. split; [exact He|].
  cbv zeta in Hrest. destruct Hrest as [R1 [R2 [R3 [R4 [R5 R6]]]]].
  cbv zeta. rewrite ensureConnected_disconnected by exact Hc.
  cbv zeta. fold maxAttempts. fold s0.
  rewrite R1, R2, R3.
  split; [reflexivity|]. split; [reflexivity|].
  split; [apply wrapped_error_distinct|].
  split; [reflexivity|]. split; [exact R4|]. split; [exact R5|].
  split; [reflexivity|]. split; [reflexivity|].
  intros Hnext.
  destruct (ensureConnected_resolves
              (snd (reconnect_loop (Z.to_nat maxAttempts) maxAttempts 1 s0)))
    as [Hfst [Hthis _]]; [exact Hm | now rewrite R2 | exact Hnext |].
  split; [exact Hfst | now rewrite Hthis].
Qed.

End EnsureConnected.

(* ================================================================== *)
(** ** Every method is a sequence of elementary changes *)
(* ================================================================== *)

Lemma star_trans (step : St -> St -> Prop) (a b c : St) :
  star step a b -> star step b c -> star step a c.
Proof.
  intros Hab Hbc. induction Hbc as [|b c d _ IH Hcd]; [assumption|].
  eapply star_step; [apply IH; assumption | exact Hcd].
Qed.

Lemma star_one (step : St -> St -> Prop) (a b : St) :
  step a b -> star step a b.
Proof. intros H. eapply star_step; [apply star_refl | exact H]. Qed.

Lemma star_mono (step step' : St -> St -> Prop) :
  (forall a b, step a b -> step' a b) ->
  forall a b, star step a b -> star step' a b.
Proof.
  intros Hsub a b H. induction H as [|a b c _ IH Hbc]; [apply star_refl|].
  eapply star_step; [exact IH | apply Hsub, Hbc].
Qed.

(** A property kept by every step is kept by every sequence of steps. *)
Lemma star_invariant (step : St -> St -> Prop) (I : St -> Prop) :
  (forall a b, step a b -> I a -> I b) ->
  forall a b, star step a b -> I a -> I b.
Proof.
  intros Hstep a b H. induction H as [|a b c _ IH Hbc]; [auto|].
  intros Ha. eapply Hstep; [exact Hbc | auto].
Qed.

Section MovesRules.

Variable step : St -> St -> Prop.

Lemma Moves_ret {A : Type} (a : A) : Moves (star step) (ret a).
Proof. intros s. apply star_refl. Qed.

Lemma Moves_throw {A : Type} (e : JSVal) : Moves (star step) (@throw A e).
Proof. intros s. apply star_refl. Qed.

Lemma Moves_lift {A : Type} (o : Outcome A) : Moves (star step) (lift o).
Proof. intros s. apply star_refl. Qed.

Lemma Moves_gets {A : Type} (f : Manager -> A) : Moves (star step) (gets f).
Proof. intros s. apply star_refl. Qed.

Lemma Moves_bind {A B : Type} (m : M A) (k : A -> M B) :
  Moves (star step) m -> (forall a, Moves (star step) (k a)) ->
  Moves (star step) (bind m k).
Proof.
  intros Hm Hk s. unfold bind. specialize (Hm s).
  destruct (m s) as [[a|e] s']; cbn [snd] in *.
  - eapply star_trans; [exact Hm | apply Hk].
  - exact Hm.
Qed.

Lemma Moves_try_catch {A : Type} (m : M A) (handler : JSVal -> M A) :
  Moves (star step) m -> (forall e, Moves (star step) (handler e)) ->
  Moves (star step) (try_catch m handler).
Proof.
  intros Hm Hh s. unfold try_catch. specialize (Hm s).
  destruct (m s) as [[a|e] s']; cbn [snd] in *.
  - exact Hm.
  - eapply star_trans; [exact Hm | apply Hh].
Qed.

Lemma Moves_one {A : Type} (m : M A) :
  (forall s, step s (snd (m s))) -> Moves (star step) m.
Proof. intros H s. apply star_one, H. Qed.

End MovesRules.

Ltac moves_structure :=
  repeat match goal with
         | |- Moves _ (ret _) => apply Moves_ret
         | |- Moves _ (throw _) => apply Moves_throw
         | |- Moves _ (lift _) => apply Moves_lift
         | |- Moves _ (gets _) => apply Moves_gets
         | |- Moves _ (bind _ _) => apply Moves_bind
         | |- Moves _ (try_catch _ _) => apply Moves_try_catch
         | |- forall _, Moves _ _ => intro
         end.

Ltac moves_case :=
  match goal with
  | |- Moves _ (if ?b then _ else _) => destruct b
  | |- Moves _ (match ?x with _ => _ end) => destruct x
  end.

Ltac moves_all := repeat (moves_structure; try moves_case).

Section MethodsAreSteps.

Context {cfg : Config} {env : Env}.

Lemma reconnect_attempt_steps (maxAttempts attempt : Z) :
  Moves (star reconnect_step) (reconnect_attempt maxAttempts attempt).
Proof.
  unfold reconnect_attempt. moves_all;
    apply Moves_one; intros s; constructor; discriminate.
Qed.

Lemma reconnect_loop_steps (fuel : nat) (maxAttempts attempt : Z) :
  Moves (star reconnect_step) (reconnect_loop fuel maxAttempts attempt).
Proof.
  revert attempt. induction fuel as [|fuel IH]; intros attempt; simpl.
  - apply Moves_ret.
  - destruct (attempt <=? maxAttempts); [|apply Moves_ret].
    apply Moves_bind; [apply reconnect_attempt_steps|].
    intros [|]; [apply Moves_ret | apply IH].
Qed.

Lemma ensureConnected_steps : Moves (star reconnect_step) ensureConnected.
Proof.
  unfold ensureConnected. moves_all.
  - apply Moves_one; intros s; constructor.
  - apply reconnect_loop_steps.
Qed.

Lemma Moves_manager {A : Type} (m : M A) :
  Moves (star reconnect_step) m -> Moves (star manager_step) m.
Proof.
  intros H s. eapply star_mono; [|apply H]. intros a b. apply ms_reconnect.
Qed.

Ltac manager_atom :=
  solve [ apply Moves_manager, ensureConnected_steps
        | apply Moves_manager, Moves_one; intros ?; constructor; discriminate
        | apply Moves_one; intros ?; constructor ].

Lemma connect_steps : Moves (star manager_step) connect.
Proof. manager_atom. Qed.

Lemma disconnect_steps : Moves (star manager_step) disconnect.
Proof. manager_atom. Qed.

Lemma executeWithReconnect_steps (operationName : string) :
  Moves (star manager_step) (executeWithReconnect operationName).
Proof.
  unfold executeWithReconnect, record_success, on_failure.
  moves_all; manager_atom.
Qed.

Lemma refreshTick_steps : Moves (star manager_step) refreshTick.
Proof. unfold refreshTick. moves_all; manager_atom. Qed.

Lemma initialize_steps : Moves (star manager_step) initialize.
Proof.
  unfold initialize, startPeriodicRefresh, startHealthChecks.
  moves_all; manager_atom.
Qed.

Lemma getConnectionStats_steps : Moves (star manager_step) getConnectionStats.
Proof. unfold getConnectionStats. moves_all; manager_atom. Qed.

Lemma reconnect_steps : Moves (star manager_step) reconnect.
Proof. unfold reconnect. moves_all; manager_atom. Qed.

Lemma shutdown_steps : Moves (star manager_step) shutdown.
Proof. unfold shutdown. moves_all; manager_atom. Qed.

Lemma run_call_steps (c : Call) (s : St) : star manager_step s (run_call c s).
Proof.
  destruct c; cbn [run_call].
  - apply initialize_steps.
  - apply executeWithReconnect_steps.
  - apply connect_steps.
  - apply disconnect_steps.
  - apply refreshTick_steps.
  - apply reconnect_steps.
  - apply getConnectionStats_steps.
  - apply shutdown_steps.
Qed.

Lemma run_calls_steps (l : list Call) (s : St) :
  star manager_step s (run_calls l s).
Proof.
  revert s. induction l as [|c l IH]; intros s; cbn [run_calls fold_left].
  - apply star_refl.
  - eapply star_trans; [apply run_call_steps | apply IH].
Qed.

End MethodsAreSteps.

(* ================================================================== *)
(** ** What the elementary changes keep *)
(* ================================================================== *)

Lemma handles_app (a b : list Action) :
  handles (a ++ b) = (handles a ++ handles b)%list.
Proof. apply flat_map_app. Qed.

Lemma emitted_app (a b : list Action) :
  emitted (a ++ b) = (emitted a ++ emitted b)%list.
Proof. apply flat_map_app. Qed.

Lemma replacements_constant (h : Handle) (l : list Handle) :
  (forall h', In h' l -> h' = h) -> replacements l = 0%nat.
Proof.
  induction l as [|a [|b l] IH]; intros H; try reflexivity.
  change (((if Nat.eqb a b then 0 else 1) + replacements (b :: l))%nat = 0%nat).
  rewrite IH by (intros x Hx; apply H; now right).
  rewrite (H a) by now left. rewrite (H b) by (right; now left).
  now rewrite Nat.eqb_refl.
Qed.

Lemma drives_no_hard_reset (h : Handle) (s : St) :
  drives h s -> hard_resets (trace s) = 0%nat.
Proof. intros [_ H]. unfold hard_resets. now apply (replacements_constant h). Qed.

Lemma event_name_not_hard_reset (e : Event) : event_name e <> "hard-reset".
Proof. destruct e; discriminate. Qed.

Section StepFacts.

Context {cfg : Config} {env : Env}.

Lemma connect_effect (s : St) :
  exists ev,
    trace (snd (connect s))
      = (trace s ++ [PrismaConnect (prisma (this s)); Emit ev])%list /\
    prisma (this (snd (connect s))) = prisma (this s) /\
    queryCount (this (snd (connect s))) = queryCount (this s) /\
    errorCount (this (snd (connect s))) = errorCount (this s) /\
    n_operation (calls (snd (connect s))) = n_operation (calls s) /\
    n_onError (calls (snd (connect s))) = n_onError (calls s) /\
    n_heap (calls (snd (connect s))) = n_heap (calls s).
Proof.
  destruct (prisma_connect env (n_connect (calls s))) as [e|] eqn:H.
  - rewrite (connect_rejects s e H). exists (Ev_disconnect e).
    repeat split.
  - rewrite (connect_resolves s H). exists Ev_connect. repeat split.
Qed.

Lemma reconnect_step_same_counters (a b : St) :
  reconnect_step a b -> same_counters a b.
Proof.
  intros H. destruct H; unfold same_counters.
  - destruct (connect_effect s) as [ev [_ [H1 [H2 [H3 [H4 [H5 H6]]]]]]].
    auto 10.
  - rewrite disconnect_run. repeat split.
  - repeat split.
  - repeat split.
  - repeat split.
  - repeat split.
  - repeat split.
Qed.

Lemma same_counters_refl (s : St) : same_counters s s.
Proof. repeat split. Qed.

Lemma same_counters_trans (a b c : St) :
  same_counters a b -> same_counters b c -> same_counters a c.
Proof.
  unfold same_counters. intros H1 H2.
  repeat split; (etransitivity; [apply H2 | apply H1]).
Qed.

(** The reconnection protocol invokes neither the operation nor the error
    handler, samples no memory, and counts neither a query nor an error. *)
Lemma ensureConnected_same_counters (s : St) :
  same_counters s (snd (ensureConnected s)).
Proof.
  apply (star_invariant reconnect_step (same_counters s)) with (a := s).
  - intros a b Hab Ha.
    eapply same_counters_trans; [exact Ha|].
    now apply reconnect_step_same_counters.
  - apply ensureConnected_steps.
  - apply same_counters_refl.
Qed.

Lemma reconnect_step_drives (h : Handle) (a b : St) :
  reconnect_step a b -> drives h a -> drives h b.
Proof.
  intros H [Hp Hh]. destruct H; unfold drives.
  - destruct (connect_effect s) as [ev [Ht [H1 _]]].
    rewrite Ht, H1, handles_app. split; [exact Hp|].
    intros h' Hin. apply in_app_or in Hin as [Hin|Hin]; [auto|].
    simpl in Hin. destruct Hin as [<-|[]]. exact Hp.
  - rewrite disconnect_run. cbn [this trace prisma set_connected snd].
    rewrite handles_app. split; [exact Hp|].
    intros h' Hin. apply in_app_or in Hin as [Hin|Hin]; [auto|].
    simpl in Hin. destruct Hin as [<-|[]]. exact Hp.
  - split; [exact Hp | exact Hh].
  - split; [exact Hp | exact Hh].
  - cbn [snd emit act this trace]. rewrite handles_app, app_nil_r.
    split; [exact Hp | exact Hh].
  - cbn [snd sleep act this trace]. rewrite handles_app, app_nil_r.
    split; [exact Hp | exact Hh].
  - split; [exact Hp | exact Hh].
Qed.

Lemma manager_step_drives (h : Handle) (a b : St) :
  manager_step a b -> drives h a -> drives h b.
Proof.
  intros H [Hp Hh]. destruct H; unfold drives;
    try (split; [exact Hp | exact Hh]).
  - cbn [snd call_operation act with_calls this trace].
    rewrite handles_app, app_nil_r. split; [exact Hp | exact Hh].
  - unfold call_onError.
    destruct (handler _ err context);
      cbn [snd act with_calls this trace];
      rewrite handles_app, app_nil_r; (split; [exact Hp | exact Hh]).
  - unfold triggerGC. destruct (global_gc env);
      cbn [snd act this trace]; rewrite ?handles_app, ?app_nil_r;
      (split; [exact Hp | exact Hh]).
  - now apply (reconnect_step_drives h s s').
Qed.

(** Whatever is called on a manager, it goes on driving the client that it
    was constructed with. *)
Lemma run_calls_drives (h : Handle) (l : list Call) :
  drives h (run_calls l (new_St h)).
Proof.
  apply (star_invariant manager_step (drives h)) with (a := new_St h).
  - intros a b. apply manager_step_drives.
  - apply run_calls_steps.
  - split; [reflexivity | intros h' []].
Qed.

End StepFacts.

(* ================================================================== *)
(** ** executeWithReconnect *)
(* ================================================================== *)

Section Execute.

Context {cfg : Config} {env : Env}.

(** The recording that follows a successful operation. *)
Lemma record_success_run (operationName : string) (startTime : Z) (s : St) :
  let r := record_success operationName startTime s in
  fst r = inl tt /\
  this (snd r) = set_queryCount (queryCount (this s) + 1) (this s) /\
  trace (snd r) = (trace s ++ memory_actions (n_heap (calls s)))%list /\
  n_heap (calls (snd r))
    = (n_heap (calls s) + if memory_autoGC cfg then 1 else 0)%nat /\
  n_operation (calls (snd r)) = n_operation (calls s).
Proof.
  unfold record_success, memory_actions. unfold_monad.
  cbn [this trace logged calls fst snd tick_clock n_heap n_operation].
  destruct (memory_autoGC cfg); cbn beta;
    cbn [this trace logged calls fst snd tick_heap tick_clock n_heap
         n_operation];
    [|rewrite app_nil_r; repeat split; lia].
  destruct (Qle_bool _ _); cbn beta;
    cbn [this trace logged calls fst snd tick_heap tick_clock n_heap
         n_operation];
    [|rewrite app_nil_r; repeat split; lia].
  destruct (global_gc env);
    cbn [this trace logged calls fst snd tick_heap tick_clock n_heap
         n_operation];
    rewrite <- ?app_assoc; repeat split; lia.
Qed.

(** [executeWithReconnect] by the outcome of its attempt, that is of
    [ensureConnected] followed by the operation. *)
Lemma executeWithReconnect_unfold (operationName : string) (s : St) :
  let startTime := clock env (n_clock (calls s)) in
  executeWithReconnect operationName s
  = match (ensureConnected ;; call_operation) (snd (Date_now s)) with
    | (inl result, s1) =>
        (inl result, snd (record_success operationName startTime s1))
    | (inr e, s1) => on_failure operationName startTime e s1
    end.
Proof.
  intros startTime. unfold executeWithReconnect.
  unfold bind at 1. cbn [Date_now fst snd]. fold startTime.
  unfold try_catch. unfold bind at 1 4.
  destruct (ensureConnected _) as [[[]|x] sa]; [|reflexivity].
  unfold bind at 1. destruct (call_operation sa) as [[v|e] sb]; [|reflexivity].
  unfold bind at 1.
  pose proof (record_success_run operationName startTime sb) as [Hr _].
  destruct (record_success operationName startTime sb) as [o sc].
  cbn [fst] in Hr. subst o. reflexivity.
Qed.

(** The [catch] block on an error that the classifier finds recoverable. *)
Lemma on_failure_recoverable
    (operationName : string) (startTime : Z) (e : JSVal) (s1 : St) :
  handler_returns s1 e ->
  isRetryableError e = inl true ->
  exists s2,
    on_failure operationName startTime e s1
      = (ensureConnected ;; call_operation) s2 /\
    this s2
      = set_connected false
          (set_errorCount (errorCount (this s1) + 1) (this s1)) /\
    trace s2
      = (trace s1 ++ handler_actions operationName startTime s1 e
         ++ [Emit (Ev_disconnect e)])%list /\
    n_operation (calls s2) = n_operation (calls s1).
Proof.
  intros Hh Hr. unfold on_failure, handler_actions, handler_returns in *.
  destruct (onError cfg) as [handler|].
  - unfold_monad. cbn [this trace logged calls fst snd tick_clock n_onError].
    rewrite (Hh handler eq_refl). rewrite Hr.
    cbn [this trace logged calls fst snd].
    eexists. split; [reflexivity|].
    cbn [this trace logged calls tick_onError tick_clock n_operation].
    rewrite <- !app_assoc. repeat split.
  - unfold_monad. cbn [this trace logged calls fst snd]. rewrite Hr.
    cbn [this trace logged calls fst snd].
    eexists. split; [reflexivity|].
    cbn [this trace logged calls tick_clock n_operation].
    repeat split.
Qed.

(** The [catch] block on an error that the classifier finds not
    recoverable. *)
Lemma on_failure_not_recoverable
    (operationName : string) (startTime : Z) (e : JSVal) (s1 : St) :
  handler_returns s1 e ->
  isRetryableError e = inl false ->
  let r := on_failure operationName startTime e s1 in
  fst r = inr e /\
  this (snd r) = set_errorCount (errorCount (this s1) + 1) (this s1) /\
  trace (snd r)
    = (trace s1 ++ handler_actions operationName startTime s1 e)%list /\
  n_operation (calls (snd r)) = n_operation (calls s1).
Proof.
  intros Hh Hr. unfold on_failure, handler_actions, handler_returns in *.
  destruct (onError cfg) as [handler|].
  - unfold_monad. cbn [this trace logged calls fst snd tick_clock n_onError].
    rewrite (Hh handler eq_refl). rewrite Hr.
    cbn [this trace logged calls fst snd tick_onError tick_clock n_operation].
    repeat split.
  - unfold_monad. cbn [this trace logged calls fst snd]. rewrite Hr.
    cbn [this trace logged calls fst snd tick_clock n_operation].
    rewrite app_nil_r. repeat split.
Qed.

(** [ensureConnected] throws nothing but its report of exhaustion. *)
Lemma reconnect_attempt_throws (maxAttempts attempt : Z) (s s' : St) (x : JSVal) :
  reconnect_attempt maxAttempts attempt s = (inr x, s') ->
  exists e, x = JS.new_Error (reconnect_failed_message maxAttempts e).
Proof.
  intros H.
  destruct (prisma_connect env (n_connect (calls s))) as [e|] eqn:Hc.
  - destruct (reconnect_attempt_rejects maxAttempts attempt s e Hc) as [Hr _].
    rewrite H in Hr. cbn [fst] in Hr.
    destruct (attempt =? maxAttempts); [|discriminate Hr].
    injection Hr as ->. now exists e.
  - destruct (reconnect_attempt_resolves maxAttempts attempt s Hc) as [Hr _].
    rewrite H in Hr. discriminate Hr.
Qed.

Lemma reconnect_loop_throws (fuel : nat) :
  forall (maxAttempts attempt : Z) (s s' : St) (x : JSVal),
    reconnect_loop fuel maxAttempts attempt s = (inr x, s') ->
    exists e, x = JS.new_Error (reconnect_failed_message maxAttempts e).
Proof.
  induction fuel as [|fuel IH]; intros maxAttempts attempt s s' x H.
  - discriminate H.
  - cbn [reconnect_loop] in H.
    destruct (attempt <=? maxAttempts); [|discriminate H].
    unfold bind in H.
    destruct (reconnect_attempt maxAttempts attempt s) as [[[]|y] s1] eqn:Ha.
    + discriminate H.
    + now apply IH in H.
    + injection H as -> ->. now apply reconnect_attempt_throws in Ha.
Qed.

Lemma ensureConnected_throws (s s' : St) (x : JSVal) :
  ensureConnected s = (inr x, s') ->
  exists maxAttempts e,
    x = JS.new_Error (reconnect_failed_message maxAttempts e).
Proof.
  intros H. destruct (connected (this s)) eqn:Hc.
  - rewrite ensureConnected_connected in H by exact Hc. discriminate H.
  - rewrite ensureConnected_disconnected in H by exact Hc. cbv zeta in H.
    apply reconnect_loop_throws in H as [e He]. eauto.
Qed.

(** The report of exhaustion speaks of a "reconnect": the classifier finds
    it recoverable. *)
Lemma exhaustion_error_retryable (maxAttempts : Z) (e : JSVal) :
  isRetryableError (JS.new_Error (reconnect_failed_message maxAttempts e))
  = inl true.
Proof.
  unfold isRetryableError, JS.new_Error.
  rewrite isConnectionError_object. cbv zeta.
  cbn [JS.prop JS.assoc String.eqb Ascii.eqb Bool.eqb JS.truthy andb].
  f_equal. apply keyword_search. exists "connect". split; [simpl; tauto|].
  exists "Failed to re", "connect",
    (" after " ++ JS.string_of_Z maxAttempts ++ " attempts: "
     ++ JS.ToString (getErrorMessage e)).
  split; reflexivity.
Qed.

(** C1, as the code has it.  When the attempt of [executeWithReconnect],
    that is [ensureConnected] followed by the operation, fails with [e], and
    the configured error handler returns: the failure is the operation's,
    invoked once, or it is the report of exhaustion of [ensureConnected],
    which the classifier always finds recoverable, the operation not having
    been invoked.  If the classifier finds [e] recoverable, the state is
    forced to Disconnected, [disconnect(e)] is emitted and the call
    completes as [ensureConnected] followed by one invocation of the
    operation: when [ensureConnected] returns, the operation is invoked
    exactly once more and its outcome, result or failure, is the outcome
    of the call, unmodified; when it throws, its error is the outcome and
    the operation is not invoked.  If the classifier finds [e] not
    recoverable, [e] is thrown at once: no invocation, no event, no change
    of the connection state. *)
Theorem executeWithReconnect_retry_once
    (operationName : string) (s s1 : St) (e : JSVal) :
  let startTime := clock env (n_clock (calls s)) in
  let r := executeWithReconnect operationName s in
  (ensureConnected ;; call_operation) (snd (Date_now s)) = (inr e, s1) ->
  handler_returns s1 e ->
  ((exists sa,
       ensureConnected (snd (Date_now s)) = (inl tt, sa) /\
       operation env (n_operation (calls s)) = inr e /\
       n_operation (calls s1) = S (n_operation (calls s)))
   \/
   (ensureConnected (snd (Date_now s)) = (inr e, s1) /\
    n_operation (calls s1) = n_operation (calls s) /\
    isRetryableError e = inl true)) /\
  (isRetryableError e = inl true ->
   exists s2,
     r = (ensureConnected ;; call_operation) s2 /\
     connected (this s2) = false /\
     trace s2
       = (trace s1 ++ handler_actions operationName startTime s1 e
          ++ [Emit (Ev_disconnect e)])%list /\
     (forall s3,
         ensureConnected s2 = (inl tt, s3) ->
         fst r = operation env (n_operation (calls s1)) /\
         trace (snd r) = (trace s3 ++ [Operation])%list /\
         n_operation (calls (snd r)) = S (n_operation (calls s1))) /\
     (forall x s3,
         ensureConnected s2 = (inr x, s3) ->
         r = (inr x, s3) /\
         n_operation (calls (snd r)) = n_operation (calls s1))) /\
  (isRetryableError e = inl false ->
   fst r = inr e /\
   trace (snd r)
     = (trace s1 ++ handler_actions operationName startTime s1 e)%list /\
   n_operation (calls (snd r)) = n_operation (calls s1) /\
   connected (this (snd r)) = connected (this s1)).
Proof.
  intros startTime r Htry Hh. subst r.
  rewrite executeWithReconnect_unfold. cbv zeta. fold startTime.
  rewrite Htry.
  split; [|split].
  - (* where the failure comes from *)
    unfold bind in Htry.
    pose proof (ensureConnected_same_counters (snd (Date_now s)))
      as [Hop _].
    destruct (ensureConnected (snd (Date_now s))) as [[[]|x] sa] eqn:He.
    + left. exists sa. cbn [snd] in Hop.
      unfold call_operation in Htry. injection Htry as Hres Hs1.
      subst s1. simpl in Hop |- *. rewrite Hop in Hres |- *.
      repeat split. exact Hres.
    + right. injection Htry as -> ->. simpl in Hop.
      split; [reflexivity|]. split; [exact Hop|].
      apply ensureConnected_throws in He as [N [e' ->]].
      apply exhaustion_error_retryable.
  - (* recoverable *)
    intros Hr.
    destruct (on_failure_recoverable operationName startTime e s1 Hh Hr)
      as [s2 [Hrun [Hthis [Htrace Hop]]]].
    exists s2. split; [exact Hrun|]. split; [now rewrite Hthis|].
    split; [exact Htrace|]. rewrite Hrun. unfold bind.
    pose proof (ensureConnected_same_counters s2) as [Hop2 _].
    split.
    + intros s3 H3. rewrite H3 in *. cbn [snd] in Hop2.
      unfold call_operation.
      cbn [fst snd act with_calls trace calls tick_operation n_operation].
      rewrite Hop2, Hop. repeat split.
    + intros x s3 H3. rewrite H3 in *. cbn [snd] in Hop2.
      split; [reflexivity|]. cbn [snd]. now rewrite Hop2, Hop.
  - (* not recoverable *)
    intros Hr.
    destruct (on_failure_not_recoverable operationName startTime e s1 Hh Hr)
      as [Hfst [Hthis [Htrace Hop]]].
    split; [exact Hfst|]. split; [exact Htrace|]. split; [exact Hop|].
    now rewrite Hthis.
Qed.

(** C7, as the code has it.  When [ensureConnected] returns and the
    operation succeeds at its first invocation, [executeWithReconnect]
    returns its result, having added 1 to [queryCount] and left
    [errorCount] alone and then, if [autoGC] is set, having sampled the
    heap once and, on a sample that reaches the threshold (0.85 when the
    setting is 0), emitted [memory:high] and, where [global.gc] is exposed,
    collected and emitted [gc:executed].  With [autoGC] unset the heap is
    not sampled. *)
Theorem executeWithReconnect_first_try_success
    (operationName : string) (s s1 : St) (v : JSVal) :
  let r := executeWithReconnect operationName s in
  ensureConnected (snd (Date_now s)) = (inl tt, s1) ->
  operation env (n_operation (calls s)) = inl v ->
  fst r = inl v /\
  queryCount (this (snd r)) = queryCount (this s) + 1 /\
  errorCount (this (snd r)) = errorCount (this s) /\
  trace (snd r)
    = (trace s1 ++ [Operation] ++ memory_actions (n_heap (calls s)))%list /\
  n_heap (calls (snd r))
    = (n_heap (calls s) + if memory_autoGC cfg then 1 else 0)%nat /\
  n_operation (calls (snd r)) = S (n_operation (calls s)).
Proof.
  intros r He Hv. subst r.
  rewrite executeWithReconnect_unfold. cbv zeta. unfold bind.
  pose proof (ensureConnected_same_counters (snd (Date_now s)))
    as [Hop [_ [Hheap [Hq [Herr _]]]]].
  rewrite He in *. cbn [snd] in Hop, Hheap, Hq, Herr.
  cbn [Date_now snd with_calls calls this tick_clock n_operation n_heap]
    in Hop, Hheap, Hq, Herr.
  unfold call_operation. rewrite Hop, Hv.
  match goal with
  | |- context [record_success ?n ?t ?st] =>
      destruct (record_success_run n t st) as [_ [Hthis [Htrace [Hh' Hop']]]]
  end.
  cbn [fst snd]. rewrite Hthis, Htrace, Hh', Hop'.
  cbn [this trace calls act with_calls tick_operation n_heap n_operation
       queryCount errorCount set_queryCount].
  rewrite Hq, Herr, Hheap, Hop, <- app_assoc. repeat split.
Qed.

End Execute.

(* ================================================================== *)
(** ** Error counting, and the absence of a hard reset *)
(* ================================================================== *)

Section Escalation.

Context {cfg : Config} {env : Env}.

(** The [catch] block counts the error, whatever becomes of it. *)
Lemma on_failure_errorCount
    (operationName : string) (startTime : Z) (e : JSVal) (s1 : St) :
  errorCount (this (snd (on_failure operationName startTime e s1)))
  = errorCount (this s1) + 1.
Proof.
  unfold on_failure. unfold bind at 1 2 3 4. unfold gets at 1.
  unfold assign at 1. unfold Date_now at 1. unfold log at 1.
  cbn [fst snd this trace logged calls with_calls].
  set (s2 := {| this := set_errorCount (errorCount (this s1) + 1) (this s1);
                trace := trace s1;
                logged := _; calls := _ |}).
  assert (H2 : errorCount (this s2) = errorCount (this s1) + 1) by reflexivity.
  clearbody s2. rewrite <- H2. clear H2.
  assert (Hh : forall r : Outcome unit * St,
             errorCount (this (snd r)) = errorCount (this s2) ->
             errorCount
               (this (snd (let (o, s') := r in
                           match o with
                           | inl a =>
                               (retryable <- lift (isRetryableError e) ;;
                                if retryable then
                                  assign (set_connected false) ;;
                                  emit (Ev_disconnect e) ;;
                                  log warn Msg_ConnectionErrorDetected ;;
                                  ensureConnected ;;
                                  call_operation
                                else throw e) s'
                           | inr e0 => (inr e0, s')
                           end)))
             = errorCount (this s2)).
  { intros [[[]|x] s3] H3; cbn [snd] in *; [|exact H3].
    unfold bind at 1. unfold lift.
    destruct (isRetryableError e) as [[|]|x]; cbn [snd]; try exact H3.
    unfold bind at 1 2 3 4. unfold assign, emit, log.
    cbn [fst snd this trace logged calls act].
    match goal with
    | |- context [ensureConnected ?st] =>
        pose proof (ensureConnected_same_counters st) as [_ [_ [_ [_ [He _]]]]];
        destruct (ensureConnected st) as [[[]|x] s4]
    end; cbn [snd call_operation with_calls act this] in *;
      rewrite He; exact H3. }
  apply Hh.
  destruct (onError cfg) as [handler|]; [|reflexivity].
  unfold bind, gets, call_onError. cbn [fst snd].
  destruct (handler _ _ _); reflexivity.
Qed.

(** The attempt of [executeWithReconnect] counts no error. *)
Lemma attempt_errorCount (s : St) :
  errorCount
    (this (snd ((ensureConnected ;; call_operation) (snd (Date_now s)))))
  = errorCount (this s).
Proof.
  unfold bind.
  pose proof (ensureConnected_same_counters (snd (Date_now s)))
    as [_ [_ [_ [_ [He _]]]]].
  destruct (ensureConnected (snd (Date_now s))) as [[[]|x] sa];
    cbn [snd] in *; exact He.
Qed.

(** C5, as the code has it.  The manager keeps no count of consecutive
    errors, has no threshold for them and never resets a client: an
    execution that fails, whether the classifier finds the error
    recoverable or not, adds exactly 1 to [errorCount]; and after any
    sequence of calls on a manager constructed around the client [h], the
    manager still holds [h], every call of a primitive has gone to [h], so
    that no hard reset has taken place, and no event named "hard-reset"
    has been emitted. *)
Theorem no_consecutive_error_escalation :
  (forall operationName s x,
      fst (executeWithReconnect operationName s) = inr x ->
      errorCount (this (snd (executeWithReconnect operationName s)))
      = errorCount (this s) + 1) /\
  (forall (h : Handle) (l : list Call),
      let s := run_calls l (new_St h) in
      prisma (this s) = h /\
      (forall h', In h' (handles (trace s)) -> h' = h) /\
      hard_resets (trace s) = 0%nat /\
      (forall e, In e (emitted (trace s)) -> event_name e <> "hard-reset")).
Proof.
  split.
  - intros operationName s x.
    rewrite executeWithReconnect_unfold. cbv zeta.
    pose proof (attempt_errorCount s) as Ha.
    destruct ((ensureConnected ;; call_operation) (snd (Date_now s)))
      as [[v|e] s1]; cbn [snd] in Ha.
    + discriminate.
    + intros _. now rewrite on_failure_errorCount, Ha.
  - intros h l s.
    pose proof (run_calls_drives h l) as Hd. fold s in Hd.
    pose proof (drives_no_hard_reset h s Hd) as Hz.
    destruct Hd as [Hp Hh].
    split; [exact Hp|]. split; [exact Hh|]. split; [exact Hz|].
    intros e _. apply event_name_not_hard_reset.
Qed.

End Escalation.

(* ================================================================== *)
(** ** getConnectionStats *)
(* ================================================================== *)

Section Stats.

Context {cfg : Config} {env : Env}.

Lemma In_emitted_snoc (x : Event) (tr : list Action) (a : Action) :
  (forall e, a = Emit e -> e <> x) ->
  In x (emitted (tr ++ [a])) <-> In x (emitted tr).
Proof.
  intros Ha. rewrite emitted_app, in_app_iff. split; [|now left].
  intros [H|H]; [exact H|].
  destruct a; simpl in H; try contradiction.
  destruct H as [->|[]]. now destruct (Ha x eq_refl).
Qed.

Lemma connection_recorded_trace (s s' : St) :
  lastSuccessfulConnection (this s') = lastSuccessfulConnection (this s) ->
  (n_clock (calls s) <= n_clock (calls s'))%nat ->
  (In Ev_connect (emitted (trace s')) <-> In Ev_connect (emitted (trace s))) ->
  connection_recorded s -> connection_recorded s'.
Proof.
  intros Hthis Hclock Hin [H1 H2]. unfold connection_recorded.
  rewrite Hthis, Hin. split; [exact H1|].
  intros t Ht. destruct (H2 t Ht) as [k [Hk ->]]. exists k. split; [lia|auto].
Qed.

Lemma connection_recorded_assign (f : Manager -> Manager) (s : St) :
  (forall m, lastSuccessfulConnection (f m) = lastSuccessfulConnection m) ->
  connection_recorded s -> connection_recorded (snd (assign f s)).
Proof.
  intros Hf [H1 H2]. unfold connection_recorded.
  cbn [assign snd this trace calls]. rewrite Hf. split; assumption.
Qed.

Lemma reconnect_step_recorded (a b : St) :
  reconnect_step a b -> connection_recorded a -> connection_recorded b.
Proof.
  intros H Ha. destruct H.
  - (* connect *)
    destruct (prisma_connect env (n_connect (calls s))) as [e|] eqn:Hc.
    + rewrite (connect_rejects s e Hc). cbn [snd].
      destruct Ha as [H1 H2]. unfold connection_recorded.
      cbn [this trace calls lastSuccessfulConnection set_connected
           tick_connect n_clock].
      replace (trace s ++ [PrismaConnect (prisma (this s));
                           Emit (Ev_disconnect e)])%list
        with ((trace s ++ [PrismaConnect (prisma (this s))])
              ++ [Emit (Ev_disconnect e)])%list
        by now rewrite <- app_assoc.
      rewrite !In_emitted_snoc by (intros; subst; discriminate || congruence).
      split; assumption.
    + rewrite (connect_resolves s Hc). cbn [snd].
      unfold connection_recorded.
      cbn [this trace calls lastSuccessfulConnection set_connected
           set_lastSuccessfulConnection set_reconnectAttempts
           tick_connect tick_clock n_clock].
      split.
      * split; [discriminate|]. intros Hn. exfalso. apply Hn.
        rewrite emitted_app, in_app_iff. right. simpl. now left.
      * intros t Ht. injection Ht as <-.
        exists (n_clock (calls s)). split; [lia | reflexivity].
  - (* disconnect *)
    rewrite disconnect_run. cbn [snd].
    apply (connection_recorded_trace s); try assumption.
    + reflexivity.
    + cbn [calls tick_disconnect n_clock]. lia.
    + cbn [trace]. apply In_emitted_snoc. intros; discriminate.
  - now apply connection_recorded_assign.
  - now apply connection_recorded_assign.
  - apply (connection_recorded_trace s); try assumption.
    + reflexivity.
    + cbn [emit snd act calls]. lia.
    + cbn [emit snd act trace]. apply In_emitted_snoc. congruence.
  - apply (connection_recorded_trace s); try assumption.
    + reflexivity.
    + cbn [sleep snd act calls]. lia.
    + cbn [sleep snd act trace]. apply In_emitted_snoc. intros; discriminate.
  - apply (connection_recorded_trace s); try assumption.
    + reflexivity.
    + cbn [log snd calls]. lia.
    + reflexivity.
Qed.

Lemma manager_step_recorded (a b : St) :
  manager_step a b -> connection_recorded a -> connection_recorded b.
Proof.
  intros H Ha. destruct H;
    try (now apply connection_recorded_assign).
  - apply (connection_recorded_trace s); try assumption.
    + reflexivity.
    + cbn [call_operation snd with_calls act calls tick_operation n_clock].
      lia.
    + cbn [call_operation snd with_calls act trace].
      apply In_emitted_snoc. intros; discriminate.
  - apply (connection_recorded_trace s); try assumption;
      unfold call_onError; destruct (handler _ err context);
      cbn [snd with_calls act this trace calls tick_onError n_clock];
      try reflexivity; try lia;
      apply In_emitted_snoc; intros; discriminate.
  - apply (connection_recorded_trace s); try assumption.
    + reflexivity.
    + cbn [Date_now snd with_calls calls tick_clock n_clock]. lia.
    + reflexivity.
  - apply (connection_recorded_trace s); try assumption.
    + reflexivity.
    + cbn [getHeapUsagePercent snd with_calls calls tick_heap n_clock]. lia.
    + reflexivity.
  - apply (connection_recorded_trace s); try assumption;
      unfold triggerGC; destruct (global_gc env);
      cbn [snd act this trace calls]; try reflexivity; try lia.
    apply In_emitted_snoc. intros; discriminate.
  - now apply (reconnect_step_recorded s s').
Qed.

Lemma run_calls_recorded (h : Handle) (l : list Call) :
  connection_recorded (run_calls l (new_St h)).
Proof.
  apply (star_invariant manager_step connection_recorded) with (a := new_St h).
  - apply manager_step_recorded.
  - apply run_calls_steps.
  - split.
    + split; [intros _ [] | reflexivity].
    + intros t Ht. discriminate Ht.
Qed.

(** C10.  On a manager whose [lastSuccessfulConnection] is [null],
    [getConnectionStats] reports an uptime of 0 and a
    [lastSuccessfulConnection] of [null], without reading the clock; on a
    manager whose [lastSuccessfulConnection] is the instant [t], it reports
    that instant and, as uptime, the current time minus [t].  After any
    sequence of calls on a new manager, [lastSuccessfulConnection] is
    [null] exactly when no [connect] was ever emitted, that is when the
    manager never connected, and otherwise is an earlier reading of the
    clock. *)
Theorem getConnectionStats_uptime :
  (forall s,
      lastSuccessfulConnection (this s) = None ->
      exists stats,
        getConnectionStats s = (inl stats, s) /\
        stat_uptime stats = 0 /\
        stat_lastSuccessfulConnection stats = None) /\
  (forall s t,
      lastSuccessfulConnection (this s) = Some t ->
      exists stats,
        fst (getConnectionStats s) = inl stats /\
        stat_uptime stats = clock env (n_clock (calls s)) - t /\
        stat_lastSuccessfulConnection stats = Some t) /\
  (forall (h : Handle) (l : list Call),
      let s := run_calls l (new_St h) in
      (lastSuccessfulConnection (this s) = None <->
       ~ In Ev_connect (emitted (trace s))) /\
      (forall t, lastSuccessfulConnection (this s) = Some t ->
                 exists k, (k < n_clock (calls s))%nat /\ t = clock env k)).
Proof.
  split; [|split].
  - intros s H. unfold getConnectionStats. unfold_monad. rewrite H.
    eexists. split; [destruct s; reflexivity|]. split; [reflexivity|].
    cbn [stat_lastSuccessfulConnection]. exact H.
  - intros s t H. unfold getConnectionStats. unfold_monad. rewrite H.
    eexists. split; [reflexivity|]. split; [reflexivity|].
    cbn [stat_lastSuccessfulConnection this]. exact H.
  - intros h l s. apply run_calls_recorded.
Qed.

End Stats.

(* ================================================================== *)
(** ** The refresh tick *)
(* ================================================================== *)

Lemma same_but_age_fields (s1 s2 : St) :
  same_but_age s1 s2 ->
  trace s1 = trace s2 /\ logged s1 = logged s2 /\ calls s1 = calls s2 /\
  prisma (this s1) = prisma (this s2) /\
  connected (this s1) = connected (this s2) /\
  reconnectAttempts (this s1) = reconnectAttempts (this s2) /\
  totalReconnects (this s1) = totalReconnects (this s2) /\
  queryCount (this s1) = queryCount (this s2) /\
  errorCount (this s1) = errorCount (this s2) /\
  refreshTimer (this s1) = refreshTimer (this s2) /\
  healthCheckTimer (this s1) = healthCheckTimer (this s2).
Proof.
  unfold same_but_age, aged, set_lastSuccessfulConnection.
  intros H. injection H. intros. repeat split; assumption.
Qed.

Lemma same_but_age_intro (s1 s2 : St) :
  trace s1 = trace s2 -> logged s1 = logged s2 -> calls s1 = calls s2 ->
  prisma (this s1) = prisma (this s2) ->
  connected (this s1) = connected (this s2) ->
  reconnectAttempts (this s1) = reconnectAttempts (this s2) ->
  totalReconnects (this s1) = totalReconnects (this s2) ->
  queryCount (this s1) = queryCount (this s2) ->
  errorCount (this s1) = errorCount (this s2) ->
  refreshTimer (this s1) = refreshTimer (this s2) ->
  healthCheckTimer (this s1) = healthCheckTimer (this s2) ->
  same_but_age s1 s2.
Proof.
  unfold same_but_age, aged, set_lastSuccessfulConnection. intros.
  congruence.
Qed.

Ltac ageless_atom :=
  let s1 := fresh "s1" in
  let s2 := fresh "s2" in
  let H := fresh "H" in
  intros s1 s2 H;
  apply same_but_age_fields in H;
  destruct H as (Ht & Hl & Hc & Hp & Hco & Hra & Htr & Hq & He & Hrt & Hht);
  unfold_monad;
  cbn [fst snd this trace logged calls];
  rewrite ?Ht, ?Hl, ?Hc, ?Hp, ?Hco, ?Hra, ?Htr, ?Hq, ?He, ?Hrt, ?Hht;
  repeat match goal with
         | |- context [match ?x with _ => _ end] => destruct x
         end;
  (split; [reflexivity|]);
  apply same_but_age_intro;
  cbn [fst snd this trace logged calls prisma connected reconnectAttempts
       totalReconnects lastSuccessfulConnection queryCount errorCount
       refreshTimer healthCheckTimer set_connected set_reconnectAttempts
       set_totalReconnects set_lastSuccessfulConnection set_queryCount
       set_errorCount set_refreshTimer set_healthCheckTimer];
  congruence.

Section AgelessRules.

Lemma Ageless_ret {A : Type} (a : A) : Ageless (ret a).
Proof. intros s1 s2 H. split; [reflexivity | exact H]. Qed.

Lemma Ageless_throw {A : Type} (e : JSVal) : Ageless (@throw A e).
Proof. intros s1 s2 H. split; [reflexivity | exact H]. Qed.

Lemma Ageless_bind {A B : Type} (m : M A) (k : A -> M B) :
  Ageless m -> (forall a, Ageless (k a)) -> Ageless (bind m k).
Proof.
  intros Hm Hk s1 s2 H. unfold bind. destruct (Hm s1 s2 H) as [Hf Hs].
  destruct (m s1) as [[a|e] s1'], (m s2) as [[a'|e'] s2'];
    cbn [fst snd] in *; try discriminate Hf.
  - injection Hf as <-. now apply Hk.
  - injection Hf as <-. split; [reflexivity | assumption].
Qed.

Lemma Ageless_try_catch {A : Type} (m : M A) (handler : JSVal -> M A) :
  Ageless m -> (forall e, Ageless (handler e)) -> Ageless (try_catch m handler).
Proof.
  intros Hm Hh s1 s2 H. unfold try_catch. destruct (Hm s1 s2 H) as [Hf Hs].
  destruct (m s1) as [[a|e] s1'], (m s2) as [[a'|e'] s2'];
    cbn [fst snd] in *; try discriminate Hf.
  - split; assumption.
  - injection Hf as <-. now apply Hh.
Qed.

End AgelessRules.

Ltac ageless_all :=
  repeat match goal with
         | |- Ageless (ret _) => apply Ageless_ret
         | |- Ageless (throw _) => apply Ageless_throw
         | |- Ageless (bind _ _) => apply Ageless_bind
         | |- Ageless (try_catch _ _) => apply Ageless_try_catch
         | |- forall _, Ageless _ => intro
         | |- Ageless (if ?b then _ else _) => destruct b
         | |- Ageless (match ?x with _ => _ end) => destruct x
         end.

Section RefreshTick.

Context {cfg : Config} {env : Env}.

Lemma Ageless_connect : Ageless connect.
Proof. unfold connect. ageless_all; ageless_atom. Qed.

Lemma Ageless_disconnect : Ageless disconnect.
Proof. unfold disconnect. ageless_all; ageless_atom. Qed.

Lemma Ageless_reconnect_attempt (maxAttempts attempt : Z) :
  Ageless (reconnect_attempt maxAttempts attempt).
Proof.
  unfold reconnect_attempt. ageless_all;
    try apply Ageless_connect; try apply Ageless_disconnect; ageless_atom.
Qed.

Lemma Ageless_reconnect_loop (fuel : nat) (maxAttempts attempt : Z) :
  Ageless (reconnect_loop fuel maxAttempts attempt).
Proof.
  revert attempt. induction fuel as [|fuel IH]; intros attempt; simpl.
  - apply Ageless_ret.
  - destruct (attempt <=? maxAttempts); [|apply Ageless_ret].
    apply Ageless_bind; [apply Ageless_reconnect_attempt|].
    intros [|]; [apply Ageless_ret | apply IH].
Qed.

Lemma Ageless_ensureConnected : Ageless ensureConnected.
Proof.
  unfold ensureConnected. ageless_all;
    try apply Ageless_reconnect_loop; ageless_atom.
Qed.

Lemma Ageless_refreshTick : Ageless refreshTick.
Proof.
  unfold refreshTick. ageless_all;
    try apply Ageless_ensureConnected; try apply Ageless_disconnect;
    ageless_atom.
Qed.

Lemma reconnect_step_extends (a b : St) :
  reconnect_step a b -> exists tr, trace b = (trace a ++ tr)%list.
Proof.
  intros H. destruct H.
  - destruct (connect_effect s) as [ev [Ht _]]. rewrite Ht. eauto.
  - rewrite disconnect_run. cbn [snd trace]. eauto.
  - exists []. now rewrite app_nil_r.
  - exists []. now rewrite app_nil_r.
  - cbn [emit snd act trace]. eauto.
  - cbn [sleep snd act trace]. eauto.
  - exists []. now rewrite app_nil_r.
Qed.

Lemma ensureConnected_extends (s : St) :
  exists tr, trace (snd (ensureConnected s)) = (trace s ++ tr)%list.
Proof.
  apply (star_invariant reconnect_step
           (fun b => exists tr, trace b = (trace s ++ tr)%list)) with (a := s).
  - intros a b Hab [tr Ha].
    destruct (reconnect_step_extends a b Hab) as [tr' Hb].
    exists (tr ++ tr')%list. now rewrite Hb, Ha, app_assoc.
  - apply ensureConnected_steps.
  - exists []. now rewrite app_nil_r.
Qed.

Lemma manager_step_prisma (a b : St) :
  manager_step a b -> prisma (this b) = prisma (this a).
Proof.
  intros H. destruct H; try reflexivity.
  - unfold call_onError. destruct (handler _ err context); reflexivity.
  - unfold triggerGC. destruct (global_gc env); reflexivity.
  - now apply reconnect_step_same_counters.
Qed.

(** The tick by the outcome of the forced disconnect and reconnection. *)
Lemma refreshTick_unfold (s : St) :
  refreshTick s
  = match (assign (set_connected false) ;; disconnect ;; ensureConnected)
            (snd (log debug Msg_PeriodicRefresh s)) with
    | (inl _, s') => (inl tt, snd (log info Msg_Refreshed s'))
    | (inr e, s') =>
        (inl tt,
         snd (assign (set_connected false)
                (snd (log error (Msg_FailedToRefresh e) s'))))
    end.
Proof.
  unfold refreshTick, bind, try_catch.
  cbn [log assign fst snd this trace logged calls].
  rewrite disconnect_run.
  match goal with
  | |- context [ensureConnected ?st] =>
      destruct (ensureConnected st) as [[[]|x] s']
  end; reflexivity.
Qed.

(** C6, as the code has it.  A tick of the refresh timer never throws and
    is a plain refresh: the state is forced to Disconnected, the primitive
    [$disconnect] is called, and [ensureConnected] runs; when it throws, the
    error is logged and the state is left Disconnected.  The tick consults
    no connection age: started from a state with any other instant of last
    connection, it returns as well and does the same actions.  It keeps the
    client of the manager, so that it performs no hard reset. *)
Theorem refreshTick_plain_refresh (s : St) :
  let r := refreshTick s in
  let plain :=
    (assign (set_connected false) ;; disconnect ;; ensureConnected)
      (snd (log debug Msg_PeriodicRefresh s)) in
  fst r = inl tt /\
  trace (snd r) = trace (snd plain) /\
  (exists tr,
      trace (snd r)
      = (trace s ++ PrismaDisconnect (prisma (this s)) :: tr)%list) /\
  (fst plain = inl tt -> this (snd r) = this (snd plain)) /\
  (forall x, fst plain = inr x ->
             this (snd r) = set_connected false (this (snd plain)) /\
             logged (snd r)
             = (logged (snd plain)
                ++ log_lines error (Msg_FailedToRefresh x))%list) /\
  prisma (this (snd r)) = prisma (this s) /\
  (forall h, drives h s -> hard_resets (trace (snd r)) = 0%nat) /\
  (forall t,
      fst (refreshTick (aged t s)) = inl tt /\
      trace (snd (refreshTick (aged t s))) = trace (snd r)).
Proof.
  intros r plain.
  assert (Hd : forall h, drives h s -> drives h (snd r)).
  { intros h Hs.
    apply (star_invariant manager_step (drives h)) with (a := s).
    - intros a b. apply manager_step_drives.
    - apply refreshTick_steps.
    - exact Hs. }
  assert (Hfst : forall s0, fst (refreshTick s0) = inl tt).
  { intros s0. rewrite refreshTick_unfold.
    destruct ((assign (set_connected false) ;; disconnect ;; ensureConnected)
                (snd (log debug Msg_PeriodicRefresh s0))) as [[[]|x] s'];
      reflexivity. }
  split; [apply Hfst|].
  assert (Hplain : exists tr,
             trace (snd plain)
             = (trace s ++ PrismaDisconnect (prisma (this s)) :: tr)%list).
  { subst plain. unfold bind at 1 2. cbn [assign log fst snd].
    rewrite disconnect_run. cbn [fst snd].
    match goal with
    | |- context [ensureConnected ?st] =>
        destruct (ensureConnected_extends st) as [tr Htr]
    end.
    exists tr. rewrite Htr. cbn [trace this prisma set_connected].
    now rewrite <- app_assoc. }
  assert (Hrun : trace (snd r) = trace (snd plain) /\
                 (fst plain = inl tt -> this (snd r) = this (snd plain)) /\
                 (forall x, fst plain = inr x ->
                            this (snd r)
                            = set_connected false (this (snd plain)) /\
                            logged (snd r)
                            = (logged (snd plain)
                               ++ log_lines error
                                    (Msg_FailedToRefresh x))%list)).
  { subst r. rewrite refreshTick_unfold. fold plain.
    destruct plain as [[[]|x] s'];
      cbn [fst snd log assign this trace logged].
    - split; [reflexivity|]. split; [reflexivity|]. intros y Hy.
      discriminate Hy.
    - split; [reflexivity|]. split; [intros Hy; discriminate Hy|].
      intros y Hy. injection Hy as <-. split; reflexivity. }
  destruct Hrun as [H2 [H4 H5]].
  split; [exact H2|]. split; [now rewrite H2|].
  split; [exact H4|]. split; [exact H5|].
  split.
  { apply (star_invariant manager_step
             (fun b => prisma (this b) = prisma (this s))) with (a := s).
    - intros a b Hab Ha. rewrite <- Ha. now apply manager_step_prisma.
    - apply refreshTick_steps.
    - reflexivity. }
  split.
  { intros h Hs. apply (drives_no_hard_reset h). now apply Hd. }
  intros t. split; [apply Hfst|].
  assert (Hsame : same_but_age (aged t s) s) by reflexivity.
  destruct (Ageless_refreshTick _ _ Hsame) as [_ Hs].
  now apply same_but_age_fields in Hs as [Ht _].
Qed.

End RefreshTick.

(* ================================================================== *)
(** ** The claims on concrete runs *)
(* ================================================================== *)

Import Scenario.

Lemma ensureConnected_exhausted_witness :
  exists e,
    prisma_connect env_unreachable 2 = Some e /\
    fst (@ensureConnected DEFAULT_CONFIG env_unreachable (new_St 1%nat))
    = inr (JS.new_Error (reconnect_failed_message 3 e)) /\
    connected
      (this (snd (@ensureConnected DEFAULT_CONFIG env_unreachable
                    (new_St 1%nat))))
    = false.
Proof.
  destruct (@ensureConnected_exhausted DEFAULT_CONFIG env_unreachable
              (new_St 1%nat))
    as [e [tr [He H]]].
  - simpl. lia.
  - reflexivity.
  - intros k _. simpl. discriminate.
  - exists e. split; [exact He|]. split; apply H.
Defined.

(** C1 fails on this run.  The manager is constructed while the database is
    down.  The first operation then finds it Disconnected: the
    reconnection is exhausted, its report is classified recoverable, the
    second reconnection succeeds, and the operation, invoked for the first
    time, fails with P1001, which the classifier finds recoverable.  That
    failure is thrown as it is: the operation is invoked once and not
    retried, the state stays Connected, and no [disconnect] is emitted for
    P1001.  On a second run the manager is Connected and configured with an
    error handler that throws: the operation fails with P1001, the error of
    the handler is what the call throws, and again the operation is not
    retried, the state stays Connected and no [disconnect] is emitted. *)
Lemma retry_once_counterexample :
  (let s := constructed DEFAULT_CONFIG env_late in
   let r := @executeWithReconnect DEFAULT_CONFIG env_late "user.findMany" s in
   operation env_late 0 = inr P1001_error /\
   isRetryableError P1001_error = inl true /\
   fst r = inr P1001_error /\
   n_operation (calls (snd r)) = 1%nat /\
   connected (this (snd r)) = true /\
   emitted (trace (snd r))
   = [Ev_disconnect ECONNREFUSED_error;
      Ev_reconnect 1; Ev_disconnect ECONNREFUSED_error;
      Ev_reconnect 2; Ev_disconnect ECONNREFUSED_error;
      Ev_reconnect 3; Ev_disconnect ECONNREFUSED_error;
      Ev_reconnect_failed ECONNREFUSED_error;
      Ev_disconnect exhaustion_error;
      Ev_reconnect 1; Ev_connect; Ev_reconnect_success]) /\
  (let s := constructed cfg_throwing_handler env_retry in
   let r :=
     @executeWithReconnect cfg_throwing_handler env_retry "user.findMany" s in
   operation env_retry 0 = inr P1001_error /\
   fst r = inr handler_error /\
   n_operation (calls (snd r)) = 1%nat /\
   connected (this (snd r)) = true /\
   emitted (trace (snd r)) = [Ev_connect]).
Proof. vm_compute. repeat split. Qed.

Lemma executeWithReconnect_retry_once_witness :
  let s := constructed DEFAULT_CONFIG env_retry in
  let r := @executeWithReconnect DEFAULT_CONFIG env_retry "user.findMany" s in
  exists s2,
    r = bind (@ensureConnected DEFAULT_CONFIG env_retry)
             (fun _ => @call_operation env_retry) s2 /\
    connected (this s2) = false.
Proof.
  intros s r.
  destruct (@executeWithReconnect_retry_once DEFAULT_CONFIG env_retry
              "user.findMany" s
              (snd (bind (@ensureConnected DEFAULT_CONFIG env_retry)
                         (fun _ => @call_operation env_retry)
                         (snd (@Date_now env_retry s))))
              P1001_error)
    as [_ [H _]].
  - reflexivity.
  - intros handler Hh. discriminate Hh.
  - destruct (H eq_refl) as [s2 [Hr [Hc _]]].
    exists s2. split; [exact Hr | exact Hc].
Defined.

(** C7 fails on these runs.  On the first one the operation fails with
    P1001 and succeeds when it is retried after the reconnection: the
    result is returned, but no query is counted and the heap, 90% full, is
    not sampled: nothing follows the second invocation.  On the second one
    the operation succeeds at once with [autoGC] unset: the query is
    counted, and the heap, 90% full, is not sampled either. *)
Lemma success_recording_counterexample :
  (let s := constructed DEFAULT_CONFIG env_retry in
   let r := @executeWithReconnect DEFAULT_CONFIG env_retry "user.findMany" s in
   fst r = inl rows /\
   queryCount (this (snd r)) = queryCount (this s) /\
   n_heap (calls (snd r)) = 0%nat /\
   trace (snd r)
   = [PrismaConnect 1%nat; Emit Ev_connect; Operation;
      Emit (Ev_disconnect P1001_error);
      Emit (Ev_reconnect 1); PrismaDisconnect 1%nat; Sleep (Double.of_Z 1000);
      PrismaConnect 1%nat; Emit Ev_connect; Emit Ev_reconnect_success;
      Operation]) /\
  (let s := constructed cfg_noGC env_old in
   let r := @executeWithReconnect cfg_noGC env_old "user.findMany" s in
   fst r = inl rows /\
   queryCount (this (snd r)) = queryCount (this s) + 1 /\
   Qle_bool (gcThreshold_or_default (memory_gcThreshold cfg_noGC))
            (heapUsagePercent env_old 0) = true /\
   n_heap (calls (snd r)) = 0%nat /\
   trace (snd r) = [PrismaConnect 1%nat; Emit Ev_connect; Operation]).
Proof. vm_compute. repeat split. Qed.

Lemma executeWithReconnect_first_try_success_witness :
  let s := constructed DEFAULT_CONFIG env_old in
  let r := @executeWithReconnect DEFAULT_CONFIG env_old "user.findMany" s in
  fst r = inl rows /\
  queryCount (this (snd r)) = queryCount (this s) + 1 /\
  trace (snd r)
  = [PrismaConnect 1%nat; Emit Ev_connect; Operation;
     Emit (Ev_memory_high ((9 # 10) * 100)%Q); GlobalGC; Emit Ev_gc_executed].
Proof.
  intros s r.
  destruct (@executeWithReconnect_first_try_success DEFAULT_CONFIG env_old
              "user.findMany" s (snd (@Date_now env_old s)) rows)
    as [H1 [H2 [_ [H4 _]]]].
  - reflexivity.
  - reflexivity.
  - split; [exact H1|]. split; [exact H2|]. exact H4.
Defined.

(** C5 fails on this run.  After the first connection the database goes
    down.  Three operations in a row fail with errors that the classifier
    finds recoverable, each after an exhausted reconnection.  The three
    errors are counted, the manager still holds the client it was
    constructed with, every call of a primitive went to that client: there
    has been no hard reset, where the claim has exactly one. *)
Lemma consecutive_errors_counterexample :
  let s0 := constructed DEFAULT_CONFIG env_down in
  let r1 := @executeWithReconnect DEFAULT_CONFIG env_down "a" s0 in
  let r2 := @executeWithReconnect DEFAULT_CONFIG env_down "b" (snd r1) in
  let r3 := @executeWithReconnect DEFAULT_CONFIG env_down "c" (snd r2) in
  fst r1 = inr exhaustion_error /\
  fst r2 = inr exhaustion_error /\
  fst r3 = inr exhaustion_error /\
  isRetryableError P1001_error = inl true /\
  isRetryableError exhaustion_error = inl true /\
  errorCount (this (snd r3)) = 3 /\
  prisma (this (snd r3)) = prisma (this s0) /\
  handles (trace (snd r3)) = repeat 1%nat 31 /\
  hard_resets (trace (snd r3)) = 0%nat /\
  hard_resets (trace (snd r3)) <> 1%nat.
Proof. vm_compute. repeat split. discriminate. Qed.

(** C6 fails on this run.  The manager connected at time 0; the timer ticks
    when the clock reads 70 000 000 ms, an age above 18 hours.  The tick
    is a plain refresh: it disconnects and reconnects the client that the
    manager holds; there is no hard reset. *)
Lemma connection_age_counterexample :
  let s := constructed DEFAULT_CONFIG env_old in
  let r := @refreshTick DEFAULT_CONFIG env_old s in
  lastSuccessfulConnection (this s) = Some 0 /\
  eighteen_hours <= clock env_old (n_clock (calls s)) - 0 /\
  fst r = inl tt /\
  trace (snd r)
  = (trace s
     ++ [PrismaDisconnect 1%nat;
         Emit (Ev_reconnect 1); PrismaDisconnect 1%nat; Sleep (Double.of_Z 1000);
         PrismaConnect 1%nat; Emit Ev_connect; Emit Ev_reconnect_success])%list /\
  prisma (this (snd r)) = prisma (this s) /\
  hard_resets (trace (snd r)) = 0%nat /\
  hard_resets (trace (snd r)) <> 1%nat.
Proof. vm_compute. repeat split; discriminate. Qed.

(* ================================================================== *)
(** ** More on the utilities *)
(* ================================================================== *)

Lemma exact_inputs_earlier
    (n m initialDelay : Z) (strategy : BackoffStrategy) :
  1 <= n -> n <= m ->
  exact_inputs m initialDelay strategy ->
  exact_inputs n initialDelay strategy.
Proof.
  intros Hn Hnm. destruct strategy; cbn [exact_inputs];
    unfold Double.isSafeInteger; intros [H1 H2].
  - split; [lia|]. rewrite Z.abs_mul in *. nia.
  - split; [lia|]. rewrite Z.abs_mul in *.
    assert (0 < 2 ^ (n - 1)) by (apply Z.pow_pos_nonneg; lia).
    assert (2 ^ (n - 1) <= 2 ^ (m - 1)) by (apply Z.pow_le_mono_r; lia).
    nia.
Qed.

Lemma exact_inputs_linear (n initialDelay : Z) :
  1 <= n ->
  exact_inputs n initialDelay exponential ->
  exact_inputs n initialDelay linear.
Proof.
  intros Hn. cbn [exact_inputs]. unfold Double.isSafeInteger.
  intros [H1 H2].
  pose proof (Z.pow_gt_lin_r 2 (n - 1) ltac:(lia) ltac:(lia)).
  split; [lia|]. rewrite Z.abs_mul in *. nia.
Qed.

Lemma uncapped_le
    (n m initialDelay : Z) (strategy : BackoffStrategy) :
  0 <= initialDelay -> 1 <= n -> n <= m ->
  match strategy with
  | exponential => initialDelay * 2 ^ (n - 1)
  | linear => initialDelay * n
  end
  <= match strategy with
     | exponential => initialDelay * 2 ^ (m - 1)
     | linear => initialDelay * m
     end.
Proof.
  intros Hi Hn Hnm. destruct strategy.
  - apply Z.mul_le_mono_nonneg_l; lia.
  - apply Z.mul_le_mono_nonneg_l; [lia|].
    apply Z.pow_le_mono_r; lia.
Qed.

Lemma exact_inputs_safe
    (n initialDelay maxDelay : Z) (strategy : BackoffStrategy) :
  Double.isSafeInteger maxDelay ->
  exact_inputs n initialDelay strategy ->
  Double.isSafeInteger
    (Z.min (match strategy with
            | exponential => initialDelay * 2 ^ (n - 1)
            | linear => initialDelay * n
            end) maxDelay).
Proof.
  intros Hm Hx.
  assert (Hu : Double.isSafeInteger
                 (match strategy with
                  | exponential => initialDelay * 2 ^ (n - 1)
                  | linear => initialDelay * n
                  end))
    by (destruct strategy; apply Hx).
  unfold Double.isSafeInteger in *. lia.
Qed.

(** Whatever the numbers, from attempt 1 on a delay whose [initialDelay] is
    not 0 is a number and does not exceed [maxDelay]. *)
Lemma calculateBackoff_cap
    (n initialDelay maxDelay : Z) (strategy : BackoffStrategy) :
  1 <= n -> initialDelay <> 0 ->
  Double.leb
    (calculateBackoff n (Double.of_Z initialDelay) (Double.of_Z maxDelay)
                      strategy)
    (Double.of_Z maxDelay) = true.
Proof.
  intros Hn Hi. unfold calculateBackoff.
  apply Math_min_leb; [|apply of_Z_number].
  destruct strategy; apply mul_nonzero;
    try (apply of_Z_nonzero; lia).
  apply Math_pow_2_nonzero. lia.
Qed.

(** In the range where the delays are exact: the delays never decrease
    from one attempt to the next, and the exponential delay is never below
    the linear one. *)
Theorem calculateBackoff_monotone
    (n m initialDelay maxDelay : Z) (strategy : BackoffStrategy) :
  0 <= initialDelay -> 1 <= n -> n <= m ->
  Double.isSafeInteger maxDelay ->
  exact_inputs m initialDelay strategy ->
  Double.leb
    (calculateBackoff n (Double.of_Z initialDelay) (Double.of_Z maxDelay)
                      strategy)
    (calculateBackoff m (Double.of_Z initialDelay) (Double.of_Z maxDelay)
                      strategy) = true /\
  (exact_inputs n initialDelay exponential ->
   Double.leb
     (calculateBackoff n (Double.of_Z initialDelay) (Double.of_Z maxDelay)
                       linear)
     (calculateBackoff n (Double.of_Z initialDelay) (Double.of_Z maxDelay)
                       exponential) = true).
Proof.
  intros Hi Hn Hnm Hmax Hx. split.
  - pose proof (exact_inputs_earlier n m initialDelay strategy Hn Hnm Hx)
      as Hx'.
    rewrite !calculateBackoff_exact by (assumption || lia).
    rewrite leb_of_Z by (apply exact_inputs_safe; assumption).
    pose proof (uncapped_le n m initialDelay strategy Hi Hn Hnm).
    apply Z.leb_le. lia.
  - intros He. pose proof (exact_inputs_linear n initialDelay Hn He) as Hl.
    rewrite !calculateBackoff_exact by assumption.
    rewrite leb_of_Z
      by (apply (exact_inputs_safe n initialDelay maxDelay linear)
          || apply (exact_inputs_safe n initialDelay maxDelay exponential);
          assumption).
    pose proof (Z.pow_gt_lin_r 2 (n - 1) ltac:(lia) ltac:(lia)).
    apply Z.leb_le. nia.
Qed.

Lemma calculateBackoff_monotone_witness :
  Double.leb
    (calculateBackoff 2 (Double.of_Z 1000) (Double.of_Z 10000) exponential)
    (calculateBackoff 5 (Double.of_Z 1000) (Double.of_Z 10000) exponential)
  = true /\
  Double.leb
    (calculateBackoff 2 (Double.of_Z 1000) (Double.of_Z 10000) linear)
    (calculateBackoff 2 (Double.of_Z 1000) (Double.of_Z 10000) exponential)
  = true.
Proof.
  destruct (calculateBackoff_monotone 2 5 1000 10000 exponential)
    as [H1 H2];
    [lia | lia | lia | reflexivity | split; [lia | reflexivity] |].
  split; [exact H1 | apply H2; split; [lia | reflexivity]].
Defined.

(** In the range where the delays are exact, once the cap is reached it
    stays: from the first attempt whose delay is [maxDelay] on, every
    later attempt waits exactly [maxDelay]. *)
Theorem calculateBackoff_capped_stays
    (n m initialDelay maxDelay : Z) (strategy : BackoffStrategy) :
  0 <= initialDelay -> 1 <= n -> n <= m ->
  Double.isSafeInteger maxDelay ->
  exact_inputs m initialDelay strategy ->
  calculateBackoff n (Double.of_Z initialDelay) (Double.of_Z maxDelay)
                   strategy
  = Double.of_Z maxDelay ->
  calculateBackoff m (Double.of_Z initialDelay) (Double.of_Z maxDelay)
                   strategy
  = Double.of_Z maxDelay.
Proof.
  intros Hi Hn Hnm Hmax Hx Hcap.
  pose proof (exact_inputs_earlier n m initialDelay strategy Hn Hnm Hx)
    as Hx'.
  rewrite calculateBackoff_exact in Hcap by assumption.
  apply of_Z_inj in Hcap;
    [|apply exact_inputs_safe; assumption | assumption].
  rewrite calculateBackoff_exact by (assumption || lia).
  pose proof (uncapped_le n m initialDelay strategy Hi Hn Hnm).
  f_equal. lia.
Qed.

Lemma calculateBackoff_capped_stays_witness :
  calculateBackoff 7 (Double.of_Z 1000) (Double.of_Z 10000) exponential
  = Double.of_Z 10000.
Proof.
  apply (calculateBackoff_capped_stays 5 7 1000 10000 exponential);
    [lia | lia | lia | reflexivity | split; [lia | reflexivity]
     | reflexivity].
Defined.

Lemma isConnectionError_throws (v e : JSVal) :
  isConnectionError v = inr e <->
  (exists isError fields, v = JObj isError fields) /\
  code_decides v = false /\
  lowerable (JS.prop v "message") = false /\
  message_toLowerCase (JS.prop v "message") = inr e.
Proof.
  split.
  - intros H. destruct v as [| |b|n| |s|isError fields];
      try (rewrite isConnectionError_not_object in H by reflexivity);
      try discriminate H.
    rewrite isConnectionError_object in H. cbv zeta in H.
    fold (code_decides (JObj isError fields)) in H.
    destruct (code_decides (JObj isError fields)); [discriminate H|].
    split; [eauto|]. split; [reflexivity|].
    destruct (JS.prop (JObj isError fields) "message");
      try discriminate H; injection H as <-; split; reflexivity.
  - intros [[isError [fields ->]] [Hc [Hm He]]].
    rewrite isConnectionError_object. cbv zeta.
    fold (code_decides (JObj isError fields)). rewrite Hc.
    destruct (JS.prop (JObj isError fields) "message");
      try discriminate Hm; cbn [message_toLowerCase] in He;
      injection He as <-; reflexivity.
Qed.

(** The classifier throws exactly on the objects whose [code] does not
    decide, that is, is not one of the four listed codes, and whose
    [message] is neither nullish nor a string; what it throws is what the
    call of the missing [toLowerCase] raises, an [Error] instance.  So
    [{code: "P2002", message: 42}] makes it throw, while an object with
    one of the four codes is classified whatever its message. *)
Theorem isConnectionError_throws_iff (v : JSVal) :
  ((exists e, isConnectionError v = inr e) <->
   (exists isError fields, v = JObj isError fields) /\
   code_decides v = false /\
   lowerable (JS.prop v "message") = false) /\
  (code_decides v = true <->
   exists code,
     JS.prop v "code" = JStr code /\ In code CONNECTION_ERROR_CODES) /\
  (forall e,
      isConnectionError v = inr e ->
      message_toLowerCase (JS.prop v "message") = inr e /\
      JS.instanceof_Error e = true) /\
  (exists e,
      isConnectionError
        (JObj false [("code", JStr "P2002"); ("message", JNum 42)])
      = inr e) /\
  isConnectionError
    (JObj false [("code", JStr "P1001"); ("message", JNum 42)])
  = inl true.
Proof.
  split; [|split; [|split; [|split]]].
  - split.
    + intros [e H]. apply isConnectionError_throws in H.
      destruct H as [Ho [Hc [Hm _]]]. auto.
    + intros [Ho [Hc Hm]].
      destruct (message_toLowerCase (JS.prop v "message")) as [x|e] eqn:E.
      * destruct (JS.prop v "message"); discriminate.
      * exists e. apply isConnectionError_throws. auto.
  - unfold code_decides. split.
    + intros H. apply andb_prop in H as [_ H].
      destruct (JS.prop v "code") as [| |b|n| |code|isError fields];
        try discriminate H.
      exists code. split; [reflexivity|].
      now apply existsb_eqb_In.
    + intros [code [-> Hin]].
      rewrite (codes_truthy code Hin). cbn [andb JS.array_includes].
      now apply existsb_eqb_In.
  - intros e H. apply isConnectionError_throws in H.
    destruct H as [_ [_ [_ He]]]. split; [exact He|].
    destruct (JS.prop v "message"); try discriminate He;
      injection He as <-; reflexivity.
  - eexists. reflexivity.
  - reflexivity.
Qed.

(** The classifier looks at the message up to letter case only: two
    objects with the same [code] whose messages are strings that differ in
    case only are classified alike. *)
Theorem isConnectionError_case_insensitive
    (isError isError' : bool) (fields fields' : list (string * JSVal))
    (m m' : string) :
  JS.prop (JObj isError fields) "code" = JS.prop (JObj isError' fields') "code" ->
  JS.prop (JObj isError fields) "message" = JStr m ->
  JS.prop (JObj isError' fields') "message" = JStr m' ->
  JS.toLowerCase m = JS.toLowerCase m' ->
  isConnectionError (JObj isError fields)
  = isConnectionError (JObj isError' fields').
Proof.
  intros Hc Hm Hm' Hl. rewrite !isConnectionError_object. cbv zeta.
  now rewrite Hc, Hm, Hm', Hl.
Qed.

Lemma isConnectionError_case_insensitive_witness :
  isConnectionError (JObj true [("message", JStr "Socket HANG UP")])
  = isConnectionError (JObj false [("message", JStr "socket hang up")]).
Proof.
  apply (isConnectionError_case_insensitive true false _ _
           "Socket HANG UP" "socket hang up"); reflexivity.
Defined.

(** [getErrorMessage] answers "Unknown error" on every falsy value, the
    empty string, 0, NaN and [false] included; on a value that is not an
    [Error] instance its answer is a string, the value itself when it is a
    non-empty string; on an [Error] instance it hands back the [message]
    property untouched, whatever it holds. *)
Theorem getErrorMessage_cases :
  (forall v, JS.truthy v = false -> getErrorMessage v = JStr "Unknown error") /\
  (forall v, JS.instanceof_Error v = false ->
             exists s, getErrorMessage v = JStr s) /\
  (forall s, s <> "" -> getErrorMessage (JStr s) = JStr s) /\
  (forall fields,
      getErrorMessage (JObj true fields) = JS.prop (JObj true fields) "message") /\
  (forall fields m,
      JS.assoc "message" fields = Some m ->
      getErrorMessage (JObj false fields) = JStr (JS.ToString m)) /\
  (forall fields,
      JS.assoc "message" fields = None ->
      getErrorMessage (JObj false fields) = JStr "[object Object]").
Proof.
  split; [|split; [|split; [|split; [|split]]]].
  - intros v Hv. unfold getErrorMessage. now rewrite Hv.
  - intros v Hv. unfold getErrorMessage.
    destruct (JS.truthy v) eqn:Ht; cbn [negb]; [|eauto].
    destruct v as [| |b|n| |s|isError fields]; try discriminate Ht;
      try (eexists; reflexivity).
    cbn [JS.instanceof_Error] in Hv. subst isError.
    cbn [JS.instanceof_Error].
    destruct (JS.typeof_object (JObj false fields)
              && JS.has_prop (JObj false fields) "message")%bool; eauto.
  - intros s Hs. unfold getErrorMessage. cbn [JS.truthy].
    destruct (String.eqb_spec s ""); [contradiction | reflexivity].
  - reflexivity.
  - intros fields m Hm. unfold getErrorMessage.
    cbn [JS.truthy negb JS.instanceof_Error JS.typeof_object JS.has_prop
         JS.prop andb]. now rewrite Hm.
  - intros fields Hm. unfold getErrorMessage.
    cbn [JS.truthy negb JS.instanceof_Error JS.typeof_object JS.has_prop
         JS.prop andb]. now rewrite Hm.
Qed.

(* ================================================================== *)
(** ** More on ensureConnected *)
(* ================================================================== *)

Lemma sleeps_app (a b : list Action) :
  sleeps (a ++ b) = (sleeps a ++ sleeps b)%list.
Proof. apply flat_map_app. Qed.

Section MoreEnsureConnected.

Context {cfg : Config} {env : Env}.

(** One turn of the loop, whatever the connect attempt gives. *)
Lemma reconnect_attempt_sleeps (maxAttempts attempt : Z) (s : St) :
  sleeps (trace (snd (reconnect_attempt maxAttempts attempt s)))
  = (sleeps (trace s) ++ [reconnect_delay attempt])%list.
Proof.
  destruct (prisma_connect env (n_connect (calls s))) as [e|] eqn:Hc.
  - destruct (reconnect_attempt_rejects maxAttempts attempt s e Hc)
      as [_ [_ [Ht _]]].
    rewrite Ht, !sleeps_app. destruct (attempt =? maxAttempts);
      simpl; rewrite ?app_nil_r; reflexivity.
  - destruct (reconnect_attempt_resolves maxAttempts attempt s Hc)
      as [_ [_ [Ht _]]].
    rewrite Ht, !sleeps_app. simpl. rewrite ?app_nil_r. reflexivity.
Qed.

Lemma reconnect_loop_sleeps (fuel : nat) :
  forall (maxAttempts attempt : Z) (s : St),
  exists k,
    (k <= fuel)%nat /\
    sleeps (trace (snd (reconnect_loop fuel maxAttempts attempt s)))
    = (sleeps (trace s)
       ++ map (fun i => reconnect_delay (attempt + Z.of_nat i)) (seq 0 k))%list.
Proof.
  induction fuel as [|fuel IH]; intros maxAttempts attempt s.
  - exists 0%nat. split; [lia|]. simpl. now rewrite app_nil_r.
  - cbn [reconnect_loop].
    destruct (attempt <=? maxAttempts).
    2:{ exists 0%nat. split; [lia|]. simpl. now rewrite app_nil_r. }
    unfold bind.
    pose proof (reconnect_attempt_sleeps maxAttempts attempt s) as Hs.
    destruct (reconnect_attempt maxAttempts attempt s) as [[[]|x] s1];
      cbn [snd] in Hs.
    + exists 1%nat. split; [lia|]. cbn [snd ret]. rewrite Hs. simpl.
      now rewrite Z.add_0_r.
    + destruct (IH maxAttempts (attempt + 1) s1) as [k [Hk Hl]].
      exists (S k). split; [lia|]. rewrite Hl, Hs, <- app_assoc.
      f_equal. cbn [seq map app]. rewrite Z.add_0_r. f_equal.
      rewrite <- seq_shift, map_map. apply map_ext. intros i.
      f_equal. lia.
    + exists 1%nat. split; [lia|]. cbn [snd]. rewrite Hs. simpl.
      now rewrite Z.add_0_r.
Qed.

(** Whatever the database does, the delays that [ensureConnected] sleeps
    are those of attempts 1, 2, ..., k in this order, for some k up to
    [maxAttempts], the first attempt being delayed like the others; none
    exceeds the cap [maxDelay] (10000 when the setting is 0). *)
Theorem ensureConnected_sleeps (s : St) :
  exists k,
    (k <= Z.to_nat (or_default (reconnect_maxAttempts cfg) 3))%nat /\
    sleeps (trace (snd (ensureConnected s)))
    = (sleeps (trace s)
       ++ map (fun i => reconnect_delay (Z.of_nat i)) (seq 1 k))%list /\
    Forall (fun ms =>
              Double.leb
                ms (Double.of_Z (or_default (reconnect_maxDelay cfg) 10000))
              = true)
           (map (fun i => reconnect_delay (Z.of_nat i)) (seq 1 k)).
Proof.
  destruct (connected (this s)) eqn:Hc.
  - rewrite ensureConnected_connected by exact Hc.
    exists 0%nat. split; [lia|]. simpl. rewrite app_nil_r.
    split; [reflexivity | constructor].
  - rewrite ensureConnected_disconnected by exact Hc. cbv zeta.
    match goal with
    | |- context [reconnect_loop ?f ?N 1 ?st] =>
        destruct (reconnect_loop_sleeps f N 1 st) as [k [Hk Hl]]
    end.
    exists k. split; [exact Hk|]. rewrite Hl. cbn [trace].
    assert (Hmap : map (fun i => reconnect_delay (1 + Z.of_nat i)) (seq 0 k)
                   = map (fun i => reconnect_delay (Z.of_nat i)) (seq 1 k)).
    { rewrite <- seq_shift, map_map. apply map_ext. intros i. f_equal. lia. }
    rewrite Hmap. split; [reflexivity|].
    apply Forall_forall. intros ms Hin.
    apply in_map_iff in Hin as [i [<- Hi]]. apply in_seq in Hi.
    unfold reconnect_delay. apply calculateBackoff_cap; [lia|].
    unfold or_default. destruct (Z.eqb_spec (reconnect_initialDelay cfg) 0);
      [discriminate | assumption].
Qed.

(** The loop when the connect attempts are rejected [j] times and then
    accepted. *)
Lemma reconnect_loop_succeeds (j : nat) :
  forall (fuel : nat) (maxAttempts attempt : Z) (s : St),
    attempt + Z.of_nat j <= maxAttempts ->
    (j < fuel)%nat ->
    (forall k, (k < j)%nat ->
               prisma_connect env (n_connect (calls s) + k) <> None) ->
    prisma_connect env (n_connect (calls s) + j) = None ->
    let r := reconnect_loop fuel maxAttempts attempt s in
    fst r = inl tt /\
    this (snd r)
      = set_totalReconnects (totalReconnects (this s) + 1)
          (set_reconnectAttempts 0
             (set_lastSuccessfulConnection
                (Some (clock env (n_clock (calls s))))
                (set_connected true (this s)))) /\
    n_connect (calls (snd r)) = S (n_connect (calls s) + j) /\
    n_disconnect (calls (snd r)) = S (n_disconnect (calls s) + j) /\
    exists tr,
      trace (snd r)
        = (trace s ++ tr
           ++ [Emit (Ev_reconnect (attempt + Z.of_nat j));
               PrismaDisconnect (prisma (this s));
               Sleep (reconnect_delay (attempt + Z.of_nat j));
               PrismaConnect (prisma (this s));
               Emit Ev_connect; Emit Ev_reconnect_success])%list /\
      existsb is_reconnect_failed (emitted tr) = false /\
      List.length (filter is_connect_call tr) = j.
Proof.
  induction j as [|j IH]; intros fuel maxAttempts attempt s Hle Hfuel Hrej Hok.
  - destruct fuel as [|fuel]; [lia|].
    rewrite Nat.add_0_r in Hok. rewrite Z.add_0_r in *.
    rewrite reconnect_loop_step by lia.
    destruct (reconnect_attempt_resolves maxAttempts attempt s Hok)
      as [Hr [Hthis [Htrace Hcalls]]].
    destruct (reconnect_attempt maxAttempts attempt s) as [o s1].
    cbn [fst snd] in *. subst o. cbn [fst snd].
    rewrite Hthis, Hcalls, Htrace. cbn [n_connect n_disconnect tick_clock
                                         tick_connect tick_disconnect].
    repeat split; try lia. exists []. repeat split.
  - destruct fuel as [|fuel]; [lia|].
    destruct (prisma_connect env (n_connect (calls s))) as [e0|] eqn:H0.
    2:{ exfalso. apply (Hrej 0%nat); [lia|]. now rewrite Nat.add_0_r. }
    rewrite reconnect_loop_step by lia.
    destruct (reconnect_attempt_rejects maxAttempts attempt s e0 H0)
      as [Hr [Hthis [Htrace Hcalls]]].
    destruct (reconnect_attempt maxAttempts attempt s) as [o s1].
    cbn [fst snd] in Hr, Hthis, Htrace, Hcalls.
    destruct (Z.eqb_spec attempt maxAttempts) as [Heq|Hne]; [lia|].
    subst o.
    assert (Hn : n_connect (calls s1) = S (n_connect (calls s)))
      by now rewrite Hcalls.
    assert (Hc : n_clock (calls s1) = n_clock (calls s))
      by now rewrite Hcalls.
    assert (Hd : n_disconnect (calls s1) = S (n_disconnect (calls s)))
      by now rewrite Hcalls.
    destruct (IH fuel maxAttempts (attempt + 1) s1)
      as [R1 [R2 [R3 [R4 [tr [R5 [R6 R7]]]]]]].
    + lia.
    + lia.
    + intros k Hk. rewrite Hn.
      replace (S (n_connect (calls s)) + k)%nat
        with (n_connect (calls s) + S k)%nat by lia.
      apply Hrej. lia.
    + rewrite Hn.
      replace (S (n_connect (calls s)) + j)%nat
        with (n_connect (calls s) + S j)%nat by lia.
      exact Hok.
    + cbv zeta. rewrite R1, R2, R3, R4, R5, Hthis, Htrace, Hn, Hc, Hd.
      replace (attempt + 1 + Z.of_nat j) with (attempt + Z.of_nat (S j))
        by lia.
      split; [reflexivity|]. split; [reflexivity|].
      split; [lia|]. split; [lia|].
      exists ([Emit (Ev_reconnect attempt);
               PrismaDisconnect (prisma (this s));
               Sleep (reconnect_delay attempt);
               PrismaConnect (prisma (this s)); Emit (Ev_disconnect e0)]
              ++ tr)%list.
      split; [|split].
      * rewrite app_nil_r, <- !app_assoc. reflexivity.
      * unfold emitted in *. rewrite flat_map_app, existsb_app, R6.
        reflexivity.
      * rewrite filter_app, length_app, R7. reflexivity.
Qed.

(** From the Disconnected state, when the connect attempts are rejected
    [j] times and then accepted, [j] being below [maxAttempts],
    [ensureConnected] returns after [j + 1] calls of [$connect], each
    preceded by a call of [$disconnect]; the state is Connected,
    [totalReconnects] has grown by 1 whatever [j], [reconnectAttempts] is
    back to 0, no [reconnect:failed] is emitted, and the last events are
    [reconnect(j + 1)], [connect], [reconnect:success]. *)
Theorem ensureConnected_succeeds_after (j : nat) (s : St) :
  0 <= reconnect_maxAttempts cfg ->
  (j < Z.to_nat (or_default (reconnect_maxAttempts cfg) 3))%nat ->
  connected (this s) = false ->
  (forall k, (k < j)%nat ->
             prisma_connect env (n_connect (calls s) + k) <> None) ->
  prisma_connect env (n_connect (calls s) + j) = None ->
  let r := ensureConnected s in
  fst r = inl tt /\
  connected (this (snd r)) = true /\
  totalReconnects (this (snd r)) = totalReconnects (this s) + 1 /\
  reconnectAttempts (this (snd r)) = 0 /\
  lastSuccessfulConnection (this (snd r))
    = Some (clock env (n_clock (calls s))) /\
  n_connect (calls (snd r)) = S (n_connect (calls s) + j) /\
  n_disconnect (calls (snd r)) = S (n_disconnect (calls s) + j) /\
  exists tr,
    trace (snd r)
      = (trace s ++ tr
         ++ [Emit (Ev_reconnect (1 + Z.of_nat j));
             PrismaDisconnect (prisma (this s));
             Sleep (reconnect_delay (1 + Z.of_nat j));
             PrismaConnect (prisma (this s));
             Emit Ev_connect; Emit Ev_reconnect_success])%list /\
    existsb is_reconnect_failed (emitted tr) = false /\
    List.length (filter is_connect_call tr) = j.
Proof.
  intros Hm Hj Hc Hrej Hok r. subst r.
  rewrite ensureConnected_disconnected by exact Hc. cbv zeta.
  set (s0 := {| this := this s; trace := trace s;
                logged := logged s ++ log_lines debug Msg_ConnectionLost;
                calls := calls s |}).
  destruct (reconnect_loop_succeeds j
              (Z.to_nat (or_default (reconnect_maxAttempts cfg) 3))
              (or_default (reconnect_maxAttempts cfg) 3) 1 s0)
    as [R1 [R2 [R3 [R4 [tr [R5 [R6 R7]]]]]]];
    [lia | exact Hj | exact Hrej | exact Hok |].
  rewrite R1, R2, R3, R4, R5.
  repeat split. exists tr. repeat split; assumption.
Qed.

End MoreEnsureConnected.

Lemma ensureConnected_succeeds_after_witness :
  let r := @ensureConnected DEFAULT_CONFIG env_second (new_St 1%nat) in
  fst r = inl tt /\
  connected (this (snd r)) = true /\
  totalReconnects (this (snd r)) = 1 /\
  n_connect (calls (snd r)) = 2%nat.
Proof.
  destruct (@ensureConnected_succeeds_after DEFAULT_CONFIG env_second 1
              (new_St 1%nat))
    as [H1 [H2 [H3 [_ [_ [H6 _]]]]]].
  - simpl. lia.
  - simpl. lia.
  - reflexivity.
  - intros k Hk. assert (k = 0%nat) by lia. subst k. simpl. discriminate.
  - reflexivity.
  - repeat split; assumption.
Defined.

Section EnsureConnectedOutcome.

Context {cfg : Config} {env : Env}.

Lemma reconnect_loop_returns (fuel : nat) :
  forall (maxAttempts attempt : Z) (s s' : St),
    attempt <= maxAttempts ->
    (Z.to_nat (maxAttempts - attempt + 1) <= fuel)%nat ->
    reconnect_loop fuel maxAttempts attempt s = (inl tt, s') ->
    connected (this s') = true.
Proof.
  induction fuel as [|fuel IH]; intros maxAttempts attempt s s' Hle Hf H.
  - lia.
  - rewrite reconnect_loop_step in H by exact Hle.
    destruct (prisma_connect env (n_connect (calls s))) as [e|] eqn:Hc.
    + destruct (reconnect_attempt_rejects maxAttempts attempt s e Hc)
        as [Hr _].
      destruct (reconnect_attempt maxAttempts attempt s) as [o s1].
      cbn [fst] in Hr. subst o.
      destruct (Z.eqb_spec attempt maxAttempts); [discriminate H|].
      apply (IH maxAttempts (attempt + 1) s1 s'); [lia | lia | exact H].
    + destruct (reconnect_attempt_resolves maxAttempts attempt s Hc)
        as [Hr [Hthis _]].
      destruct (reconnect_attempt maxAttempts attempt s) as [o s1].
      cbn [fst snd] in Hr, Hthis. subst o. injection H as <-.
      now rewrite Hthis.
Qed.

Lemma reconnect_loop_throws_state (fuel : nat) :
  forall (maxAttempts attempt : Z) (s s' : St) (x : JSVal),
    reconnect_loop fuel maxAttempts attempt s = (inr x, s') ->
    connected (this s') = false /\
    reconnectAttempts (this s') = maxAttempts.
Proof.
  induction fuel as [|fuel IH]; intros maxAttempts attempt s s' x H.
  - discriminate H.
  - cbn [reconnect_loop] in H.
    destruct (attempt <=? maxAttempts); [|discriminate H].
    unfold bind in H.
    destruct (prisma_connect env (n_connect (calls s))) as [e|] eqn:Hc.
    + destruct (reconnect_attempt_rejects maxAttempts attempt s e Hc)
        as [Hr [Hthis _]].
      destruct (reconnect_attempt maxAttempts attempt s) as [o s1].
      cbn [fst snd] in Hr, Hthis. subst o.
      destruct (Z.eqb_spec attempt maxAttempts) as [->|].
      * injection H as _ <-. now rewrite Hthis.
      * now apply IH in H.
    + destruct (reconnect_attempt_resolves maxAttempts attempt s Hc)
        as [Hr _].
      destruct (reconnect_attempt maxAttempts attempt s) as [o s1].
      cbn [fst] in Hr. subst o. discriminate H.
Qed.

(** With a number of attempts that is not negative, [ensureConnected]
    returns only in the Connected state; and when it throws, the state is
    Disconnected, [reconnectAttempts] still holds the number of attempts,
    and the error thrown is one that the classifier finds recoverable. *)
Theorem ensureConnected_outcome (s s' : St) :
  0 <= reconnect_maxAttempts cfg ->
  (ensureConnected s = (inl tt, s') -> connected (this s') = true) /\
  (forall x,
      ensureConnected s = (inr x, s') ->
      connected (this s') = false /\
      reconnectAttempts (this s')
        = or_default (reconnect_maxAttempts cfg) 3 /\
      isRetryableError x = inl true).
Proof.
  intros Hm.
  pose proof (or_default_positive (reconnect_maxAttempts cfg) 3 Hm) as HN.
  split.
  - intros H. destruct (connected (this s)) eqn:Hc.
    + rewrite ensureConnected_connected in H by exact Hc.
      injection H as <-. exact Hc.
    + rewrite ensureConnected_disconnected in H by exact Hc. cbv zeta in H.
      apply reconnect_loop_returns in H; [exact H | lia | lia].
  - intros x H. destruct (connected (this s)) eqn:Hc.
    + rewrite ensureConnected_connected in H by exact Hc. discriminate H.
    + pose proof H as H'.
      rewrite ensureConnected_disconnected in H by exact Hc. cbv zeta in H.
      apply reconnect_loop_throws_state in H as [H1 H2].
      split; [exact H1|]. split; [exact H2|].
      apply ensureConnected_throws in H' as [N [e ->]].
      apply exhaustion_error_retryable.
Qed.

(** With a negative number of attempts, [ensureConnected] on a
    Disconnected manager makes no attempt at all and returns: no primitive
    is called, nothing is emitted, and the state stays Disconnected. *)
Theorem ensureConnected_negative_maxAttempts (s : St) :
  reconnect_maxAttempts cfg < 0 ->
  connected (this s) = false ->
  let r := ensureConnected s in
  fst r = inl tt /\
  this (snd r) = this s /\
  trace (snd r) = trace s /\
  calls (snd r) = calls s /\
  connected (this (snd r)) = false.
Proof.
  intros Hm Hc r. subst r.
  rewrite ensureConnected_disconnected by exact Hc. cbv zeta.
  unfold or_default. destruct (Z.eqb_spec (reconnect_maxAttempts cfg) 0); [lia|].
  destruct (reconnect_maxAttempts cfg) as [|p|p] eqn:Hp; try lia.
  cbn [Z.to_nat reconnect_loop ret fst snd this trace calls].
  repeat split. exact Hc.
Qed.

End EnsureConnectedOutcome.

Lemma ensureConnected_outcome_witness :
  connected
    (this (snd (@ensureConnected DEFAULT_CONFIG env_second (new_St 1%nat))))
  = true.
Proof.
  assert (E : @ensureConnected DEFAULT_CONFIG env_second (new_St 1%nat)
              = (inl tt,
                 snd (@ensureConnected DEFAULT_CONFIG env_second
                        (new_St 1%nat))))
    by (vm_compute; reflexivity).
  destruct (@ensureConnected_outcome DEFAULT_CONFIG env_second (new_St 1%nat)
              (snd (@ensureConnected DEFAULT_CONFIG env_second (new_St 1%nat))))
    as [H _].
  - simpl. lia.
  - exact (H E).
Defined.

Lemma ensureConnected_negative_maxAttempts_witness :
  let r := @ensureConnected cfg_negative env_unreachable (new_St 1%nat) in
  fst r = inl tt /\ trace (snd r) = [] /\ connected (this (snd r)) = false.
Proof.
  destruct (@ensureConnected_negative_maxAttempts cfg_negative env_unreachable
              (new_St 1%nat))
    as [H1 [_ [H3 [_ H5]]]].
  - simpl. lia.
  - reflexivity.
  - repeat split; assumption.
Defined.

(* ================================================================== *)
(** ** More on executeWithReconnect *)
(* ================================================================== *)

Section MoreExecute.

Context {cfg : Config} {env : Env}.

(** What the [catch] block leaves alone and what it counts, whatever the
    error handler and the classifier do. *)
Lemma on_failure_counters
    (operationName : string) (startTime : Z) (e : JSVal) (s1 : St) :
  let r := on_failure operationName startTime e s1 in
  queryCount (this (snd r)) = queryCount (this s1) /\
  n_onError (calls (snd r))
    = (n_onError (calls s1)
       + match onError cfg with Some _ => 1 | None => 0 end)%nat /\
  n_heap (calls (snd r)) = n_heap (calls s1).
Proof.
  intros r.
  set (s2 := {| this := set_errorCount (errorCount (this s1) + 1) (this s1);
                trace := trace s1;
                logged := logged s1
                          ++ log_lines error (Msg_Failed operationName e);
                calls := tick_clock (calls s1) |}).
  set (handled :=
         match onError cfg with
         | Some handler =>
             (retryCount <- gets reconnectAttempts ;;
              call_onError handler e
                {| ctx_operation := operationName;
                   ctx_retryCount := retryCount;
                   ctx_duration := clock env (n_clock (calls s1)) - startTime |})
               s2
         | None => (inl tt, s2)
         end).
  set (rest :=
         (retryable <- lift (isRetryableError e) ;;
          if retryable then
            assign (set_connected false) ;;
            emit (Ev_disconnect e) ;;
            log warn Msg_ConnectionErrorDetected ;;
            ensureConnected ;;
            call_operation
          else throw e)).
  assert (E : r = match handled with
                  | (inl _, s') => rest s'
                  | (inr e0, s') => (inr e0, s')
                  end).
  { subst r handled rest s2. unfold on_failure.
    unfold bind at 1 2 3 4 5. unfold gets at 1. unfold assign at 1.
    unfold Date_now at 1. unfold log at 1.
    cbn [fst snd this trace logged calls with_calls].
    destruct (onError cfg); reflexivity. }
  assert (Hrest : forall s3,
             queryCount (this (snd (rest s3))) = queryCount (this s3) /\
             n_onError (calls (snd (rest s3))) = n_onError (calls s3) /\
             n_heap (calls (snd (rest s3))) = n_heap (calls s3)).
  { intros s3. subst rest. unfold bind, lift.
    destruct (isRetryableError e) as [[|]|x]; cbn [snd];
      [|repeat split|repeat split].
    unfold assign, emit, log.
    cbn [fst snd this trace logged calls act].
    match goal with
    | |- context [ensureConnected ?st] =>
        pose proof (ensureConnected_same_counters st)
          as [_ [Ho [Hp [Hq _]]]];
        destruct (ensureConnected st) as [[[]|x] s4]
    end; cbn [snd call_operation with_calls act this calls tick_operation
              n_onError n_heap] in *;
      rewrite Ho, Hp, Hq; repeat split. }
  assert (Hhandled :
            queryCount (this (snd handled)) = queryCount (this s1) /\
            n_onError (calls (snd handled))
              = (n_onError (calls s1)
                 + match onError cfg with Some _ => 1 | None => 0 end)%nat /\
            n_heap (calls (snd handled)) = n_heap (calls s1)).
  { subst handled. destruct (onError cfg) as [handler|].
    - unfold bind, gets, call_onError. cbn [fst snd].
      destruct (handler _ _ _);
        cbn [snd this calls with_calls act tick_onError n_onError n_heap s2
             tick_clock queryCount set_errorCount];
        repeat split; lia.
    - cbn [snd]. subst s2. cbn [this calls queryCount set_errorCount
                                  tick_clock n_onError n_heap].
      repeat split; lia. }
  rewrite E. destruct handled as [[[]|x] s3]; cbn [snd] in *.
  - destruct (Hrest s3) as [R1 [R2 R3]]. destruct Hhandled as [H1 [H2 H3]].
    rewrite R1, R2, R3. repeat split; assumption.
  - exact Hhandled.
Qed.

Lemma attempt_counters (s : St) :
  let r := (ensureConnected ;; call_operation) (snd (Date_now s)) in
  queryCount (this (snd r)) = queryCount (this s) /\
  n_onError (calls (snd r)) = n_onError (calls s) /\
  n_heap (calls (snd r)) = n_heap (calls s).
Proof.
  unfold bind.
  pose proof (ensureConnected_same_counters (snd (Date_now s)))
    as [_ [Ho [Hp [Hq _]]]].
  destruct (ensureConnected (snd (Date_now s))) as [[[]|x] sa];
    cbn [snd call_operation with_calls act this calls tick_operation
         n_onError n_heap Date_now tick_clock] in *;
    repeat split; assumption.
Qed.

Lemma record_success_onError (operationName : string) (startTime : Z) (s : St) :
  n_onError (calls (snd (record_success operationName startTime s)))
  = n_onError (calls s).
Proof.
  unfold record_success. unfold_monad. simpl.
  destruct (memory_autoGC cfg); simpl; [|reflexivity].
  destruct (Qle_bool _ _); simpl; [|reflexivity].
  destruct (global_gc env); reflexivity.
Qed.

(** Every execution counts once, as a query or as an error: when the
    attempt, [ensureConnected] followed by the operation, succeeds,
    [queryCount] grows by 1 and [errorCount] is unchanged; when it fails,
    [errorCount] grows by 1 and [queryCount] is unchanged, whatever happens
    next, a successful retry included. *)
Theorem executeWithReconnect_counts_once (operationName : string) (s : St) :
  let r := executeWithReconnect operationName s in
  queryCount (this (snd r)) + errorCount (this (snd r))
    = queryCount (this s) + errorCount (this s) + 1 /\
  match (ensureConnected ;; call_operation) (snd (Date_now s)) with
  | (inl v, _) =>
      fst r = inl v /\
      queryCount (this (snd r)) = queryCount (this s) + 1 /\
      errorCount (this (snd r)) = errorCount (this s)
  | (inr _, _) =>
      queryCount (this (snd r)) = queryCount (this s) /\
      errorCount (this (snd r)) = errorCount (this s) + 1
  end.
Proof.
  intros r. subst r. rewrite executeWithReconnect_unfold. cbv zeta.
  pose proof (attempt_errorCount s) as He.
  pose proof (attempt_counters s) as [Hq _].
  destruct ((ensureConnected ;; call_operation) (snd (Date_now s)))
    as [[v|e] s1]; cbn [snd] in He, Hq.
  - destruct (record_success_run operationName
                (clock env (n_clock (calls s))) s1) as [_ [Hthis _]].
    cbn [fst snd]. rewrite Hthis. cbn [queryCount errorCount set_queryCount].
    rewrite He, Hq. repeat split; lia.
  - pose proof (on_failure_errorCount operationName
                  (clock env (n_clock (calls s))) e s1) as He'.
    pose proof (on_failure_counters operationName
                  (clock env (n_clock (calls s))) e s1) as [Hq' _].
    rewrite He', Hq', He, Hq. repeat split; lia.
Qed.

(** The error handler is called at most once per execution: once when it
    is configured and the attempt fails, with the error of the attempt,
    and never for a failure of the reconnection or of the retry that
    follow. *)
Theorem onError_called_once (operationName : string) (s : St) :
  let r := executeWithReconnect operationName s in
  n_onError (calls (snd r))
  = (n_onError (calls s)
     + match (ensureConnected ;; call_operation) (snd (Date_now s)),
             onError cfg with
       | (inr _, _), Some _ => 1
       | _, _ => 0
       end)%nat.
Proof.
  intros r. subst r. rewrite executeWithReconnect_unfold. cbv zeta.
  pose proof (attempt_counters s) as [_ [Ho _]].
  destruct ((ensureConnected ;; call_operation) (snd (Date_now s)))
    as [[v|e] s1]; cbn [snd] in Ho.
  - cbn [snd]. rewrite record_success_onError. lia.
  - pose proof (on_failure_counters operationName
                  (clock env (n_clock (calls s))) e s1) as [_ [Ho' _]].
    rewrite Ho', Ho. destruct (onError cfg); lia.
Qed.

(** When the attempt fails with an error on which the classifier itself
    throws, the call throws the classifier's [TypeError], which is not the
    error of the attempt: the error is counted and handed to the handler,
    but nothing is retried, nothing is emitted and the connection state is
    not touched. *)
Theorem executeWithReconnect_classifier_throws
    (operationName : string) (s s1 : St) (e t : JSVal) :
  let startTime := clock env (n_clock (calls s)) in
  let r := executeWithReconnect operationName s in
  (ensureConnected ;; call_operation) (snd (Date_now s)) = (inr e, s1) ->
  handler_returns s1 e ->
  isRetryableError e = inr t ->
  fst r = inr JS.TypeError_not_a_function /\
  e <> JS.TypeError_not_a_function /\
  errorCount (this (snd r)) = errorCount (this s1) + 1 /\
  connected (this (snd r)) = connected (this s1) /\
  n_operation (calls (snd r)) = n_operation (calls s1) /\
  trace (snd r)
    = (trace s1 ++ handler_actions operationName startTime s1 e)%list.
Proof.
  intros startTime r Htry Hh Ht. subst r.
  rewrite executeWithReconnect_unfold. cbv zeta. fold startTime. rewrite Htry.
  assert (Ht' : t = JS.TypeError_not_a_function /\
                e <> JS.TypeError_not_a_function).
  { unfold isRetryableError in Ht.
    destruct e as [| |b|n| |x|isError fields];
      try (rewrite isConnectionError_not_object in Ht by reflexivity);
      try discriminate Ht.
    rewrite isConnectionError_object in Ht. cbv zeta in Ht.
    destruct (JS.truthy (JS.prop (JObj isError fields) "code")
              && JS.array_includes CONNECTION_ERROR_CODES
                   (JS.prop (JObj isError fields) "code"))%bool;
      [discriminate Ht|].
    destruct (JS.prop (JObj isError fields) "message") eqn:Hm;
      try discriminate Ht; injection Ht as <-;
      (split; [reflexivity|]); intros E; rewrite E in Hm;
      discriminate Hm. }
  destruct Ht' as [-> Hne].
  unfold on_failure, handler_actions, handler_returns in *.
  destruct (onError cfg) as [handler|].
  - unfold_monad. cbn [this trace logged calls fst snd tick_clock n_onError].
    rewrite (Hh handler eq_refl). rewrite Ht.
    cbn [this trace logged calls fst snd tick_onError tick_clock n_operation
         errorCount connected set_errorCount].
    repeat split. exact Hne.
  - unfold_monad. cbn [this trace logged calls fst snd]. rewrite Ht.
    cbn [this trace logged calls fst snd tick_clock n_operation
         errorCount connected set_errorCount].
    rewrite app_nil_r. repeat split. exact Hne.
Qed.

End MoreExecute.

Lemma executeWithReconnect_classifier_throws_witness :
  let s := constructed DEFAULT_CONFIG env_numeric in
  let r := @executeWithReconnect DEFAULT_CONFIG env_numeric "user.findMany" s in
  fst r = inr JS.TypeError_not_a_function /\
  connected (this (snd r)) = true.
Proof.
  intros s r.
  assert (E : bind (@ensureConnected DEFAULT_CONFIG env_numeric)
                   (fun _ => @call_operation env_numeric)
                   (snd (@Date_now env_numeric s))
              = (inr numeric_message_error,
                 snd (bind (@ensureConnected DEFAULT_CONFIG env_numeric)
                           (fun _ => @call_operation env_numeric)
                           (snd (@Date_now env_numeric s)))))
    by (vm_compute; reflexivity).
  destruct (@executeWithReconnect_classifier_throws DEFAULT_CONFIG env_numeric
              "user.findMany" s _ numeric_message_error
              JS.TypeError_not_a_function E)
    as [H1 [_ [_ [H4 _]]]].
  - intros handler Hh. discriminate Hh.
  - reflexivity.
  - split; [exact H1|]. etransitivity; [exact H4|]. reflexivity.
Defined.

Section TwoCycles.

Context {cfg : Config} {env : Env}.

(** The exhausted protocol, as a run. *)
Lemma ensureConnected_exhausted_run (s : St) :
  let maxAttempts := or_default (reconnect_maxAttempts cfg) 3 in
  0 <= reconnect_maxAttempts cfg ->
  connected (this s) = false ->
  (forall k, (k < Z.to_nat maxAttempts)%nat ->
             prisma_connect env (n_connect (calls s) + k) <> None) ->
  exists e s',
    prisma_connect env (n_connect (calls s) + Z.to_nat maxAttempts - 1)
      = Some e /\
    ensureConnected s
      = (inr (JS.new_Error (reconnect_failed_message maxAttempts e)), s') /\
    this s' = set_connected false (set_reconnectAttempts maxAttempts (this s)) /\
    n_connect (calls s') = (n_connect (calls s) + Z.to_nat maxAttempts)%nat /\
    n_operation (calls s') = n_operation (calls s) /\
    n_onError (calls s') = n_onError (calls s).
Proof.
  intros maxAttempts Hm Hc Hrej.
  pose proof (or_default_positive (reconnect_maxAttempts cfg) 3 Hm) as HN.
  fold maxAttempts in HN.
  pose proof (ensureConnected_same_counters s) as [Hop [Hoe _]].
  rewrite ensureConnected_disconnected in * by exact Hc. cbv zeta in *.
  fold maxAttempts in Hop, Hoe |- *.
  set (s0 := {| this := this s; trace := trace s;
                logged := logged s ++ log_lines debug Msg_ConnectionLost;
                calls := calls s |}) in *.
  destruct (reconnect_loop_exhausted (Z.to_nat maxAttempts) maxAttempts 1 s0)
    as [e [tr [He [R1 [R2 [_ [_ [_ R6]]]]]]]];
    [lia | f_equal; lia | exact Hrej |].
  destruct (reconnect_loop (Z.to_nat maxAttempts) maxAttempts 1 s0)
    as [o s'].
  cbn [fst snd] in *. subst o. exists e, s'.
  repeat split; assumption.
Qed.

(** The [catch] block on a recoverable error, with the counters it leaves
    to the reconnection that follows. *)
Lemma on_failure_recoverable_calls
    (operationName : string) (startTime : Z) (e : JSVal) (s1 : St) :
  handler_returns s1 e ->
  isRetryableError e = inl true ->
  exists s2,
    on_failure operationName startTime e s1
      = (ensureConnected ;; call_operation) s2 /\
    this s2
      = set_connected false
          (set_errorCount (errorCount (this s1) + 1) (this s1)) /\
    n_connect (calls s2) = n_connect (calls s1) /\
    n_operation (calls s2) = n_operation (calls s1).
Proof.
  intros Hh Hr. unfold on_failure, handler_returns in *.
  destruct (onError cfg) as [handler|].
  - unfold_monad. cbn [this trace logged calls fst snd tick_clock n_onError].
    rewrite (Hh handler eq_refl). rewrite Hr.
    cbn [this trace logged calls fst snd].
    eexists. split; [reflexivity|].
    cbn [this trace logged calls tick_onError tick_clock n_operation
         n_connect].
    repeat split.
  - unfold_monad. cbn [this trace logged calls fst snd]. rewrite Hr.
    cbn [this trace logged calls fst snd].
    eexists. split; [reflexivity|].
    cbn [this trace logged calls tick_clock n_operation n_connect].
    repeat split.
Qed.

(** On a Disconnected manager, while the database rejects every
    connection, one execution goes through the reconnection protocol
    twice: the report of the first exhaustion is itself classified
    recoverable.  It makes twice [maxAttempts] connect attempts, never
    invokes the operation, counts one error, and throws the report of the
    second exhaustion, leaving the state Disconnected. *)
Theorem executeWithReconnect_two_cycles (operationName : string) (s : St) :
  let maxAttempts := or_default (reconnect_maxAttempts cfg) 3 in
  let r := executeWithReconnect operationName s in
  0 <= reconnect_maxAttempts cfg ->
  connected (this s) = false ->
  (forall handler,
      onError cfg = Some handler ->
      forall err context, handler (n_onError (calls s)) err context = None) ->
  (forall k, (k < 2 * Z.to_nat maxAttempts)%nat ->
             prisma_connect env (n_connect (calls s) + k) <> None) ->
  exists e,
    prisma_connect env (n_connect (calls s) + 2 * Z.to_nat maxAttempts - 1)
      = Some e /\
    fst r = inr (JS.new_Error (reconnect_failed_message maxAttempts e)) /\
    n_connect (calls (snd r))
      = (n_connect (calls s) + 2 * Z.to_nat maxAttempts)%nat /\
    n_operation (calls (snd r)) = n_operation (calls s) /\
    errorCount (this (snd r)) = errorCount (this s) + 1 /\
    connected (this (snd r)) = false.
Proof.
  intros maxAttempts r Hm Hc Hh Hrej.
  destruct (ensureConnected_exhausted_run (snd (Date_now s)))
    as [e1 [s1 [_ [E1 [T1 [C1 [O1 H1]]]]]]];
    [exact Hm | exact Hc | |].
  { intros k Hk. apply Hrej. fold maxAttempts in Hk. lia. }
  fold maxAttempts in E1, T1, C1.
  cbn [Date_now snd with_calls calls this tick_clock n_connect n_operation
       n_onError] in T1, C1, O1, H1.
  assert (Ea : (ensureConnected ;; call_operation) (snd (Date_now s))
               = (inr (JS.new_Error (reconnect_failed_message maxAttempts e1)),
                  s1)).
  { unfold bind. now rewrite E1. }
  destruct (on_failure_recoverable_calls operationName
              (clock env (n_clock (calls s)))
              (JS.new_Error (reconnect_failed_message maxAttempts e1)) s1)
    as [s2 [E2 [T2 [C2 O2]]]].
  { intros handler Hhd context. rewrite H1. now apply Hh. }
  { apply exhaustion_error_retryable. }
  destruct (ensureConnected_exhausted_run s2)
    as [e2 [s3 [He2 [E3 [T3 [C3 [O3 _]]]]]]];
    [exact Hm | now rewrite T2 | |].
  { intros k Hk. fold maxAttempts in Hk. rewrite C2, C1.
    replace (n_connect (calls s) + Z.to_nat maxAttempts + k)%nat
      with (n_connect (calls s) + (Z.to_nat maxAttempts + k))%nat by lia.
    apply Hrej. lia. }
  fold maxAttempts in He2, E3, T3, C3.
  assert (Er : r = (inr (JS.new_Error
                           (reconnect_failed_message maxAttempts e2)), s3)).
  { subst r. rewrite executeWithReconnect_unfold. cbv zeta.
    rewrite Ea, E2. unfold bind. now rewrite E3. }
  rewrite Er. cbn [fst snd].
  exists e2. rewrite C2, C1 in He2.
  split.
  { replace (n_connect (calls s) + 2 * Z.to_nat maxAttempts - 1)%nat
      with (n_connect (calls s) + Z.to_nat maxAttempts
            + Z.to_nat maxAttempts - 1)%nat by lia.
    exact He2. }
  split; [reflexivity|].
  split; [rewrite C3, C2, C1; lia|].
  split; [now rewrite O3, O2, O1|].
  rewrite T3, T2, T1. split; reflexivity.
Qed.

End TwoCycles.

Lemma executeWithReconnect_two_cycles_witness :
  let s := constructed DEFAULT_CONFIG env_unreachable in
  let r :=
    @executeWithReconnect DEFAULT_CONFIG env_unreachable "user.findMany" s in
  exists e,
    fst r = inr (JS.new_Error (reconnect_failed_message 3 e)) /\
    n_connect (calls (snd r)) = (n_connect (calls s) + 6)%nat /\
    n_operation (calls (snd r)) = n_operation (calls s).
Proof.
  intros s r.
  destruct (@executeWithReconnect_two_cycles DEFAULT_CONFIG env_unreachable
              "user.findMany" s)
    as [e [_ [H1 [H2 [H3 _]]]]].
  - simpl. lia.
  - reflexivity.
  - intros handler Hh. discriminate Hh.
  - intros k _. simpl. discriminate.
  - exists e. repeat split; assumption.
Defined.

(* ================================================================== *)
(** ** The life cycle: initialize, reconnect, refresh, shutdown *)
(* ================================================================== *)

Section LifeCycle.

Context {cfg : Config} {env : Env}.

(** [initialize] never throws.  When the first connection is accepted the
    manager is Connected and each timer is armed if its option is enabled,
    with its interval (300000 resp. 60000 when the setting is 0).  When it
    is rejected the manager is Disconnected, the error is logged, and
    neither timer is armed, whatever the options say. *)
Theorem initialize_spec (s : St) :
  let r := initialize s in
  fst r = inl tt /\
  match prisma_connect env (n_connect (calls s)) with
  | None =>
      connected (this (snd r)) = true /\
      refreshTimer (this (snd r))
        = (if refresh_enabled cfg
           then Some (or_default (refresh_intervalMs cfg) 300000)
           else refreshTimer (this s)) /\
      healthCheckTimer (this (snd r))
        = (if healthCheck_enabled cfg
           then Some (or_default (healthCheck_intervalMs cfg) 60000)
           else healthCheckTimer (this s)) /\
      trace (snd r)
        = (trace s ++ [PrismaConnect (prisma (this s)); Emit Ev_connect])%list
  | Some e =>
      connected (this (snd r)) = false /\
      refreshTimer (this (snd r)) = refreshTimer (this s) /\
      healthCheckTimer (this (snd r)) = healthCheckTimer (this s) /\
      trace (snd r)
        = (trace s ++ [PrismaConnect (prisma (this s));
                       Emit (Ev_disconnect e)])%list /\
      logged (snd r) = (logged s ++ [(error, Msg_FailedToInitialize e)])%list
  end.
Proof.
  intros r. subst r. unfold initialize. unfold try_catch. unfold bind.
  destruct (prisma_connect env (n_connect (calls s))) as [e|] eqn:Hc.
  - rewrite (connect_rejects s e Hc). unfold log.
    cbn [fst snd this trace logged calls refreshTimer healthCheckTimer
         connected set_connected].
    rewrite log_lines_error. repeat split.
  - rewrite (connect_resolves s Hc).
    unfold startPeriodicRefresh, startHealthChecks.
    destruct (refresh_enabled cfg), (healthCheck_enabled cfg);
      unfold bind, assign, ret;
      cbn [fst snd this trace logged calls refreshTimer healthCheckTimer
           connected set_connected set_refreshTimer set_healthCheckTimer
           set_reconnectAttempts set_lastSuccessfulConnection];
      repeat split.
Qed.

(** [shutdown] never throws: it clears both timers, calls [$disconnect]
    and leaves the state Disconnected; a second call does the same and
    changes no field.  It is not final: if the database then accepts a
    connection, [ensureConnected] brings the manager back to Connected. *)
Theorem shutdown_spec (s : St) :
  let r := shutdown s in
  let r' := shutdown (snd r) in
  fst r = inl tt /\
  refreshTimer (this (snd r)) = None /\
  healthCheckTimer (this (snd r)) = None /\
  connected (this (snd r)) = false /\
  trace (snd r) = (trace s ++ [PrismaDisconnect (prisma (this s))])%list /\
  fst r' = inl tt /\
  this (snd r') = this (snd r) /\
  n_disconnect (calls (snd r')) = S (S (n_disconnect (calls s))) /\
  (0 <= reconnect_maxAttempts cfg ->
   prisma_connect env (n_connect (calls s)) = None ->
   fst (ensureConnected (snd r)) = inl tt /\
   connected (this (snd (ensureConnected (snd r)))) = true).
Proof.
  intros r r'.
  assert (Hrun : forall s0,
             shutdown s0
             = (inl tt,
                {| this := set_connected false
                             (set_healthCheckTimer None
                                (set_refreshTimer None (this s0)));
                   trace := trace s0 ++ [PrismaDisconnect (prisma (this s0))];
                   logged := logged (snd (shutdown s0));
                   calls := tick_disconnect (calls s0) |})).
  { intros s0. unfold shutdown. unfold bind, log, assign.
    cbn [fst snd this trace logged calls].
    rewrite disconnect_run. reflexivity. }
  subst r r'. rewrite (Hrun (snd (shutdown s))). rewrite (Hrun s).
  cbn [fst snd this trace logged calls refreshTimer healthCheckTimer connected
       set_connected set_refreshTimer set_healthCheckTimer prisma
       tick_disconnect n_disconnect].
  do 8 (split; [reflexivity|]).
  intros Hm Hc.
  match goal with
  | |- context [ensureConnected ?st] =>
      destruct (ensureConnected_resolves st) as [Hf [Ht _]];
        [exact Hm | reflexivity | exact Hc |]
  end.
  split; [exact Hf | now rewrite Ht].
Qed.

(** The public [reconnect] does not trust the state: Connected or not, it
    calls [$disconnect] and [$connect]; when that connection is accepted
    it returns with the state Connected, a fresh instant of last
    connection and one more reconnect counted. *)
Theorem reconnect_forces (s : St) :
  0 <= reconnect_maxAttempts cfg ->
  prisma_connect env (n_connect (calls s)) = None ->
  let r := reconnect s in
  fst r = inl tt /\
  connected (this (snd r)) = true /\
  totalReconnects (this (snd r)) = totalReconnects (this s) + 1 /\
  lastSuccessfulConnection (this (snd r))
    = Some (clock env (n_clock (calls s))) /\
  trace (snd r)
    = (trace s
       ++ [Emit (Ev_reconnect 1); PrismaDisconnect (prisma (this s));
           Sleep (reconnect_delay 1); PrismaConnect (prisma (this s));
           Emit Ev_connect; Emit Ev_reconnect_success])%list.
Proof.
  intros Hm Hc r. subst r. unfold reconnect. unfold bind, assign.
  cbn [fst snd].
  match goal with
  | |- context [ensureConnected ?st] =>
      destruct (ensureConnected_resolves st) as [Hf [Ht [Htr _]]];
        [exact Hm | reflexivity | exact Hc |];
        destruct (ensureConnected st) as [o s']
  end.
  cbn [fst snd this trace calls prisma set_connected] in *. subst o.
  rewrite Ht, Htr. repeat split.
Qed.

(** A tick of the refresh timer whose connection is accepted is counted as
    a reconnect: it calls [$disconnect] twice and [$connect] once, emits
    [reconnect(1)], [connect] and [reconnect:success], adds 1 to
    [totalReconnects] and moves the instant of last connection to now, so
    that the uptime starts again from 0. *)
Theorem refreshTick_counts_as_reconnect (s : St) :
  0 <= reconnect_maxAttempts cfg ->
  prisma_connect env (n_connect (calls s)) = None ->
  let r := refreshTick s in
  fst r = inl tt /\
  connected (this (snd r)) = true /\
  totalReconnects (this (snd r)) = totalReconnects (this s) + 1 /\
  lastSuccessfulConnection (this (snd r))
    = Some (clock env (n_clock (calls s))) /\
  trace (snd r)
    = (trace s
       ++ [PrismaDisconnect (prisma (this s));
           Emit (Ev_reconnect 1); PrismaDisconnect (prisma (this s));
           Sleep (reconnect_delay 1); PrismaConnect (prisma (this s));
           Emit Ev_connect; Emit Ev_reconnect_success])%list.
Proof.
  intros Hm Hc r. subst r. rewrite refreshTick_unfold.
  unfold bind. cbn [assign log fst snd].
  rewrite disconnect_run. cbn [fst snd].
  match goal with
  | |- context [ensureConnected ?st] =>
      destruct (ensureConnected_resolves st) as [Hf [Ht [Htr _]]];
        [exact Hm | reflexivity | exact Hc |];
        destruct (ensureConnected st) as [o s']
  end.
  cbn [fst snd this trace calls prisma set_connected] in *. subst o.
  cbn [log fst snd this trace]. rewrite Ht, Htr, <- app_assoc.
  repeat split.
Qed.

End LifeCycle.

Lemma reconnect_forces_witness :
  let s := constructed DEFAULT_CONFIG env_old in
  let r := @reconnect DEFAULT_CONFIG env_old s in
  connected (this s) = true /\
  fst r = inl tt /\
  totalReconnects (this (snd r)) = totalReconnects (this s) + 1.
Proof.
  intros s r.
  destruct (@reconnect_forces DEFAULT_CONFIG env_old s) as [H1 [_ [H3 _]]].
  - simpl. lia.
  - reflexivity.
  - split; [reflexivity|]. split; assumption.
Defined.

Lemma refreshTick_counts_as_reconnect_witness :
  let s := constructed DEFAULT_CONFIG env_old in
  let r := @refreshTick DEFAULT_CONFIG env_old s in
  fst r = inl tt /\
  totalReconnects (this (snd r)) = totalReconnects (this s) + 1 /\
  lastSuccessfulConnection (this (snd r)) = Some 70000000.
Proof.
  intros s r.
  destruct (@refreshTick_counts_as_reconnect DEFAULT_CONFIG env_old s)
    as [H1 [_ [H3 [H4 _]]]].
  - simpl. lia.
  - reflexivity.
  - split; [exact H1|]. split; [exact H3|]. exact H4.
Defined.

(* ================================================================== *)
(** ** What holds after any sequence of calls *)
(* ================================================================== *)

Section Invariants.

Context {cfg : Config} {env : Env}.

Lemma reconnect_step_connected_since (a b : St) :
  reconnect_step a b -> connected_since a -> connected_since b.
Proof.
  intros H Ha. destruct H; unfold connected_since in *; try exact Ha.
  - destruct (prisma_connect env (n_connect (calls s))) as [e|] eqn:Hc.
    + rewrite (connect_rejects s e Hc). now left.
    + rewrite (connect_resolves s Hc). right. eexists. reflexivity.
  - rewrite disconnect_run. now left.
Qed.

Lemma manager_step_connected_since (a b : St) :
  manager_step a b -> connected_since a -> connected_since b.
Proof.
  intros H Ha. destruct H; unfold connected_since in *; try exact Ha.
  - now left.
  - unfold call_onError. destruct (handler _ err context); exact Ha.
  - unfold triggerGC. destruct (global_gc env); exact Ha.
  - now apply (reconnect_step_connected_since s s').
Qed.

(** After any sequence of calls on a new manager, a manager whose state is
    Connected has an instant of last connection: its statistics never
    show [isConnected] with a [null] [lastSuccessfulConnection]. *)
Theorem connected_has_connection_time (h : Handle) (l : list Call) :
  let s := run_calls l (new_St h) in
  connected (this s) = false \/
  exists t,
    lastSuccessfulConnection (this s) = Some t /\
    forall stats,
      fst (getConnectionStats s) = inl stats ->
      stat_lastSuccessfulConnection stats = Some t.
Proof.
  intros s.
  assert (H : connected_since s).
  { apply (star_invariant manager_step connected_since) with (a := new_St h).
    - apply manager_step_connected_since.
    - apply run_calls_steps.
    - now left. }
  destruct H as [H|[t H]]; [now left|]. right. exists t.
  split; [exact H|]. intros stats Hs.
  unfold getConnectionStats in Hs. unfold_monad. rewrite H in Hs.
  cbn [fst] in Hs. injection Hs as <-. exact H.
Qed.

Lemma log_lines_at_level (level : LogLevel) (msg : LogMsg) :
  Forall (fun line =>
            level_index (match logging_level cfg with
                         | Some l => l
                         | None => info
                         end)
            <= level_index (fst line))
         (log_lines level msg).
Proof.
  unfold log_lines.
  destruct (Z.geb_spec (level_index level)
              (level_index (match logging_level cfg with
                            | Some l => l
                            | None => info
                            end))).
  - constructor; [cbn [fst]; lia | constructor].
  - constructor.
Qed.

Lemma reconnect_step_logged (a b : St) :
  reconnect_step a b -> logged_at_level cfg a -> logged_at_level cfg b.
Proof.
  intros H Ha. destruct H; unfold logged_at_level in *; try exact Ha.
  - destruct (prisma_connect env (n_connect (calls s))) as [e|] eqn:Hc.
    + now rewrite (connect_rejects s e Hc).
    + rewrite (connect_resolves s Hc). cbn [snd logged].
      apply Forall_app. split; [exact Ha | apply log_lines_at_level].
  - rewrite disconnect_run. cbn [snd logged].
    apply Forall_app. split; [exact Ha|].
    destruct (prisma_disconnect env _); apply log_lines_at_level.
  - cbn [log snd logged].
    apply Forall_app. split; [exact Ha | apply log_lines_at_level].
Qed.

Lemma manager_step_logged (a b : St) :
  manager_step a b -> logged_at_level cfg a -> logged_at_level cfg b.
Proof.
  intros H Ha. destruct H; unfold logged_at_level in *; try exact Ha.
  - unfold call_onError. destruct (handler _ err context); exact Ha.
  - unfold triggerGC. destruct (global_gc env); exact Ha.
  - now apply (reconnect_step_logged s s').
Qed.

(** Whatever is called on a manager, no line below the configured level
    ([info] when none is set) reaches the logger; a rejection of
    [$disconnect], logged at level [error], always does. *)
Theorem logger_sees_configured_levels (h : Handle) (l : list Call) :
  let s := run_calls l (new_St h) in
  Forall (fun line =>
            level_index (match logging_level cfg with
                         | Some l => l
                         | None => info
                         end)
            <= level_index (fst line))
         (logged s) /\
  ((logging_level cfg = None \/ logging_level cfg = Some info) ->
   forall msg, ~ In (debug, msg) (logged s)).
Proof.
  intros s.
  assert (H : logged_at_level cfg s).
  { apply (star_invariant manager_step (logged_at_level cfg))
      with (a := new_St h).
    - apply manager_step_logged.
    - apply run_calls_steps.
    - constructor. }
  split; [exact H|].
  intros Hl msg Hin. unfold logged_at_level in H.
  rewrite Forall_forall in H. specialize (H _ Hin). cbn [fst] in H.
  destruct Hl as [Hl|Hl]; rewrite Hl in H; simpl in H; lia.
Qed.

End Invariants.

(* ================================================================== *)
(** ** The counters only grow *)
(* ================================================================== *)

Lemma counts_le_refl (s : St) : counts_le s s.
Proof. unfold counts_le. lia. Qed.

Lemma counts_le_trans (a b c : St) :
  counts_le a b -> counts_le b c -> counts_le a c.
Proof. unfold counts_le. lia. Qed.

Lemma star_counts_le (a b : St) : star counts_le a b -> counts_le a b.
Proof.
  intros H. induction H as [|a b c _ IH Hbc]; [apply counts_le_refl|].
  eapply counts_le_trans; eassumption.
Qed.

Section Counting.

Context {cfg : Config} {env : Env}.

Lemma Moves_incr_queryCount {A : Type} (k : M A) :
  Moves (star counts_le) k ->
  Moves (star counts_le)
        (n <- gets queryCount ;; assign (set_queryCount (n + 1)) ;; k).
Proof.
  intros Hk s. unfold bind, gets, assign. cbn [fst snd].
  eapply star_trans; [|apply Hk]. apply star_one.
  unfold counts_le. cbn. lia.
Qed.

Lemma Moves_incr_errorCount {A : Type} (k : M A) :
  Moves (star counts_le) k ->
  Moves (star counts_le)
        (n <- gets errorCount ;; assign (set_errorCount (n + 1)) ;; k).
Proof.
  intros Hk s. unfold bind, gets, assign. cbn [fst snd].
  eapply star_trans; [|apply Hk]. apply star_one.
  unfold counts_le. cbn. lia.
Qed.

Lemma Moves_incr_totalReconnects {A : Type} (k : M A) :
  Moves (star counts_le) k ->
  Moves (star counts_le)
        (n <- gets totalReconnects ;; assign (set_totalReconnects (n + 1)) ;; k).
Proof.
  intros Hk s. unfold bind, gets, assign. cbn [fst snd].
  eapply star_trans; [|apply Hk]. apply star_one.
  unfold counts_le. cbn. lia.
Qed.

Ltac count_structure :=
  repeat match goal with
         | |- Moves _ (bind (gets queryCount) _) =>
             apply Moves_incr_queryCount
         | |- Moves _ (bind (gets errorCount) _) =>
             apply Moves_incr_errorCount
         | |- Moves _ (bind (gets totalReconnects) _) =>
             apply Moves_incr_totalReconnects
         | |- Moves _ (ret _) => apply Moves_ret
         | |- Moves _ (throw _) => apply Moves_throw
         | |- Moves _ (lift _) => apply Moves_lift
         | |- Moves _ (gets _) => apply Moves_gets
         | |- Moves _ (bind _ _) => apply Moves_bind
         | |- Moves _ (try_catch _ _) => apply Moves_try_catch
         | |- forall _, Moves _ _ => intro
         end.

Ltac count_atom :=
  apply Moves_one; intros ?s;
  unfold counts_le, assign, emit, sleep, log, call_connect, call_disconnect,
    call_operation, call_onError, Date_now, getHeapUsagePercent, triggerGC;
  repeat match goal with
         | |- context [match ?x with _ => _ end] => destruct x
         end;
  cbn; lia.

Ltac count_all := repeat (count_structure; try moves_case).

Lemma connect_counts : Moves (star counts_le) connect.
Proof. unfold connect. count_all; count_atom. Qed.

Lemma disconnect_counts : Moves (star counts_le) disconnect.
Proof. unfold disconnect. count_all; count_atom. Qed.

Lemma reconnect_loop_counts (fuel : nat) (maxAttempts attempt : Z) :
  Moves (star counts_le) (reconnect_loop fuel maxAttempts attempt).
Proof.
  revert attempt. induction fuel as [|fuel IH]; intros attempt; simpl.
  - apply Moves_ret.
  - destruct (attempt <=? maxAttempts); [|apply Moves_ret].
    apply Moves_bind.
    + unfold reconnect_attempt.
      count_all;
        first [apply connect_counts | apply disconnect_counts | count_atom].
    + intros [|]; [apply Moves_ret | apply IH].
Qed.

Lemma ensureConnected_counts : Moves (star counts_le) ensureConnected.
Proof.
  unfold ensureConnected. count_all;
    first [apply reconnect_loop_counts | count_atom].
Qed.

Ltac count_method :=
  count_all;
  first [ apply ensureConnected_counts
        | apply connect_counts
        | apply disconnect_counts
        | count_atom ].

Lemma executeWithReconnect_counts (operationName : string) :
  Moves (star counts_le) (executeWithReconnect operationName).
Proof.
  unfold executeWithReconnect, record_success, on_failure. count_method.
Qed.

Lemma refreshTick_counts : Moves (star counts_le) refreshTick.
Proof. unfold refreshTick. count_method. Qed.

Lemma initialize_counts : Moves (star counts_le) initialize.
Proof.
  unfold initialize, startPeriodicRefresh, startHealthChecks. count_method.
Qed.

Lemma getConnectionStats_counts : Moves (star counts_le) getConnectionStats.
Proof. unfold getConnectionStats. count_method. Qed.

Lemma reconnect_counts : Moves (star counts_le) reconnect.
Proof. unfold reconnect. count_method. Qed.

Lemma shutdown_counts : Moves (star counts_le) shutdown.
Proof. unfold shutdown. count_method. Qed.

Lemma run_call_counts (c : Call) (s : St) : counts_le s (run_call c s).
Proof.
  apply star_counts_le. destruct c; cbn [run_call].
  - apply initialize_counts.
  - apply executeWithReconnect_counts.
  - apply connect_counts.
  - apply disconnect_counts.
  - apply refreshTick_counts.
  - apply reconnect_counts.
  - apply getConnectionStats_counts.
  - apply shutdown_counts.
Qed.

(** The three counters of the statistics never go down: whatever the
    state of a manager and whatever is called on it next, [queryCount],
    [errorCount] and [totalReconnects] are afterwards at least what they
    were, and so are the figures that [getConnectionStats] reports. *)
Theorem counters_never_decrease (s : St) (l : list Call) :
  counts_le s (run_calls l s) /\
  forall before after,
    fst (getConnectionStats s) = inl before ->
    fst (getConnectionStats (run_calls l s)) = inl after ->
    stat_queryCount before <= stat_queryCount after /\
    stat_errorCount before <= stat_errorCount after /\
    stat_totalReconnects before <= stat_totalReconnects after.
Proof.
  assert (H : counts_le s (run_calls l s)).
  { revert s. induction l as [|c l IH]; intros s; cbn [run_calls fold_left].
    - apply counts_le_refl.
    - eapply counts_le_trans; [apply run_call_counts | apply IH]. }
  split; [exact H|].
  intros before after Hb Ha.
  assert (Hstats : forall x st,
             fst (getConnectionStats x) = inl st ->
             stat_queryCount st = queryCount (this x) /\
             stat_errorCount st = errorCount (this x) /\
             stat_totalReconnects st = totalReconnects (this x)).
  { intros x st Hx. unfold getConnectionStats in Hx. unfold_monad.
    destruct (lastSuccessfulConnection (this x));
      cbn in Hx; injection Hx as <-; cbn; repeat split. }
  destruct (Hstats _ _ Hb) as [B1 [B2 B3]].
  destruct (Hstats _ _ Ha) as [A1 [A2 A3]].
  unfold counts_le in H. lia.
Qed.

End Counting.

(* ================================================================== *)
(** ** The health check reports and does nothing else *)
(* ================================================================== *)

Section HealthCheckFacts.

Context {env : Env}.

Variable MemoryInfo : Type.

(** [healthCheck] never rejects.  It reports [healthy] exactly when the
    probe resolves, with the time between its two clock readings as the
    latency, and otherwise [unhealthy] with the message of the probe's
    error.  Either way it leaves every field of the manager as it was,
    emits nothing, logs nothing and drives no client call of the trace: a
    probe that fails with a connection error neither marks the manager
    disconnected, nor counts as an error, nor starts a reconnection. *)
Theorem healthCheck_spec
    (queryRaw : Outcome JSVal) (memoryInfo : MemoryInfo) (s : St) :
  let r := healthCheck MemoryInfo queryRaw memoryInfo s in
  let n := n_clock (calls s) in
  (exists res,
      fst r = inl res /\
      match queryRaw with
      | inl _ =>
          res = {| hc_status := healthy;
                   hc_database := database_connected;
                   hc_latency := Some (clock env (S n) - clock env n);
                   hc_memory := Some memoryInfo;
                   hc_error := None |} /\
          n_clock (calls (snd r)) = S (S n)
      | inr e =>
          res = {| hc_status := unhealthy;
                   hc_database := database_disconnected;
                   hc_latency := None;
                   hc_memory := None;
                   hc_error := Some (getErrorMessage e) |} /\
          n_clock (calls (snd r)) = S n
      end) /\
  this (snd r) = this s /\
  trace (snd r) = trace s /\
  logged (snd r) = logged s /\
  n_connect (calls (snd r)) = n_connect (calls s) /\
  n_disconnect (calls (snd r)) = n_disconnect (calls s) /\
  n_operation (calls (snd r)) = n_operation (calls s) /\
  n_onError (calls (snd r)) = n_onError (calls s) /\
  n_heap (calls (snd r)) = n_heap (calls s).
Proof.
  intros r n. subst r n. unfold healthCheck.
  destruct queryRaw as [v|e]; unfold_monad; cbn.
  - split; [eexists; split; [reflexivity|]; split; reflexivity|].
    repeat split.
  - split; [eexists; split; [reflexivity|]; split; reflexivity|].
    repeat split.
Qed.

End HealthCheckFacts.
